(** * print_photos.py: the print-sheet composition engine

    A shallow embedding of [PhotoProcessor] (src/print_photos.py): the
    Quadrant Fitter [fit_image_to_quad], the Layout Selector
    [_calculate_layout_area], the two Sheet Compositors [create_2x2_sheet]
    and [create_1x2_sheet], and the Batch Scheduler [process_folders].

    Python's [float] is IEEE 754 binary64.  The Fitter divides and multiplies
    in floating point and truncates with [int(..)], so the arithmetic is
    modelled with its rounding: module [Binary64] gives round-to-nearest-even
    on exact rationals, and the Fitter's bounds are proved about the rounded
    values, not about real-number arithmetic. *)

From Stdlib Require Import ZArith QArith Qround Qabs Qpower Lia Lqa Bool List String.
From Stdlib Require Floats.
From stdpp Require Import gmap strings pretty.

(* ===================================================================== *)
(** * Binary64 arithmetic as Python performs it *)
(* ===================================================================== *)

Module Binary64.
Local Open Scope Q_scope.

(** Precision and exponent of the smallest subnormal of binary64. *)
Definition prec : Z := 53.
Definition emin : Z := -1074.

Definition pow2 (e : Z) : Q := 2 ^ e.

(** [ilog2 x] is the integer [k] with [2^k <= x < 2^(k+1)], for [0 < x]. *)
Definition ilog2 (x : Q) : Z :=
  let k := (Z.log2 (Qnum x) - Z.log2 (Zpos (Qden x)))%Z in
  if Qle_bool (pow2 k) x then k else (k - 1)%Z.

(** Exponent of the unit in the last place of [x]: 53 significant bits,
    never below the subnormal spacing [2^emin]. *)
Definition ulp_exp (x : Q) : Z := Z.max (ilog2 (Qabs x) - (prec - 1)) emin.

(** Nearest integer, halves to the even neighbour. *)
Definition Qrne (x : Q) : Z :=
  let f := Qfloor x in
  match Qcompare (x - inject_Z f) (1 # 2) with
  | Lt => f
  | Gt => (f + 1)%Z
  | Eq => if Z.even f then f else (f + 1)%Z
  end.

(** Round-to-nearest-even into binary64.  A float is carried as the exact
    rational it denotes, in lowest terms.  Subnormals are included.  The
    exponent is unbounded above: overflow to infinity is outside the model
    (lemma [covered_area_bound] below keeps the Fitter's values under
    [2^106], far from [2^1024]). *)
Definition rnd (x : Q) : Q :=
  let e := ulp_exp x in Qred (inject_Z (Qrne (x / pow2 e)) * pow2 e).

(** A rational is a binary64 number when rounding leaves it unchanged. *)
Definition is_float (c : Q) : Prop := rnd c == c.

Definition float := Q.

(** [a / b] on two ints: the correctly rounded quotient. *)
Definition truediv (a b : Z) : float := rnd (inject_Z a / inject_Z b).
(** Conversion of an int operand that meets a float. *)
Definition of_int (a : Z) : float := rnd (inject_Z a).
Definition mul (x y : float) : float := rnd (x * y).
Definition add (x y : float) : float := rnd (x + y).
Definition sub (x y : float) : float := rnd (x - y).
Definition div (x y : float) : float := rnd (x / y).
Definition leb (x y : float) : bool := Qle_bool x y.
Definition ltb (x y : float) : bool := negb (Qle_bool y x).
(** [min(x, y)] and [max(x, y)] keep the first argument unless the second
    is strictly smaller, respectively strictly larger. *)
Definition min (x y : float) : float := if ltb y x then y else x.
Definition max (x y : float) : float := if ltb x y then y else x.
(** [int(x)]: truncation toward zero. *)
Definition trunc (x : float) : Z := Z.quot (Qnum x) (Zpos (Qden x)).
(** [math.ceil(x)]. *)
Definition ceil (x : float) : Z := Qceiling x.

End Binary64.

Import Binary64.
Local Open Scope Z_scope.

(* ===================================================================== *)
(** * Configuration (print_photos.py, lines 12-18) *)
(* ===================================================================== *)

(** The literal [1.2]: the binary64 number nearest to 12/10. *)
Definition ENHANCEMENT_FACTOR : float := rnd (12 # 10).
Definition DPI : Z := 300.
Definition OUTPUT_WIDTH_PX : Z := 6 * DPI.
Definition OUTPUT_HEIGHT_PX : Z := 4 * DPI.

(* ===================================================================== *)
(** * The imaging library *)
(* ===================================================================== *)

(** What the program takes from the imaging library.  Pixel values and the
    filters that compute them are left to the library; the sizes of the
    images they produce are fixed below, where the operations are defined.
    Decoding a file may fail ([open_rgb] below), and [resize] raises for an
    empty size ([resize_checked] below); the program calls [resize] outside
    its per-image [try]. *)
Class Imaging := {
  pixel : Type;
  (** the colour ['white'] *)
  white : pixel;
  (** [lanczos w h src new_w new_h]: the pixels of a [w] x [h] buffer
      resampled at [new_w] x [new_h] with the Lanczos filter *)
  lanczos : Z -> Z -> (Z -> Z -> pixel) -> Z -> Z -> (Z -> Z -> pixel);
  (** [ImageEnhance.Color(img).enhance(factor)] *)
  enhance_color : float -> (Z -> Z -> pixel) -> (Z -> Z -> pixel);
  (** [ImageEnhance.Brightness(img).enhance(factor)] *)
  enhance_brightness : float -> (Z -> Z -> pixel) -> (Z -> Z -> pixel)
}.

Section Images.
Context {lib : Imaging}.

(** An image: [img.size] and the pixel buffer, addressed by column and row. *)
Record image := Image {
  width : Z;
  height : Z;
  pixels : Z -> Z -> pixel
}.

(** [Image.new('RGB', (w, h), colour)] *)
Definition new_image (w h : Z) (colour : pixel) : image :=
  {| width := w; height := h; pixels := fun _ _ => colour |}.

(** [img.resize((new_w, new_h), Image.Resampling.LANCZOS)]: the image it
    returns, when it returns. *)
Definition resize (img : image) (new_w new_h : Z) : image :=
  {| width := new_w; height := new_h;
     pixels := lanczos (width img) (height img) (pixels img) new_w new_h |}.

(** The imaging library refuses an empty result: [resize] raises
    [ValueError] when a requested side is below 1. *)
Definition resize_raises (new_w new_h : Z) : bool :=
  (new_w <? 1) || (new_h <? 1).

(** [img.resize(...)] with its exception: [None] when it raises. *)
Definition resize_checked (img : image) (new_w new_h : Z) : option image :=
  if resize_raises new_w new_h then None else Some (resize img new_w new_h).

(** [img.rotate(90, expand=True)]: a quarter turn counter-clockwise; the
    size is swapped. *)
Definition rotate90 (img : image) : image :=
  {| width := height img; height := width img;
     pixels := fun x y => pixels img (width img - 1 - y) x |}.

(** The box of [w] x [h] pixels whose top-left corner is [(x0, y0)]. *)
Definition in_box (x0 y0 w h x y : Z) : bool :=
  (x0 <=? x) && (x <? x0 + w) && (y0 <=? y) && (y <? y0 + h).

(** [sheet.paste(im, (x0, y0))]: the pixels of [im] replace those of the
    sheet in the box of [im]'s size at [(x0, y0)].  Only the pixels inside
    an image's own [width] x [height] carry meaning. *)
Definition paste (sheet im : image) (x0 y0 : Z) : image :=
  {| width := width sheet; height := height sheet;
     pixels := fun x y =>
       if in_box x0 y0 (width im) (height im) x y
       then pixels im (x - x0) (y - y0)
       else pixels sheet x y |}.

(** [apply_enhancements] (lines 40-49): saturation by [factor], then
    brightness by [1.0 + (factor - 1.0) / 2.0].  The size is unchanged. *)
Definition apply_enhancements (img : image) (factor : float) : image :=
  let img1 :=
    {| width := width img; height := height img;
       pixels := enhance_color factor (pixels img) |} in
  let brightness_factor :=
    add (of_int 1) (div (sub factor (of_int 1)) (of_int 2)) in
  {| width := width img1; height := height img1;
     pixels := enhance_brightness brightness_factor (pixels img1) |}.

(* ===================================================================== *)
(** * Quadrant Fitter (lines 51-73) *)
(* ===================================================================== *)

(** [min(quad_width / w, quad_height / h)] *)
Definition fit_scale (quad_width quad_height w h : Z) : float :=
  min (truediv quad_width w) (truediv quad_height h).

(** [(w * scale) * (h * scale)] *)
Definition covered_area (w h : Z) (scale : float) : float :=
  mul (mul (of_int w) scale) (mul (of_int h) scale).

Definition scale_normal (img : image) (quad_width quad_height : Z) : float :=
  fit_scale quad_width quad_height (width img) (height img).

Definition scale_rotated (img : image) (quad_width quad_height : Z) : float :=
  fit_scale quad_width quad_height (height img) (width img).

(** Left side of the comparison on line 62. *)
Definition area_normal (img : image) (quad_width quad_height : Z) : float :=
  covered_area (width img) (height img) (scale_normal img quad_width quad_height).

(** Right side of the comparison on line 62. *)
Definition area_rotated (img : image) (quad_width quad_height : Z) : float :=
  covered_area (height img) (width img) (scale_rotated img quad_width quad_height).

Definition fit_image_to_quad (img : image) (quad_width quad_height : Z) : image :=
  let img_w := width img in
  let img_h := height img in
  let scale_normal := min (truediv quad_width img_w) (truediv quad_height img_h) in
  let scale_rotated := min (truediv quad_width img_h) (truediv quad_height img_w) in
  if leb (mul (mul (of_int img_h) scale_rotated) (mul (of_int img_w) scale_rotated))
         (mul (mul (of_int img_w) scale_normal) (mul (of_int img_h) scale_normal))
  then
    (* no rotation *)
    let new_w := trunc (mul (of_int img_w) scale_normal) in
    let new_h := trunc (mul (of_int img_h) scale_normal) in
    resize img new_w new_h
  else
    (* rotate 90 degrees *)
    let img_rotated := rotate90 img in
    let img_w := width img_rotated in
    let img_h := height img_rotated in
    let scale := min (truediv quad_width img_w) (truediv quad_height img_h) in
    let new_w := trunc (mul (of_int img_w) scale) in
    let new_h := trunc (mul (of_int img_h) scale) in
    resize img_rotated new_w new_h.

(** [fit_image_to_quad] as a call runs: [None] when its [resize] raises
    (a side truncated to 0 by [int]), otherwise the image above. *)
Definition fit_image_to_quad_checked (img : image) (quad_width quad_height : Z)
  : option image :=
  let img_w := width img in
  let img_h := height img in
  let scale_normal := min (truediv quad_width img_w) (truediv quad_height img_h) in
  let scale_rotated := min (truediv quad_width img_h) (truediv quad_height img_w) in
  if leb (mul (mul (of_int img_h) scale_rotated) (mul (of_int img_w) scale_rotated))
         (mul (mul (of_int img_w) scale_normal) (mul (of_int img_h) scale_normal))
  then
    (* no rotation *)
    let new_w := trunc (mul (of_int img_w) scale_normal) in
    let new_h := trunc (mul (of_int img_h) scale_normal) in
    resize_checked img new_w new_h
  else
    (* rotate 90 degrees *)
    let img_rotated := rotate90 img in
    let img_w := width img_rotated in
    let img_h := height img_rotated in
    let scale := min (truediv quad_width img_w) (truediv quad_height img_h) in
    let new_w := trunc (mul (of_int img_w) scale) in
    let new_h := trunc (mul (of_int img_h) scale) in
    resize_checked img_rotated new_w new_h.

(** The centering logic and the paste that follows it (lines 112-117,
    159-163 and 198-203; on a full sheet the quadrant origin is (0, 0)). *)
Definition paste_centered (sheet img_resized : image)
           (quad_x quad_y quad_width quad_height : Z) : image :=
  let new_w := width img_resized in
  let new_h := height img_resized in
  let paste_x := quad_x + (quad_width - new_w) / 2 in
  let paste_y := quad_y + (quad_height - new_h) / 2 in
  paste sheet img_resized paste_x paste_y.

End Images.

(* ===================================================================== *)
(** * Files: decoding and saving *)
(* ===================================================================== *)

Section Compositor.
Context {lib : Imaging}.

(** The imaging library keeps image sizes in C ints and its decoders give
    no empty image: a decoded image has both sides in [1, 2^31 - 1]. *)
Definition INT_MAX : Z := 2 ^ 31 - 1.

Definition size_ok (img : image) : bool :=
  (0 <? width img) && (width img <=? INT_MAX) &&
  (0 <? height img) && (height img <=? INT_MAX).

Record decoded := Decoded {
  dec_image : image;
  dec_ok : size_ok dec_image = true
}.

(** The file system as the program reads it. *)
Class Disk := {
  (** [Image.open(path).convert('RGB')]; [None] when it raises *)
  open_rgb : string -> option decoded;
  (** [get_image_files] (lines 28-38): the sorted image files of a folder,
      [None] when the folder does not exist *)
  get_image_files : string -> option (list string)
}.

Context {disk : Disk}.

(** A file written by [sheet.save(path, dpi=.., quality=..)]. *)
Record sheet_file := SheetFile {
  file_image : image;
  file_dpi : Z * Z;
  file_quality : Z
}.

(** [sheet.save(output_path, dpi=(DPI, DPI), quality=95)] on the files
    written so far.  The files the program writes are kept apart from those
    it reads through [Disk]. *)
Definition save (sheet : image) (output_path : string)
           (fs : gmap string sheet_file) : gmap string sheet_file :=
  <[output_path := SheetFile sheet (DPI, DPI) 95]> fs.

(* ===================================================================== *)
(** * Sheet Compositor, grid mode (lines 75-129) *)
(* ===================================================================== *)

Definition positions_2x2 : list (Z * Z) :=
  let quad_width := OUTPUT_WIDTH_PX / 2 in
  let quad_height := OUTPUT_HEIGHT_PX / 2 in
  [ (0, 0); (quad_width, 0); (0, quad_height); (quad_width, quad_height) ].

(** The loop of lines 94-119 from index [i] on.  [None] stands for an
    exception that leaves the loop for the [except] of line 126: the
    [ValueError] of [resize], or an index outside [positions]. *)
Fixpoint paste_quadrants (i : nat) (image_paths : list string) (sheet : image)
  : option image :=
  let quad_width := OUTPUT_WIDTH_PX / 2 in
  let quad_height := OUTPUT_HEIGHT_PX / 2 in
  match image_paths with
  | [] => Some sheet
  | img_path :: rest =>
    if (4 <=? i)%nat then Some sheet            (* break *)
    else
      match open_rgb img_path with
      | None => paste_quadrants (S i) rest sheet  (* continue *)
      | Some d =>
        let img := apply_enhancements (dec_image d) ENHANCEMENT_FACTOR in
        match fit_image_to_quad_checked img quad_width quad_height with
        | None => None
        | Some img_resized =>
          match positions_2x2 !! i with
          | None => None
          | Some (quad_x, quad_y) =>
            paste_quadrants (S i) rest
              (paste_centered sheet img_resized quad_x quad_y
                              quad_width quad_height)
          end
        end
      end
  end.

Definition create_2x2_sheet (image_paths : list string) (output_path : string)
           (fs : gmap string sheet_file) : bool * gmap string sheet_file :=
  let sheet := new_image OUTPUT_WIDTH_PX OUTPUT_HEIGHT_PX white in
  match paste_quadrants 0 image_paths sheet with
  | Some sheet => (true, save sheet output_path fs)
  | None => (false, fs)
  end.

(* ===================================================================== *)
(** * Layout Selector (lines 217-240) *)
(* ===================================================================== *)

Record layout_info := LayoutInfo {
  total_area : Z;
  layout : string
}.

(** The float accumulated in [total_area] by the loop of lines 226-238
    (it starts from the int [0], converted when the first float is added). *)
Definition layout_area_sum (processed_images : list (image * string))
           (layout : string) : float :=
  let quad_width :=
    if String.eqb layout "1x2" then OUTPUT_WIDTH_PX else OUTPUT_WIDTH_PX / 2 in
  let quad_height :=
    if String.eqb layout "1x2" then OUTPUT_HEIGHT_PX / 2 else OUTPUT_HEIGHT_PX in
  fold_left
    (fun total_area '(img, _) =>
       let img_w := width img in
       let img_h := height img in
       let scale_normal := min (truediv quad_width img_w) (truediv quad_height img_h) in
       let scale_rotated := min (truediv quad_width img_h) (truediv quad_height img_w) in
       let area_normal :=
         mul (mul (of_int img_w) scale_normal) (mul (of_int img_h) scale_normal) in
       let area_rotated :=
         mul (mul (of_int img_h) scale_rotated) (mul (of_int img_w) scale_rotated) in
       add total_area (max area_normal area_rotated))
    (take 2 processed_images) (of_int 0).

Definition _calculate_layout_area (processed_images : list (image * string))
           (layout : string) : layout_info :=
  LayoutInfo (trunc (layout_area_sum processed_images layout)) layout.

(* ===================================================================== *)
(** * Sheet Compositor, optimized mode (lines 131-215) *)
(* ===================================================================== *)

(** Lines 138-147: the decodable images of the chunk, enhanced. *)
Fixpoint load_images (image_paths : list string) : list (image * string) :=
  match image_paths with
  | [] => []
  | img_path :: rest =>
    match open_rgb img_path with
    | Some d =>
      (apply_enhancements (dec_image d) ENHANCEMENT_FACTOR, img_path)
        :: load_images rest
    | None => load_images rest
    end
  end.

(** Lines 168-185: layout name, quadrant size and positions. *)
Definition choose_layout (processed_images : list (image * string))
  : string * Z * Z * list (Z * Z) :=
  let layout_1x2 := _calculate_layout_area processed_images "1x2" in
  let layout_2x1 := _calculate_layout_area processed_images "2x1" in
  if total_area layout_1x2 <? total_area layout_2x1 then
    let quad_width := OUTPUT_WIDTH_PX / 2 in
    let quad_height := OUTPUT_HEIGHT_PX in
    ("2x1"%string, quad_width, quad_height, [ (0, 0); (quad_width, 0) ])
  else
    let quad_width := OUTPUT_WIDTH_PX in
    let quad_height := OUTPUT_HEIGHT_PX / 2 in
    ("1x2"%string, quad_width, quad_height, [ (0, 0); (0, quad_height) ]).

(** The loop of lines 190-205 from index [i] on; [None] as in
    [paste_quadrants]. *)
Fixpoint paste_processed (i : nat) (processed_images : list (image * string))
         (quad_width quad_height : Z) (positions : list (Z * Z)) (sheet : image)
  : option image :=
  match processed_images with
  | [] => Some sheet
  | (img, _) :: rest =>
    if (2 <=? i)%nat then Some sheet            (* break *)
    else
      match fit_image_to_quad_checked img quad_width quad_height with
      | None => None
      | Some img_resized =>
        match positions !! i with
        | None => None
        | Some (quad_x, quad_y) =>
          paste_processed (S i) rest quad_width quad_height positions
            (paste_centered sheet img_resized quad_x quad_y
                            quad_width quad_height)
        end
      end
  end.

Definition create_1x2_sheet (image_paths : list string) (output_path : string)
           (fs : gmap string sheet_file) : bool * gmap string sheet_file :=
  let processed_images := load_images (take 2 image_paths) in
  match processed_images with
  | [] => (false, fs)
  | [ (img, _) ] =>
    (* only one image: use the full sheet *)
    let sheet := new_image OUTPUT_WIDTH_PX OUTPUT_HEIGHT_PX white in
    match fit_image_to_quad_checked img OUTPUT_WIDTH_PX OUTPUT_HEIGHT_PX with
    | None => (false, fs)                  (* the [except] of line 212 *)
    | Some img_resized =>
      let new_w := width img_resized in
      let new_h := height img_resized in
      let paste_x := (OUTPUT_WIDTH_PX - new_w) / 2 in
      let paste_y := (OUTPUT_HEIGHT_PX - new_h) / 2 in
      (true, save (paste sheet img_resized paste_x paste_y) output_path fs)
    end
  | _ =>
    let '(_, quad_width, quad_height, positions) := choose_layout processed_images in
    let sheet := new_image OUTPUT_WIDTH_PX OUTPUT_HEIGHT_PX white in
    match paste_processed 0 processed_images quad_width quad_height positions sheet with
    | Some sheet => (true, save sheet output_path fs)
    | None => (false, fs)
    end
  end.

(* ===================================================================== *)
(** * Batch Scheduler (lines 266-316) *)
(* ===================================================================== *)

(** [math.ceil(len(files) / chunk_size)] *)
Definition num_sheets (len chunk_size : Z) : Z := ceil (truediv len chunk_size).

(** [l[start:stop]] for [0 <= start <= stop]. *)
Definition slice {A} (l : list A) (start stop : Z) : list A :=
  take (Z.to_nat (stop - start)) (drop (Z.to_nat start) l).

(** [f"{n:03d}"] for [0 <= n]. *)
Definition fmt_03d (n : Z) : string :=
  let s := pretty n in
  String.concat "" (replicate (3 - String.length s) "0"%string) +:+ s.

(** [folder / name] *)
Definition path_join (folder name : string) : string :=
  folder +:+ "/" +:+ name.

(** The body shared by the two loops (lines 287-294 and 307-314), over the
    indices still to visit. *)
Fixpoint sheet_loop
         (create : list string -> string -> gmap string sheet_file
                   -> bool * gmap string sheet_file)
         (prefix : string) (chunk_size : Z) (files : list string)
         (output_folder : string) (indices : list Z)
         (sheets : Z) (fs : gmap string sheet_file)
  : Z * gmap string sheet_file :=
  match indices with
  | [] => (sheets, fs)
  | i :: rest =>
    let start_index := i * chunk_size in
    let end_index := start_index + chunk_size in
    let chunk := slice files start_index end_index in
    let sheet_path :=
      path_join output_folder (prefix +:+ fmt_03d (i + 1) +:+ ".jpg") in
    let '(ok, fs') := create chunk sheet_path fs in
    sheet_loop create prefix chunk_size files output_folder rest
               (if ok then sheets + 1 else sheets) fs'
  end.

(** One pass of [process_folders] over a folder. *)
Definition process_pass
           (create : list string -> string -> gmap string sheet_file
                     -> bool * gmap string sheet_file)
           (prefix : string) (chunk_size : Z)
           (folder output_folder : string) (fs : gmap string sheet_file)
  : Z * gmap string sheet_file :=
  match get_image_files folder with
  | None => (0, fs)                              (* folder not found *)
  | Some [] => (0, fs)                           (* no images found *)
  | Some files =>
    let num_sheets := num_sheets (Z.of_nat (length files)) chunk_size in
    sheet_loop create prefix chunk_size files output_folder
               (seqZ 0 num_sheets) 0 fs
  end.

Definition process_folders (big_folder small_folder output_folder : string)
           (fs : gmap string sheet_file) : (Z * Z) * gmap string sheet_file :=
  let '(big_sheets, fs) :=
    process_pass create_1x2_sheet "big_sheet_" 2 big_folder output_folder fs in
  let '(small_sheets, fs) :=
    process_pass create_2x2_sheet "small_sheet_" 4 small_folder output_folder fs in
  ((big_sheets, small_sheets), fs).

(** The chunks the scheduler hands to the compositor, in the order of the
    loop: chunk [i] is [files[i * chunk_size : i * chunk_size + chunk_size]]. *)
Definition chunks (chunk_size : Z) (files : list string) : list (list string) :=
  (fun i => slice files (i * chunk_size) (i * chunk_size + chunk_size))
    <$> seqZ 0 (num_sheets (Z.of_nat (length files)) chunk_size).

End Compositor.


(* ===================================================================== *)
(** * The hardware's binary64, to compare [Binary64] with *)
(* ===================================================================== *)

(** The rational denoted by a finite value of the kernel's binary64. *)
Definition prim_value (f : PrimFloat.float) : option Q :=
  match FloatOps.Prim2SF f with
  | SpecFloat.S754_zero _ => Some 0%Q
  | SpecFloat.S754_finite s m e =>
    Some (Qred ((if s then -1 else 1) * inject_Z (Zpos m) * pow2 e)%Q)
  | _ => None
  end.

(** An int below 2^62 as the kernel's float. *)
Definition prim_of_int (a : Z) : PrimFloat.float :=
  PrimFloat.of_uint63 (Uint63.of_Z a).

Arguments rnd : simpl never.
Arguments fit_image_to_quad : simpl never.
Arguments fit_image_to_quad_checked : simpl never.
Arguments apply_enhancements : simpl never.

(* ===================================================================== *)
(** * What a sheet shows in a region *)
(* ===================================================================== *)

Section Regions.
Context {lib : Imaging}.

(** The region holds nothing but background. *)
Definition region_blank (sheet : image) (quad_x quad_y quad_width quad_height : Z)
  : Prop :=
  forall x y, in_box quad_x quad_y quad_width quad_height x y = true ->
              pixels sheet x y = white.

(** The region holds [img_resized], centered, on background: the pasted box
    lies inside the region, shows the image, and the rest of the region is
    background. *)
Definition region_holds (sheet img_resized : image)
           (quad_x quad_y quad_width quad_height : Z) : Prop :=
  let paste_x := quad_x + (quad_width - width img_resized) / 2 in
  let paste_y := quad_y + (quad_height - height img_resized) / 2 in
  (quad_x <= paste_x /\ paste_x + width img_resized <= quad_x + quad_width /\
   quad_y <= paste_y /\ paste_y + height img_resized <= quad_y + quad_height) /\
  forall x y, in_box quad_x quad_y quad_width quad_height x y = true ->
              pixels sheet x y =
              if in_box paste_x paste_y (width img_resized) (height img_resized) x y
              then pixels img_resized (x - paste_x) (y - paste_y)
              else white.

(** Whether [fit_image_to_quad] returns for a decoded photo, enhanced, in
    a quadrant: [false] when its [resize] raises. *)
Definition fit_returns (d : decoded) (quad_width quad_height : Z) : bool :=
  match fit_image_to_quad_checked
          (apply_enhancements (dec_image d) ENHANCEMENT_FACTOR)
          quad_width quad_height with
  | Some _ => true
  | None => false
  end.

End Regions.

(* ===================================================================== *)
(** * Covered areas in exact arithmetic *)
(* ===================================================================== *)




(* ===================================================================== *)
(** * The scheduler's loop, chunk by chunk *)
(* ===================================================================== *)

Section Chunked.
Context {lib : Imaging}.

(** One compositor call per chunk, numbered from 1, counting the sheets
    that were produced. *)
Fixpoint compose_chunks
         (create : list string -> string -> gmap string sheet_file
                   -> bool * gmap string sheet_file)
         (prefix output_folder : string) (number : Z)
         (chunk_list : list (list string))
         (sheets : Z) (fs : gmap string sheet_file)
  : Z * gmap string sheet_file :=
  match chunk_list with
  | [] => (sheets, fs)
  | chunk :: rest =>
    let sheet_path :=
      path_join output_folder (prefix +:+ fmt_03d number +:+ ".jpg") in
    let '(ok, fs') := create chunk sheet_path fs in
    compose_chunks create prefix output_folder (number + 1) rest
                   (if ok then sheets + 1 else sheets) fs'
  end.

End Chunked.

(* ===================================================================== *)
(** * A backend to run the model on *)
(* ===================================================================== *)

(** Grey levels, nearest-neighbour resampling and no enhancement: enough to
    evaluate sizes and placements. *)
Definition grey_imaging : Imaging :=
  {| pixel := Z;
     white := 255;
     lanczos := fun w h src new_w new_h x y => src (x * w / new_w) (y * h / new_h);
     enhance_color := fun _ src => src;
     enhance_brightness := fun _ src => src |}.

Section Samples.
#[local] Existing Instance grey_imaging.

Definition gradient (w h : Z) : image := Image w h (fun x y => (x + y) mod 256).

Definition photo_3000x2000 : decoded := Decoded (gradient 3000 2000) eq_refl.
Definition photo_2000x1000 : decoded := Decoded (gradient 2000 1000) eq_refl.
Definition photo_640x480 : decoded := Decoded (gradient 640 480) eq_refl.
Definition photo_4x3 : decoded := Decoded (gradient 4 3) eq_refl.
Definition photo_21x7 : decoded := Decoded (gradient 21 7) eq_refl.
(** Strips: one side of their fitted size truncates to 0. *)
Definition strip_1000x1 : decoded := Decoded (gradient 1000 1) eq_refl.
Definition strip_5000x1 : decoded := Decoded (gradient 5000 1) eq_refl.

(** Five files in folder SMALL, two of them unreadable; two in folder BIG. *)
Definition sample_disk : Disk :=
  {| open_rgb := fun path =>
       if String.eqb path "SMALL/a.jpg" then Some photo_3000x2000
       else if String.eqb path "SMALL/c.jpg" then Some photo_640x480
       else if String.eqb path "SMALL/e.jpg" then Some photo_640x480
       else if String.eqb path "BIG/p.jpg" then Some photo_2000x1000
       else if String.eqb path "BIG/q.jpg" then Some photo_2000x1000
       else None;
     get_image_files := fun folder =>
       if String.eqb folder "SMALL" then
         Some [ "SMALL/a.jpg"; "SMALL/b.jpg"; "SMALL/c.jpg"; "SMALL/d.jpg";
                "SMALL/e.jpg" ]%string
       else if String.eqb folder "BIG" then
         Some [ "BIG/p.jpg"; "BIG/q.jpg" ]%string
       else if String.eqb folder "EMPTY" then Some []
       else None |}.

(** A folder with a pair whose exact areas tie, and a folder with strips
    among its files. *)
Definition odd_disk : Disk :=
  {| open_rgb := fun path =>
       if String.eqb path "TIE/a.jpg" then Some photo_4x3
       else if String.eqb path "TIE/b.jpg" then Some photo_21x7
       else if String.eqb path "STRIP/a.jpg" then Some strip_1000x1
       else if String.eqb path "STRIP/c.jpg" then Some photo_640x480
       else if String.eqb path "STRIP/e.jpg" then Some strip_5000x1
       else None;
     get_image_files := fun folder =>
       if String.eqb folder "TIE" then
         Some [ "TIE/a.jpg"; "TIE/b.jpg" ]%string
       else if String.eqb folder "STRIP" then
         Some [ "STRIP/a.jpg"; "STRIP/b.jpg"; "STRIP/c.jpg"; "STRIP/d.jpg";
                "STRIP/e.jpg" ]%string
       else None |}.

End Samples.

(* ===================================================================== *)
(** * Sheet names of a pass *)
(* ===================================================================== *)

(** [output_folder / f"{prefix}{number:03d}.jpg"], the path given to the
    compositor for the sheet with this number (lines 292 and 312). *)
Definition sheet_path (output_folder prefix : string) (number : Z) : string :=
  path_join output_folder (prefix +:+ fmt_03d number +:+ ".jpg").

(** The digit 0. *)
Definition zero_char : Ascii.ascii :=
  Ascii.Ascii false false false false true true false false.

(** Leading zeros removed. *)
Fixpoint lstrip_zeros (s : string) : string :=
  match s with
  | String c s' => if Ascii.eqb c zero_char then lstrip_zeros s' else s
  | EmptyString => s
  end.

Section Outcome.
Context {lib : Imaging} {disk : Disk}.

(** A compositor that draws a sheet from the chunk alone: it saves that
    sheet to the output path and returns [True], or writes nothing and
    returns [False]. *)
Definition renders
           (create : list string -> string -> gmap string sheet_file
                     -> bool * gmap string sheet_file)
           (render : list string -> option image) : Prop :=
  forall chunk output_path fs,
    create chunk output_path fs
    = match render chunk with
      | Some sheet => (true, save sheet output_path fs)
      | None => (false, fs)
      end.

(** Whether the grid compositor gets through a chunk: the fitter returns
    for each of the first four files that decodes. *)
Definition grid_renders (chunk : list string) : bool :=
  forallb (fun d => fit_returns d 900 600) (omap open_rgb (take 4 chunk)).

(** Whether the optimized compositor gets through a chunk: one of the first
    two files decodes, and the fitter returns for each that does, on the
    whole canvas for one image and in the halves of the chosen layout for
    two. *)
Definition optimized_renders (chunk : list string) : bool :=
  match omap open_rgb (take 2 chunk) with
  | [] => false
  | [d] => fit_returns d 1800 1200
  | d1 :: d2 :: _ =>
    let '(_, quad_width, quad_height, _) :=
      choose_layout (load_images (take 2 chunk)) in
    fit_returns d1 quad_width quad_height && fit_returns d2 quad_width quad_height
  end.

End Outcome.

(* ===================================================================== *)
(** * Printing (lines 242-264) *)
(* ===================================================================== *)

Section Printing.
Context {lib : Imaging} {disk : Disk}.

(** The outcome of [subprocess.run(cmd, check=True)] after the commands run
    so far: [false] when it raises. *)
Variable lp_runs : list (list string) -> list string -> bool.

(** The loop of lines 253-262; [log] holds the commands run so far, the
    last one at the end. *)
Fixpoint print_loop (image_files : list string) (printed_count : Z)
         (log : list (list string)) : Z * list (list string) :=
  match image_files with
  | [] => (printed_count, log)
  | img_path :: rest =>
    let cmd := [ "lp"%string; img_path ] in
    if lp_runs log cmd
    then print_loop rest (printed_count + 1) (log ++ [cmd])
    else print_loop rest printed_count (log ++ [cmd])
  end.

Definition print_photos (print_files : bool) (folder : string)
           (log : list (list string)) : Z * list (list string) :=
  if negb print_files then (0, log)
  else
    match get_image_files folder with
    | None => (0, log)
    | Some [] => (0, log)
    | Some image_files => print_loop image_files 0 log
    end.

End Printing.
(* ===================================================================== *)
(** * Facts about binary64 rounding *)
(* ===================================================================== *)

Module Binary64Facts.
Local Open Scope Q_scope.

Ltac zq := unfold Qlt, Qle, Qeq, inject_Z; simpl; lia.

Lemma pow2_pos e : 0 < pow2 e.
Proof. apply Qpower_0_lt. reflexivity. Qed.

Lemma pow2_add a b : pow2 (a + b) == pow2 a * pow2 b.
Proof. apply Qpower_plus. discriminate. Qed.

Lemma pow2_le a b : (a <= b)%Z -> pow2 a <= pow2 b.
Proof. intros H. apply Qpower_le_compat_l; [exact H | discriminate]. Qed.

Lemma pow2_lt a b : (a < b)%Z -> pow2 a < pow2 b.
Proof. intros H. apply Qpower_lt_compat_l; [exact H | reflexivity]. Qed.

Lemma pow2_lt_inv a b : pow2 a < pow2 b -> (a < b)%Z.
Proof. intros H. apply (Qpower_lt_compat_l_inv 2); [exact H | reflexivity]. Qed.

Lemma pow2_Z n : (0 <= n)%Z -> pow2 n == inject_Z (2 ^ n).
Proof. intros H. unfold pow2. rewrite Zpower_Qpower by exact H. reflexivity. Qed.

Lemma pow2_split a b : pow2 a == pow2 (a - b) * pow2 b.
Proof. rewrite <- pow2_add. replace (a - b + b)%Z with a by lia. reflexivity. Qed.

Lemma Qmake_mul_den n d : (n # d) * inject_Z (Zpos d) == inject_Z n.
Proof. unfold Qeq, Qmult, inject_Z. simpl. lia. Qed.

Lemma ilog2_spec x : 0 < x -> pow2 (ilog2 x) <= x /\ x < pow2 (ilog2 x + 1).
Proof.
  intros Hx. destruct x as [n d].
  assert (Hn : (0 < n)%Z) by (unfold Qlt in Hx; simpl in Hx; lia).
  unfold ilog2. cbn [Qnum Qden].
  set (ln := Z.log2 n). set (ld := Z.log2 (Zpos d)).
  destruct (Z.log2_spec n Hn) as [Hn1 Hn2]. fold ln in Hn1, Hn2.
  destruct (Z.log2_spec (Zpos d) (Pos2Z.is_pos d)) as [Hd1 Hd2]. fold ld in Hd1, Hd2.
  assert (Hln : (0 <= ln)%Z) by apply Z.log2_nonneg.
  assert (Hld : (0 <= ld)%Z) by apply Z.log2_nonneg.
  pose proof (Qmake_mul_den n d) as Hnd.
  assert (Hdpos : 0 < inject_Z (Zpos d)) by zq.
  assert (Hup : n # d < pow2 (ln - ld + 1)).
  { pose proof (pow2_split (ln + 1) ld) as Hs.
    replace (ln + 1 - ld)%Z with (ln - ld + 1)%Z in Hs by lia.
    rewrite (pow2_Z (ln + 1)) in Hs by lia. rewrite (pow2_Z ld) in Hs by lia.
    pose proof (pow2_pos (ln - ld + 1)) as Hp.
    assert (H1 : inject_Z n < inject_Z (2 ^ (ln + 1))) by zq.
    assert (H2 : inject_Z (2 ^ ld) <= inject_Z (Zpos d)) by zq.
    apply (Qmult_lt_r _ _ (inject_Z (Zpos d))); [exact Hdpos|].
    rewrite Hnd. eapply Qlt_le_trans; [exact H1|]. rewrite Hs.
    apply Qmult_le_l; [exact Hp | exact H2]. }
  assert (Hlo : pow2 (ln - ld - 1) <= n # d).
  { pose proof (pow2_split ln (ld + 1)) as Hs.
    replace (ln - (ld + 1))%Z with (ln - ld - 1)%Z in Hs by lia.
    rewrite (pow2_Z ln) in Hs by lia. rewrite (pow2_Z (ld + 1)) in Hs by lia.
    pose proof (pow2_pos (ln - ld - 1)) as Hp.
    assert (H1 : inject_Z (2 ^ ln) <= inject_Z n) by zq.
    assert (H2 : inject_Z (Zpos d) <= inject_Z (2 ^ (ld + 1))) by zq.
    apply (Qmult_le_r _ _ (inject_Z (Zpos d))); [exact Hdpos|].
    rewrite Hnd. eapply Qle_trans; [|exact H1]. rewrite Hs.
    apply Qmult_le_l; [exact Hp | exact H2]. }
  destruct (Qle_bool (pow2 (ln - ld)) (n # d)) eqn:Hb.
  - apply Qle_bool_iff in Hb. split; assumption.
  - split; [exact Hlo|].
    replace (ln - ld - 1 + 1)%Z with (ln - ld)%Z by lia.
    apply Qnot_le_lt. intros Hc. apply Qle_bool_iff in Hc. congruence.
Qed.

Lemma ilog2_unique x k : pow2 k <= x -> x < pow2 (k + 1) -> ilog2 x = k.
Proof.
  intros H1 H2.
  assert (Hx : 0 < x) by (eapply Qlt_le_trans; [apply (pow2_pos k) | exact H1]).
  destruct (ilog2_spec x Hx) as [H3 H4].
  assert (ilog2 x < k + 1)%Z by (apply pow2_lt_inv; eapply Qle_lt_trans; eassumption).
  assert (k < ilog2 x + 1)%Z by (apply pow2_lt_inv; eapply Qle_lt_trans; eassumption).
  lia.
Qed.

Lemma ilog2_mono x y : 0 < x -> x <= y -> (ilog2 x <= ilog2 y)%Z.
Proof.
  intros Hx Hxy.
  assert (Hy : 0 < y) by (eapply Qlt_le_trans; eassumption).
  destruct (ilog2_spec x Hx) as [H1 _]. destruct (ilog2_spec y Hy) as [_ H2].
  assert (ilog2 x < ilog2 y + 1)%Z; [|lia].
  apply pow2_lt_inv. eapply Qle_lt_trans; [exact H1|]. eapply Qle_lt_trans; eassumption.
Qed.


Lemma Qrne_cases x :
  let f := Qfloor x in
  (Qrne x = f /\ x - inject_Z f <= 1 # 2) \/
  (Qrne x = (f + 1)%Z /\ 1 # 2 <= x - inject_Z f).
Proof.
  unfold Qrne. cbv zeta.
  destruct (Qcompare_spec (x - inject_Z (Qfloor x)) (1 # 2)) as [H | H | H].
  - destruct (Z.even (Qfloor x)); [left | right]; split; auto; rewrite H; apply Qle_refl.
  - left. split; auto. apply Qlt_le_weak, H.
  - right. split; auto. apply Qlt_le_weak, H.
Qed.

Lemma inject_Z_succ k : inject_Z (k + 1) == inject_Z k + 1.
Proof. rewrite inject_Z_plus. reflexivity. Qed.

Lemma Qrne_upper x : inject_Z (Qrne x) <= x + (1 # 2).
Proof.
  pose proof (Qfloor_le x) as Hf.
  destruct (Qrne_cases x) as [[-> H] | [-> H]].
  - lra.
  - rewrite inject_Z_succ. lra.
Qed.

Lemma Qrne_lower x : x - (1 # 2) <= inject_Z (Qrne x).
Proof.
  pose proof (Qlt_floor x) as Hf. rewrite inject_Z_succ in Hf.
  destruct (Qrne_cases x) as [[-> H] | [-> H]].
  - lra.
  - rewrite inject_Z_succ. lra.
Qed.

Lemma Qrne_le_int x k : x <= inject_Z k -> (Qrne x <= k)%Z.
Proof.
  intros Hk.
  assert (Hfk : (Qfloor x <= k)%Z).
  { rewrite <- (Qfloor_Z k). apply Qfloor_resp_le, Hk. }
  destruct (Qrne_cases x) as [[-> H] | [-> H]]; [exact Hfk|].
  destruct (Z.eq_dec (Qfloor x) k) as [E | E]; [|lia].
  rewrite E in H. lra.
Qed.

Lemma Qrne_ge_int x k : inject_Z k <= x -> (k <= Qrne x)%Z.
Proof.
  intros Hk.
  assert (Hfk : (k <= Qfloor x)%Z).
  { rewrite <- (Qfloor_Z k). apply Qfloor_resp_le, Hk. }
  destruct (Qrne_cases x) as [[-> H] | [-> H]]; lia.
Qed.

Lemma Qrne_int x k : x == inject_Z k -> Qrne x = k.
Proof.
  intros E. apply Z.le_antisymm.
  - apply Qrne_le_int. rewrite E. apply Qle_refl.
  - apply Qrne_ge_int. rewrite E. apply Qle_refl.
Qed.

Lemma rnd_spec x :
  rnd x == inject_Z (Qrne (x / pow2 (ulp_exp x))) * pow2 (ulp_exp x).
Proof. unfold rnd. apply Qred_correct. Qed.

Lemma Qabs_pos_eq x : 0 <= x -> Qabs x = x.
Proof.
  destruct x as [[|n|n] d]; unfold Qle; simpl; intros H; try reflexivity. lia.
Qed.

Lemma ulp_exp_pos x : 0 < x -> ulp_exp x = Z.max (ilog2 x - 52) emin.
Proof. intros H. unfold ulp_exp. rewrite Qabs_pos_eq by lra. reflexivity. Qed.

Lemma ulp_exp_mono x y : 0 < x -> x <= y -> (ulp_exp x <= ulp_exp y)%Z.
Proof.
  intros Hx Hxy. rewrite !ulp_exp_pos by lra.
  pose proof (ilog2_mono x y Hx Hxy). lia.
Qed.

Lemma ulp_exp_ge_emin x : (emin <= ulp_exp x)%Z.
Proof. unfold ulp_exp. lia. Qed.


Lemma ilog2_comp x y : 0 < x -> x == y -> ilog2 x = ilog2 y.
Proof.
  intros Hx E. destruct (ilog2_spec x Hx) as [H1 H2].
  symmetry. apply ilog2_unique; rewrite <- E; assumption.
Qed.

Lemma Qabs_pos_iff x : ~ x == 0 -> 0 < Qabs x.
Proof.
  intros H. destruct (Qlt_le_dec 0 (Qabs x)) as [L | L]; [exact L|].
  exfalso. apply H. apply Qabs_Qle_condition in L. destruct L. lra.
Qed.

Lemma ulp_exp_comp x y : ~ x == 0 -> x == y -> ulp_exp x = ulp_exp y.
Proof.
  intros Hx E. unfold ulp_exp.
  rewrite (ilog2_comp (Qabs x) (Qabs y)); [reflexivity | apply Qabs_pos_iff, Hx |].
  rewrite E. reflexivity.
Qed.

Lemma Qrne_comp x y : x == y -> Qrne x = Qrne y.
Proof.
  intros E. unfold Qrne. rewrite (Qfloor_comp x y E).
  assert (E' : x - inject_Z (Qfloor y) == y - inject_Z (Qfloor y)) by (rewrite E; reflexivity).
  rewrite (Qcompare_comp _ _ E' (1 # 2) (1 # 2) (Qeq_refl _)). reflexivity.
Qed.

Lemma rnd_zero x : x == 0 -> rnd x = 0.
Proof.
  intros E. unfold rnd.
  assert (H : Qrne (x / pow2 (ulp_exp x)) = 0%Z).
  { apply Qrne_int. pose proof (pow2_pos (ulp_exp x)) as Hp.
    set (p := pow2 (ulp_exp x)) in *. clearbody p. rewrite E. field. lra. }
  rewrite H. change 0 with (Qred 0). apply Qred_complete. ring.
Qed.

Lemma rnd_comp x y : x == y -> rnd x = rnd y.
Proof.
  intros E. destruct (Qeq_dec x 0) as [Z | NZ].
  - rewrite (rnd_zero x Z), (rnd_zero y); [reflexivity | rewrite <- E; exact Z].
  - unfold rnd. rewrite <- (ulp_exp_comp x y NZ E).
    rewrite (Qrne_comp (y / pow2 (ulp_exp x)) (x / pow2 (ulp_exp x))); [reflexivity|].
    set (p := pow2 (ulp_exp x)). clearbody p. rewrite E. reflexivity.
Qed.

#[export] Instance rnd_Proper : Proper (Qeq ==> Qeq) rnd.
Proof. intros x y E. rewrite (rnd_comp x y E). reflexivity. Qed.

Lemma div_pow2 c e : c / pow2 e * pow2 e == c.
Proof. pose proof (pow2_pos e). field. lra. Qed.

(** Rounding never crosses a binary64 number lying above the argument. *)
Lemma rnd_le_float x c : 0 < x -> x <= c -> is_float c -> rnd x <= c.
Proof.
  intros Hx Hxc Hc. unfold is_float in Hc. rewrite rnd_spec in Hc.
  set (ec := ulp_exp c) in *. set (M := Qrne (c / pow2 ec)) in *.
  rewrite rnd_spec. set (e := ulp_exp x).
  assert (He : (e <= ec)%Z) by (apply ulp_exp_mono; assumption).
  pose proof (pow2_pos e) as Hpe.
  assert (Hce : c / pow2 e == inject_Z (M * 2 ^ (ec - e))).
  { rewrite inject_Z_mult, <- pow2_Z by lia. rewrite <- Hc at 1.
    rewrite (pow2_split ec e). field. lra. }
  assert (Hq : (Qrne (x / pow2 e) <= M * 2 ^ (ec - e))%Z).
  { apply Qrne_le_int. rewrite <- Hce.
    apply Qmult_le_compat_r; [exact Hxc|]. apply Qlt_le_weak, Qinv_lt_0_compat, Hpe. }
  rewrite <- (div_pow2 c e). apply Qmult_le_compat_r; [|lra].
  rewrite Hce. rewrite <- Zle_Qle. exact Hq.
Qed.

(** Every [M * 2^E] with a mantissa below [2^53] and [E] at least [emin]
    is a binary64 number. *)
Lemma is_float_dyadic (M E : Z) :
  (0 < M < 2 ^ prec)%Z -> (emin <= E)%Z -> is_float (inject_Z M * pow2 E).
Proof.
  intros HM HE. unfold is_float. set (c := inject_Z M * pow2 E).
  pose proof (pow2_pos E) as HpE.
  assert (HMq : 0 < inject_Z M) by zq.
  assert (Hc : 0 < c) by (unfold c; apply Qmult_lt_0_compat; assumption).
  destruct (ilog2_spec c Hc) as [Hlo _].
  assert (Hlt : c < pow2 (prec + E)).
  { unfold c. rewrite pow2_add, (pow2_Z prec) by (unfold prec; lia).
    apply Qmult_lt_r; [exact HpE|]. zq. }
  assert (Hi : (ilog2 c < prec + E)%Z).
  { apply pow2_lt_inv. eapply Qle_lt_trans; eassumption. }
  assert (He : (ulp_exp c <= E)%Z).
  { rewrite ulp_exp_pos by exact Hc. unfold prec in Hi. lia. }
  rewrite rnd_spec. set (e := ulp_exp c) in *.
  pose proof (pow2_pos e) as Hpe.
  assert (Hce : c / pow2 e == inject_Z (M * 2 ^ (E - e))).
  { rewrite inject_Z_mult, <- pow2_Z by lia. unfold c.
    rewrite (pow2_split E e). field. lra. }
  rewrite (Qrne_int _ _ Hce), <- Hce. apply div_pow2.
Qed.

Lemma is_float_Z (a : Z) : (0 < a < 2 ^ prec)%Z -> is_float (inject_Z a).
Proof.
  intros Ha. pose proof (is_float_dyadic a 0 Ha) as H.
  unfold is_float in *. change (pow2 0) with 1 in H.
  assert (E : inject_Z a * 1 == inject_Z a) by ring.
  rewrite E in H. apply H. unfold emin. lia.
Qed.


(** Relative error of rounding in the normal range: at most [2^-53]. *)
Lemma rnd_rel_upper x : pow2 (emin + 52) <= x -> rnd x <= x + x * pow2 (-53).
Proof.
  intros Hn.
  assert (Hx : 0 < x) by (eapply Qlt_le_trans; [apply pow2_pos | exact Hn]).
  destruct (ilog2_spec x Hx) as [Hlo Hhi].
  assert (Hi : (emin + 52 < ilog2 x + 1)%Z).
  { apply pow2_lt_inv. eapply Qle_lt_trans; eassumption. }
  rewrite rnd_spec, (ulp_exp_pos x Hx).
  replace (Z.max (ilog2 x - 52) emin) with (ilog2 x - 52)%Z by lia.
  set (e := (ilog2 x - 52)%Z). pose proof (pow2_pos e) as Hpe.
  pose proof (Qrne_upper (x / pow2 e)) as Hr.
  assert (H1 : inject_Z (Qrne (x / pow2 e)) * pow2 e <= (x / pow2 e + (1 # 2)) * pow2 e).
  { apply Qmult_le_compat_r; [exact Hr | lra]. }
  assert (H2 : (x / pow2 e + (1 # 2)) * pow2 e == x + pow2 (ilog2 x) * pow2 (-53)).
  { rewrite <- pow2_add. replace (ilog2 x + -53)%Z with (e + -1)%Z by (unfold e; lia).
    rewrite pow2_add. change (pow2 (-1)) with (1 # 2). field. lra. }
  rewrite H2 in H1. eapply Qle_trans; [exact H1|].
  assert (H3 : pow2 (ilog2 x) * pow2 (-53) <= x * pow2 (-53)).
  { apply Qmult_le_compat_r; [exact Hlo|]. apply Qlt_le_weak, pow2_pos. }
  lra.
Qed.

Lemma rnd_nonneg x : 0 <= x -> 0 <= rnd x.
Proof.
  intros Hx. rewrite rnd_spec. pose proof (pow2_pos (ulp_exp x)) as Hp.
  apply Qmult_le_0_compat; [|lra].
  change 0 with (inject_Z 0). rewrite <- Zle_Qle. apply Qrne_ge_int.
  change (inject_Z 0) with 0. apply Qle_shift_div_l; [exact Hp | lra].
Qed.

Lemma ltb_lt x y : ltb x y = true <-> x < y.
Proof.
  unfold ltb. rewrite negb_true_iff. split.
  - intros H. apply Qnot_le_lt. intros L. apply Qle_bool_iff in L. congruence.
  - intros H. destruct (Qle_bool y x) eqn:E; [|reflexivity].
    apply Qle_bool_iff in E. lra.
Qed.

Lemma ltb_ge x y : ltb x y = false <-> y <= x.
Proof.
  unfold ltb. rewrite negb_false_iff. apply Qle_bool_iff.
Qed.

Lemma min_le_l x y : min x y <= x.
Proof.
  unfold min. destruct (ltb y x) eqn:E; [|lra]. apply ltb_lt in E. lra.
Qed.

Lemma min_le_r x y : min x y <= y.
Proof.
  unfold min. destruct (ltb y x) eqn:E; [lra|]. apply ltb_ge in E. exact E.
Qed.

Lemma min_nonneg x y : 0 <= x -> 0 <= y -> 0 <= min x y.
Proof. intros. unfold min. destruct (ltb y x); assumption. Qed.

Lemma trunc_floor x : 0 <= x -> trunc x = Qfloor x.
Proof.
  destruct x as [n d]. unfold Qle, trunc, Qfloor. simpl. intros H.
  apply Z.quot_div_nonneg; lia.
Qed.

Lemma trunc_nonneg x : 0 <= x -> (0 <= trunc x)%Z.
Proof.
  intros H. rewrite trunc_floor by exact H.
  rewrite <- (Qfloor_Z 0). apply Qfloor_resp_le. exact H.
Qed.

Lemma trunc_le x a : 0 <= x -> x < inject_Z (a + 1) -> (trunc x <= a)%Z.
Proof.
  intros H0 H. rewrite trunc_floor by exact H0.
  pose proof (Qfloor_le x) as Hf.
  assert (L : inject_Z (Qfloor x) < inject_Z (a + 1)) by lra.
  rewrite <- Zlt_Qlt in L. lia.
Qed.

Lemma of_int_exact a : (0 < a < 2 ^ prec)%Z -> of_int a == inject_Z a.
Proof. intros H. apply is_float_Z, H. Qed.

Lemma truediv_pos a b : (0 < a)%Z -> (0 < b)%Z -> 0 <= truediv a b.
Proof.
  intros Ha Hb. apply rnd_nonneg. apply Qle_shift_div_l; zq.
Qed.

(** Rounding stays below a power of two that bounds the argument. *)
Lemma rnd_le_pow2 x k : (emin <= k)%Z -> 0 <= x -> x <= pow2 k -> rnd x <= pow2 k.
Proof.
  intros Hk H0 Hx. destruct (Qeq_dec x 0) as [Z | NZ].
  - rewrite (rnd_zero _ Z). apply Qlt_le_weak, pow2_pos.
  - apply rnd_le_float; [| exact Hx |].
    + apply Qle_lteq in H0. destruct H0 as [L | E]; [exact L|].
      exfalso. apply NZ. symmetry. exact E.
    + assert (E : pow2 k == inject_Z 1 * pow2 k) by (change (inject_Z 1) with 1; ring).
      unfold is_float. rewrite E. apply is_float_dyadic; [unfold prec; lia | exact Hk].
Qed.

(** The heart of the Fitter's bound: an image side [b] scaled by a factor
    that does not exceed the rounded ratio [a / b] is, after rounding, at
    most [a + 1/2]. *)
Lemma scaled_side_bound (a b : Z) (s : float) :
  (0 < a < 2 ^ 52)%Z -> (0 < b < 2 ^ 53)%Z ->
  0 <= s -> s <= truediv a b ->
  0 <= mul (of_int b) s <= inject_Z a + (1 # 2).
Proof.
  intros Ha Hb Hs0 Hs.
  assert (Hbq : 0 < inject_Z b) by zq.
  assert (Haq : 0 < inject_Z a) by zq.
  assert (Hx0 : 0 <= of_int b * s).
  { rewrite of_int_exact by exact Hb. apply Qmult_le_0_compat; lra. }
  split; [apply rnd_nonneg, Hx0|].
  assert (Hhalf : is_float (inject_Z a + (1 # 2))).
  { assert (E : inject_Z a + (1 # 2) == inject_Z (2 * a + 1) * pow2 (-1)).
    { change (pow2 (-1)) with (1 # 2). rewrite inject_Z_plus, inject_Z_mult.
      change (inject_Z 2) with 2. change (inject_Z 1) with 1. field. }
    unfold is_float. rewrite E. apply is_float_dyadic; unfold prec, emin; lia. }
  assert (Hq : truediv a b <= inject_Z a / inject_Z b
                              + inject_Z a / inject_Z b * pow2 (-53)).
  { apply rnd_rel_upper.
    apply Qle_shift_div_l; [exact Hbq|].
    apply Qle_trans with (pow2 (emin + 52) * pow2 53).
    - apply Qmult_le_l; [apply pow2_pos|]. rewrite pow2_Z by lia. zq.
    - rewrite <- pow2_add. apply Qle_trans with (pow2 0); [apply pow2_le; unfold emin; lia|].
      change (pow2 0) with 1. zq. }
  assert (Hx : of_int b * s <= inject_Z a + (1 # 2)).
  { rewrite of_int_exact by exact Hb.
    apply Qle_trans with (inject_Z b * truediv a b).
    - apply Qmult_le_l; assumption.
    - apply Qle_trans with
        (inject_Z b * (inject_Z a / inject_Z b + inject_Z a / inject_Z b * pow2 (-53))).
      + apply Qmult_le_l; assumption.
      + assert (E : inject_Z b * (inject_Z a / inject_Z b
                                  + inject_Z a / inject_Z b * pow2 (-53))
                    == inject_Z a + inject_Z a * pow2 (-53)) by (field; lra).
        rewrite E.
        assert (L : inject_Z a * pow2 (-53) <= pow2 52 * pow2 (-53)).
        { apply Qmult_le_compat_r; [|apply Qlt_le_weak, pow2_pos].
          rewrite pow2_Z by lia. zq. }
        rewrite <- pow2_add in L. change (pow2 (52 + -53)) with (1 # 2) in L. lra. }
  unfold mul. destruct (Qeq_dec (of_int b * s) 0) as [Z | NZ].
  - rewrite (rnd_zero _ Z). lra.
  - apply rnd_le_float; [|exact Hx | exact Hhalf].
    apply Qle_lteq in Hx0. destruct Hx0 as [L | E]; [exact L|].
    exfalso. apply NZ. symmetry. exact E.
Qed.

(** Truncated, the scaled side never exceeds [a]. *)
Lemma scaled_side_le (a b : Z) (s : float) :
  (0 < a < 2 ^ 52)%Z -> (0 < b < 2 ^ 53)%Z ->
  0 <= s -> s <= truediv a b ->
  (0 <= trunc (mul (of_int b) s) <= a)%Z.
Proof.
  intros Ha Hb Hs0 Hs.
  destruct (scaled_side_bound a b s Ha Hb Hs0 Hs) as [H0 H1].
  split; [apply trunc_nonneg, H0|].
  apply trunc_le; [exact H0|]. rewrite inject_Z_succ. lra.
Qed.

(** Ratios of sizes stay below [2^52]. *)
Lemma truediv_le_pow2 (a b : Z) :
  (0 < a < 2 ^ 52)%Z -> (0 < b)%Z -> truediv a b <= pow2 52.
Proof.
  intros Ha Hb. unfold truediv.
  assert (Hbq : 0 < inject_Z b) by zq.
  apply rnd_le_pow2; [unfold emin; lia | apply Qle_shift_div_l; zq |].
  apply Qle_shift_div_r; [exact Hbq|].
  apply Qle_trans with (pow2 52 * 1).
  - rewrite pow2_Z by lia. zq.
  - apply Qmult_le_l; [apply pow2_pos | zq].
Qed.

End Binary64Facts.


(* ===================================================================== *)
(** * More on rounding: monotonicity, fixed points, lower bounds *)
(* ===================================================================== *)

Module Binary64Order.
Import Binary64Facts.
Local Open Scope Q_scope.

Lemma Qrne_mono x y : x <= y -> (Qrne x <= Qrne y)%Z.
Proof.
  intros Hxy.
  pose proof (Qfloor_resp_le x y Hxy) as Hf.
  destruct (Qrne_cases x) as [[Ex Hx] | [Ex Hx]];
    destruct (Qrne_cases y) as [[Ey Hy] | [Ey Hy]]; rewrite Ex, Ey; try lia.
  destruct (Z.eq_dec (Qfloor x) (Qfloor y)) as [E | NE]; [|lia].
  exfalso. rewrite E in Hx.
  assert (Exy : x == y) by lra.
  pose proof (Qrne_comp x y Exy). lia.
Qed.

(** Values of [rnd] are in lowest terms: equal values are the same term. *)
Lemma rnd_canonical a b : rnd a == rnd b -> rnd a = rnd b.
Proof.
  unfold rnd. intros H. apply Qred_complete.
  rewrite !Qred_correct in H. exact H.
Qed.

Lemma mul_comm x y : mul x y = mul y x.
Proof. unfold mul. apply rnd_comp. ring. Qed.

(** Rounding is monotone on the non-negative rationals. *)
Lemma rnd_mono x y : 0 <= x -> x <= y -> rnd x <= rnd y.
Proof.
  intros H0 Hxy. destruct (Qeq_dec x 0) as [Z | NZ].
  { rewrite (rnd_zero x Z). apply rnd_nonneg. lra. }
  assert (Hx : 0 < x).
  { apply Qle_lteq in H0. destruct H0 as [L | E]; [exact L|].
    exfalso. apply NZ. symmetry. exact E. }
  assert (Hy : 0 < y) by lra.
  pose proof (ulp_exp_mono x y Hx Hxy) as He.
  destruct (Z.eq_dec (ulp_exp x) (ulp_exp y)) as [E | NE].
  - rewrite !rnd_spec, <- E. pose proof (pow2_pos (ulp_exp x)) as Hp.
    apply Qmult_le_compat_r; [|lra]. rewrite <- Zle_Qle. apply Qrne_mono.
    apply Qmult_le_compat_r; [exact Hxy|]. apply Qlt_le_weak, Qinv_lt_0_compat, Hp.
  - assert (Hlt : (ulp_exp x < ulp_exp y)%Z) by lia.
    rewrite (ulp_exp_pos x Hx), (ulp_exp_pos y Hy) in Hlt.
    destruct (ilog2_spec x Hx) as [_ Hxhi]. destruct (ilog2_spec y Hy) as [Hylo _].
    apply Qle_trans with (pow2 (ilog2 y)).
    + apply rnd_le_pow2; [unfold emin in *; lia | lra |].
      apply Qle_trans with (pow2 (ilog2 x + 1)); [lra|]. apply pow2_le. lia.
    + rewrite rnd_spec, (ulp_exp_pos y Hy).
      replace (Z.max (ilog2 y - 52) emin) with (ilog2 y - 52)%Z by lia.
      set (e := (ilog2 y - 52)%Z). pose proof (pow2_pos e) as Hp.
      assert (Hs : pow2 (ilog2 y) == inject_Z (2 ^ 52) * pow2 e).
      { rewrite <- pow2_Z by lia. rewrite <- pow2_add. unfold e.
        replace (52 + (ilog2 y - 52))%Z with (ilog2 y) by lia. reflexivity. }
      rewrite Hs. apply Qmult_le_compat_r; [|lra].
      rewrite <- Zle_Qle. apply Qrne_ge_int.
      apply Qle_shift_div_l; [exact Hp|]. rewrite <- Hs. exact Hylo.
Qed.

(** A rounded value is a binary64 number. *)
Lemma rnd_is_float x : 0 <= x -> is_float (rnd x).
Proof.
  intros H0. destruct (Qeq_dec x 0) as [Z | NZ].
  { rewrite (rnd_zero x Z). unfold is_float. rewrite (rnd_zero 0); reflexivity. }
  assert (Hx : 0 < x).
  { apply Qle_lteq in H0. destruct H0 as [L | E]; [exact L|].
    exfalso. apply NZ. symmetry. exact E. }
  set (e := ulp_exp x). set (M := Qrne (x / pow2 e)).
  pose proof (pow2_pos e) as Hp.
  assert (Hval : rnd x == inject_Z M * pow2 e) by apply rnd_spec.
  assert (HM0 : (0 <= M)%Z).
  { apply Qrne_ge_int. change (inject_Z 0) with 0.
    apply Qle_shift_div_l; [exact Hp | lra]. }
  assert (HM1 : (M <= 2 ^ 53)%Z).
  { apply Qrne_le_int. apply Qle_shift_div_r; [exact Hp|].
    destruct (ilog2_spec x Hx) as [_ Hhi].
    apply Qle_trans with (pow2 (ilog2 x + 1)); [lra|].
    rewrite <- pow2_Z by lia. rewrite <- pow2_add. apply pow2_le.
    unfold e. rewrite (ulp_exp_pos x Hx). lia. }
  assert (Hemin : (emin <= e)%Z) by apply ulp_exp_ge_emin.
  unfold is_float. rewrite (rnd_comp _ _ Hval), Hval.
  destruct (Z.eq_dec M 0%Z) as [-> | HMnz].
  - rewrite (rnd_zero (inject_Z 0 * pow2 e)); [|change (inject_Z 0) with 0; ring].
    change (inject_Z 0) with 0. ring.
  - destruct (Z.eq_dec M (2 ^ 53)%Z) as [-> | HMtop].
    + assert (E : inject_Z (2 ^ 53) * pow2 e == inject_Z 1 * pow2 (53 + e)).
      { rewrite <- pow2_Z by lia. rewrite <- pow2_add.
        change (inject_Z 1) with 1. ring. }
      rewrite (rnd_comp _ _ E), E.
      apply is_float_dyadic; [unfold prec; lia | lia].
    + apply is_float_dyadic; [unfold prec; lia | exact Hemin].
Qed.

(** Rounding never crosses a binary64 number lying below the argument. *)
Lemma rnd_ge_float x c : 0 <= c -> c <= x -> is_float c -> c <= rnd x.
Proof.
  intros H0 Hcx Hc. unfold is_float in Hc. rewrite <- Hc.
  apply rnd_mono; assumption.
Qed.

Lemma rnd_rel_lower x : pow2 (emin + 52) <= x -> x - x * pow2 (-53) <= rnd x.
Proof.
  intros Hn.
  assert (Hx : 0 < x) by (eapply Qlt_le_trans; [apply pow2_pos | exact Hn]).
  destruct (ilog2_spec x Hx) as [Hlo Hhi].
  assert (Hi : (emin + 52 < ilog2 x + 1)%Z).
  { apply pow2_lt_inv. eapply Qle_lt_trans; eassumption. }
  rewrite rnd_spec, (ulp_exp_pos x Hx).
  replace (Z.max (ilog2 x - 52) emin) with (ilog2 x - 52)%Z by lia.
  set (e := (ilog2 x - 52)%Z). pose proof (pow2_pos e) as Hpe.
  pose proof (Qrne_lower (x / pow2 e)) as Hr.
  assert (H1 : (x / pow2 e - (1 # 2)) * pow2 e <= inject_Z (Qrne (x / pow2 e)) * pow2 e).
  { apply Qmult_le_compat_r; [exact Hr | lra]. }
  assert (H2 : (x / pow2 e - (1 # 2)) * pow2 e == x - pow2 (ilog2 x) * pow2 (-53)).
  { rewrite <- pow2_add. replace (ilog2 x + -53)%Z with (e + -1)%Z by (unfold e; lia).
    rewrite pow2_add. change (pow2 (-1)) with (1 # 2). field. lra. }
  rewrite H2 in H1. eapply Qle_trans; [|exact H1].
  assert (H3 : pow2 (ilog2 x) * pow2 (-53) <= x * pow2 (-53)).
  { apply Qmult_le_compat_r; [exact Hlo|]. apply Qlt_le_weak, pow2_pos. }
  lra.
Qed.

Lemma min_cases x y : min x y = x \/ min x y = y.
Proof. unfold min. destruct (ltb y x); auto. Qed.

Lemma trunc_ge x a : inject_Z a <= x -> 0 <= x -> (a <= trunc x)%Z.
Proof.
  intros Ha H0. rewrite trunc_floor by exact H0.
  rewrite <- (Qfloor_Z a). apply Qfloor_resp_le, Ha.
Qed.

(** Scaling a side [b] by the rounded ratio [a / b] itself loses at most
    one pixel of [a]. *)
Lemma scaled_side_reaches (a b : Z) :
  (0 < a < 2 ^ 52)%Z -> (0 < b < 2 ^ 53)%Z ->
  (a - 1 <= trunc (mul (of_int b) (truediv a b)))%Z.
Proof.
  intros Ha Hb.
  assert (Hbq : 0 < inject_Z b) by zq.
  assert (Haq : 0 < inject_Z a) by zq.
  assert (Hq0 : 0 <= truediv a b) by (apply truediv_pos; lia).
  assert (Hx0 : 0 <= of_int b * truediv a b).
  { rewrite of_int_exact by exact Hb. apply Qmult_le_0_compat; lra. }
  assert (Hq : inject_Z a / inject_Z b - inject_Z a / inject_Z b * pow2 (-53)
               <= truediv a b).
  { apply rnd_rel_lower.
    apply Qle_shift_div_l; [exact Hbq|].
    apply Qle_trans with (pow2 (emin + 52) * pow2 53).
    - apply Qmult_le_l; [apply pow2_pos|]. rewrite pow2_Z by lia. zq.
    - rewrite <- pow2_add. apply Qle_trans with (pow2 0); [apply pow2_le; unfold emin; lia|].
      change (pow2 0) with 1. zq. }
  assert (Hx : inject_Z a - (1 # 2) <= of_int b * truediv a b).
  { rewrite of_int_exact by exact Hb.
    apply Qle_trans with
      (inject_Z b * (inject_Z a / inject_Z b - inject_Z a / inject_Z b * pow2 (-53))).
    - assert (E : inject_Z b * (inject_Z a / inject_Z b
                                - inject_Z a / inject_Z b * pow2 (-53))
                  == inject_Z a - inject_Z a * pow2 (-53)) by (field; lra).
      rewrite E.
      assert (L : inject_Z a * pow2 (-53) <= pow2 52 * pow2 (-53)).
      { apply Qmult_le_compat_r; [|apply Qlt_le_weak, pow2_pos].
        rewrite pow2_Z by lia. zq. }
      rewrite <- pow2_add in L. change (pow2 (52 + -53)) with (1 # 2) in L. lra.
    - apply Qmult_le_l; assumption. }
  assert (Hhalf : is_float (inject_Z a - (1 # 2))).
  { assert (E : inject_Z a - (1 # 2) == inject_Z (2 * a - 1) * pow2 (-1)).
    { change (pow2 (-1)) with (1 # 2). unfold Qeq. simpl. lia. }
    unfold is_float. rewrite E. apply is_float_dyadic; unfold prec, emin; lia. }
  assert (Hc0 : 0 <= inject_Z a - (1 # 2)).
  { assert (inject_Z 1 <= inject_Z a) by (rewrite <- Zle_Qle; lia).
    change (inject_Z 1) with 1 in *. lra. }
  assert (Hr : inject_Z a - (1 # 2) <= mul (of_int b) (truediv a b))
    by (unfold mul; apply rnd_ge_float; assumption).
  apply trunc_ge; [|apply rnd_nonneg, Hx0].
  assert (E : inject_Z (a - 1) == inject_Z a - 1) by (unfold Qeq; simpl; lia).
  rewrite E. lra.
Qed.

End Binary64Order.

(* ===================================================================== *)
(** * [Binary64] agrees with the hardware on sample operations *)
(* ===================================================================== *)

Example truediv_agrees_900_2000 :
  prim_value (PrimFloat.div (prim_of_int 900) (prim_of_int 2000))
  = Some (truediv 900 2000).
Proof. vm_compute. reflexivity. Qed.

Example truediv_agrees_1_49 :
  prim_value (PrimFloat.div (prim_of_int 1) (prim_of_int 49))
  = Some (truediv 1 49).
Proof. vm_compute. reflexivity. Qed.

(** [49 * (1 / 49)] is below 1 in binary64: [int(..)] gives 0. *)
Example mul_agrees_49 :
  prim_value (PrimFloat.mul (prim_of_int 49)
                            (PrimFloat.div (prim_of_int 1) (prim_of_int 49)))
  = Some (mul (of_int 49) (truediv 1 49))
  /\ trunc (mul (of_int 49) (truediv 1 49)) = 0.
Proof. split; vm_compute; reflexivity. Qed.

Example mul_agrees_2000_scale :
  prim_value (PrimFloat.mul (prim_of_int 2000)
                            (PrimFloat.div (prim_of_int 1200) (prim_of_int 3000)))
  = Some (mul (of_int 2000) (truediv 1200 3000)).
Proof. vm_compute. reflexivity. Qed.

(** Halfway cases go to the even neighbour: 2^53 + 1 and 2^53 + 3. *)
Example of_int_agrees_halfway :
  prim_value (prim_of_int 9007199254740993) = Some (of_int 9007199254740993) /\
  prim_value (prim_of_int 9007199254740995) = Some (of_int 9007199254740995) /\
  of_int 9007199254740993 = 9007199254740992%Q /\
  of_int 9007199254740995 = 9007199254740996%Q.
Proof. repeat split; vm_compute; reflexivity. Qed.

Example add_agrees_areas :
  prim_value (PrimFloat.add (prim_of_int 540000)
                            (PrimFloat.div (prim_of_int 1) (prim_of_int 3)))
  = Some (add (of_int 540000) (truediv 1 3)).
Proof. vm_compute. reflexivity. Qed.

(** The literal 1.2 and the brightness factor derived from it. *)
Example enhancement_factor_agrees :
  prim_value (PrimFloat.div (prim_of_int 12) (prim_of_int 10))
  = Some ENHANCEMENT_FACTOR.
Proof. vm_compute. reflexivity. Qed.
Import Binary64Facts.

(* ===================================================================== *)
(** * The Quadrant Fitter *)
(* ===================================================================== *)

Section FitterFacts.
Context {lib : Imaging}.

Lemma fit_scale_nonneg qw qh w h :
  0 < qw -> 0 < qh -> 0 < w -> 0 < h -> (0 <= fit_scale qw qh w h)%Q.
Proof.
  intros. unfold fit_scale. apply min_nonneg; apply truediv_pos; assumption.
Qed.

Lemma fit_scale_le_w qw qh w h : (fit_scale qw qh w h <= truediv qw w)%Q.
Proof. apply min_le_l. Qed.

Lemma fit_scale_le_h qw qh w h : (fit_scale qw qh w h <= truediv qh h)%Q.
Proof. apply min_le_r. Qed.

(** The function, with the names of the comparison on line 62. *)
Lemma fit_image_to_quad_eq (img : image) (quad_width quad_height : Z) :
  fit_image_to_quad img quad_width quad_height =
  if leb (area_rotated img quad_width quad_height)
         (area_normal img quad_width quad_height)
  then resize img
         (trunc (mul (of_int (width img)) (scale_normal img quad_width quad_height)))
         (trunc (mul (of_int (height img)) (scale_normal img quad_width quad_height)))
  else resize (rotate90 img)
         (trunc (mul (of_int (height img)) (scale_rotated img quad_width quad_height)))
         (trunc (mul (of_int (width img)) (scale_rotated img quad_width quad_height))).
Proof.
  unfold fit_image_to_quad, area_rotated, area_normal, covered_area,
    scale_normal, scale_rotated, fit_scale.
  cbv zeta. cbn [width height rotate90]. reflexivity.
Qed.

(** A call of the fitter raises exactly when a side of the computed size is
    below 1, and otherwise returns the image of [fit_image_to_quad]. *)
Lemma fit_image_to_quad_checked_eq (img : image) (quad_width quad_height : Z) :
  fit_image_to_quad_checked img quad_width quad_height =
  if resize_raises (width (fit_image_to_quad img quad_width quad_height))
                   (height (fit_image_to_quad img quad_width quad_height))
  then None
  else Some (fit_image_to_quad img quad_width quad_height).
Proof.
  unfold fit_image_to_quad_checked, fit_image_to_quad. cbv zeta.
  destruct (leb _ _); unfold resize_checked; cbn [width height resize];
    reflexivity.
Qed.

(** Both sides of a uniformly scaled image stay inside the quadrant. *)
Lemma scaled_sides_fit (qw qh w h : Z) :
  0 < qw < 2 ^ 52 -> 0 < qh < 2 ^ 52 -> 0 < w < 2 ^ 53 -> 0 < h < 2 ^ 53 ->
  0 <= trunc (mul (of_int w) (fit_scale qw qh w h)) <= qw /\
  0 <= trunc (mul (of_int h) (fit_scale qw qh w h)) <= qh.
Proof.
  intros Hqw Hqh Hw Hh.
  assert (H0 : (0 <= fit_scale qw qh w h)%Q) by (apply fit_scale_nonneg; lia).
  split; apply scaled_side_le; auto using fit_scale_le_w, fit_scale_le_h.
Qed.

Lemma fit_within_quad (img : image) (qw qh : Z) :
  0 < width img < 2 ^ 53 -> 0 < height img < 2 ^ 53 ->
  0 < qw < 2 ^ 52 -> 0 < qh < 2 ^ 52 ->
  0 <= width (fit_image_to_quad img qw qh) <= qw /\
  0 <= height (fit_image_to_quad img qw qh) <= qh.
Proof.
  intros Hw Hh Hqw Hqh. rewrite fit_image_to_quad_eq.
  destruct (leb _ _); cbn [width height resize].
  - apply scaled_sides_fit; assumption.
  - apply (scaled_sides_fit qw qh (height img) (width img)); assumption.
Qed.

Lemma trunc_tolerance (x : float) :
  (0 <= x)%Q -> (inject_Z (trunc x) <= x < inject_Z (trunc x) + 1)%Q.
Proof.
  intros H. rewrite trunc_floor by exact H. split.
  - apply Qfloor_le.
  - rewrite <- inject_Z_succ. apply Qlt_floor.
Qed.

Lemma scaled_side_nonneg (qw qh w h b : Z) :
  0 < qw -> 0 < qh -> 0 < w -> 0 < h -> 0 < b < 2 ^ 53 ->
  (0 <= mul (of_int b) (fit_scale qw qh w h))%Q.
Proof.
  intros. apply rnd_nonneg. rewrite of_int_exact by assumption.
  apply Qmult_le_0_compat; [zq | apply fit_scale_nonneg; assumption].
Qed.

(** No value of the Fitter comes near the overflow threshold [2^1024] of
    binary64: scales stay below [2^52], covered areas below [2^106]. *)
Lemma covered_area_bound (qw qh w h : Z) :
  0 < qw < 2 ^ 52 -> 0 < qh < 2 ^ 52 -> 0 < w < 2 ^ 53 -> 0 < h < 2 ^ 53 ->
  (0 <= fit_scale qw qh w h <= pow2 52)%Q /\
  (0 <= covered_area w h (fit_scale qw qh w h) <= pow2 106)%Q.
Proof.
  intros Hqw Hqh Hw Hh.
  assert (H0 : (0 <= fit_scale qw qh w h)%Q) by (apply fit_scale_nonneg; lia).
  split.
  - split; [exact H0|]. eapply Qle_trans; [apply fit_scale_le_w|].
    apply truediv_le_pow2; lia.
  - destruct (scaled_side_bound qw w (fit_scale qw qh w h) Hqw Hw H0
                (fit_scale_le_w qw qh w h)) as [X0 X1].
    destruct (scaled_side_bound qh h (fit_scale qw qh w h) Hqh Hh H0
                (fit_scale_le_h qw qh w h)) as [Y0 Y1].
    unfold covered_area.
    set (X := mul (of_int w) (fit_scale qw qh w h)) in *.
    set (Y := mul (of_int h) (fit_scale qw qh w h)) in *.
    clearbody X Y.
    assert (HX : (X <= pow2 53)%Q).
    { eapply Qle_trans; [exact X1|]. rewrite pow2_Z by lia.
      assert (inject_Z qw <= inject_Z (2 ^ 53 - 1))%Q by (rewrite <- Zle_Qle; lia).
      assert (inject_Z (2 ^ 53 - 1) + 1 == inject_Z (2 ^ 53))%Q
        by (rewrite <- inject_Z_succ; reflexivity).
      lra. }
    assert (HY : (Y <= pow2 53)%Q).
    { eapply Qle_trans; [exact Y1|]. rewrite pow2_Z by lia.
      assert (inject_Z qh <= inject_Z (2 ^ 53 - 1))%Q by (rewrite <- Zle_Qle; lia).
      assert (inject_Z (2 ^ 53 - 1) + 1 == inject_Z (2 ^ 53))%Q
        by (rewrite <- inject_Z_succ; reflexivity).
      lra. }
    split; [apply rnd_nonneg, Qmult_le_0_compat; assumption|].
    apply rnd_le_pow2; [unfold emin; lia | apply Qmult_le_0_compat; assumption |].
    change 106 with (53 + 53). rewrite pow2_add.
    apply Qle_trans with (X * pow2 53)%Q.
    + rewrite (Qmult_comm X Y), (Qmult_comm X (pow2 53)).
      apply Qmult_le_compat_r; [exact HY | exact X0].
    + apply Qmult_le_compat_r; [exact HX | apply Qlt_le_weak, pow2_pos].
Qed.

(** C1.  For an image and a region with positive sides (the image's below
    2^53, the region's below 2^52: the integers binary64 holds exactly, which
    include every size of an image in memory and every region of the
    canvas), the image returned by [fit_image_to_quad] is no wider and no
    taller than the region, and its sides are the sides of the source in the
    chosen orientation (as they are, or swapped), both multiplied by one
    scale and truncated, so each side is less than one pixel below the
    uniformly scaled side. *)
Theorem fit_image_to_quad_within_region (img : image) (quad_width quad_height : Z) :
  0 < width img < 2 ^ 53 -> 0 < height img < 2 ^ 53 ->
  0 < quad_width < 2 ^ 52 -> 0 < quad_height < 2 ^ 52 ->
  let r := fit_image_to_quad img quad_width quad_height in
  0 <= width r <= quad_width /\ 0 <= height r <= quad_height /\
  exists (src_w src_h : Z) (scale : float),
    ((src_w, src_h) = (width img, height img) \/
     (src_w, src_h) = (height img, width img)) /\
    scale = fit_scale quad_width quad_height src_w src_h /\
    width r = trunc (mul (of_int src_w) scale) /\
    height r = trunc (mul (of_int src_h) scale) /\
    (inject_Z (width r) <= mul (of_int src_w) scale < inject_Z (width r) + 1)%Q /\
    (inject_Z (height r) <= mul (of_int src_h) scale < inject_Z (height r) + 1)%Q.
Proof.
  intros Hw Hh Hqw Hqh r.
  destruct (fit_within_quad img quad_width quad_height Hw Hh Hqw Hqh) as [Bw Bh].
  fold r in Bw, Bh. split; [exact Bw|]. split; [exact Bh|].
  subst r. rewrite fit_image_to_quad_eq.
  destruct (leb _ _); cbn [width height resize].
  - exists (width img), (height img), (scale_normal img quad_width quad_height).
    repeat split; auto;
      try (apply trunc_tolerance; apply scaled_side_nonneg; lia).
  - exists (height img), (width img), (scale_rotated img quad_width quad_height).
    repeat split; auto;
      try (apply trunc_tolerance; apply scaled_side_nonneg; lia).
Qed.

(** C2.  [fit_image_to_quad] keeps the orientation exactly when
    [area_normal >= area_rotated], the two products of line 62; it then
    resizes the image as it is with [scale_normal].  Otherwise it turns the
    image by 90 degrees and resizes with [scale_rotated].  Equal areas keep
    the orientation. *)
Theorem fit_image_to_quad_orientation (img : image) (quad_width quad_height : Z) :
  let an := area_normal img quad_width quad_height in
  let ar := area_rotated img quad_width quad_height in
  let sn := min (truediv quad_width (width img)) (truediv quad_height (height img)) in
  let sr := min (truediv quad_width (height img)) (truediv quad_height (width img)) in
  an = mul (mul (of_int (width img)) sn) (mul (of_int (height img)) sn) /\
  ar = mul (mul (of_int (height img)) sr) (mul (of_int (width img)) sr) /\
  ((ar <= an)%Q ->
     fit_image_to_quad img quad_width quad_height =
     resize img (trunc (mul (of_int (width img)) sn))
                (trunc (mul (of_int (height img)) sn))) /\
  ((an < ar)%Q ->
     fit_image_to_quad img quad_width quad_height =
     resize (rotate90 img) (trunc (mul (of_int (height img)) sr))
                           (trunc (mul (of_int (width img)) sr))) /\
  ((an == ar)%Q ->
     fit_image_to_quad img quad_width quad_height =
     resize img (trunc (mul (of_int (width img)) sn))
                (trunc (mul (of_int (height img)) sn))).
Proof.
  cbv zeta.
  split; [unfold area_normal, covered_area, scale_normal, fit_scale; reflexivity|].
  split; [unfold area_rotated, covered_area, scale_rotated, fit_scale; reflexivity|].
  rewrite fit_image_to_quad_eq. unfold scale_normal, scale_rotated, fit_scale, leb.
  set (an := area_normal img quad_width quad_height).
  set (ar := area_rotated img quad_width quad_height).
  split; [|split].
  - intros H. apply Qle_bool_iff in H. rewrite H. reflexivity.
  - intros H. destruct (Qle_bool ar an) eqn:E; [|reflexivity].
    apply Qle_bool_iff in E. exfalso. apply (Qlt_not_le _ _ H E).
  - intros H. assert (L : (ar <= an)%Q) by (rewrite H; apply Qle_refl).
    apply Qle_bool_iff in L. rewrite L. reflexivity.
Qed.

(** C4.  A 3000 x 2000 image in a 900 x 1200 region: the normal orientation
    covers 540000, the rotated one 960000, so the image is turned and comes
    out 800 x 1200. *)
Theorem fit_3000x2000_in_900x1200 (px : Z -> Z -> pixel) :
  let img := Image 3000 2000 px in
  area_normal img 900 1200 = 540000%Q /\
  area_rotated img 900 1200 = 960000%Q /\
  (area_normal img 900 1200 < area_rotated img 900 1200)%Q /\
  fit_image_to_quad img 900 1200 = resize (rotate90 img) 800 1200 /\
  width (fit_image_to_quad img 900 1200) = 800 /\
  height (fit_image_to_quad img 900 1200) = 1200.
Proof.
  intros img.
  assert (An : area_normal img 900 1200 = 540000%Q) by (vm_compute; reflexivity).
  assert (Ar : area_rotated img 900 1200 = 960000%Q) by (vm_compute; reflexivity).
  assert (Sw : trunc (mul (of_int 2000) (scale_rotated img 900 1200)) = 800)
    by (vm_compute; reflexivity).
  assert (Sh : trunc (mul (of_int 3000) (scale_rotated img 900 1200)) = 1200)
    by (vm_compute; reflexivity).
  assert (E : fit_image_to_quad img 900 1200 = resize (rotate90 img) 800 1200).
  { rewrite fit_image_to_quad_eq, An, Ar.
    change (leb 960000%Q 540000%Q) with false. cbv iota.
    change (height img) with 2000. change (width img) with 3000.
    rewrite Sw, Sh. reflexivity. }
  rewrite An, Ar, E. repeat split; reflexivity.
Qed.

End FitterFacts.

(* ===================================================================== *)
(** * Pasting *)
(* ===================================================================== *)

Section PasteFacts.
Context {lib : Imaging}.

Lemma in_box_true x0 y0 w h x y :
  in_box x0 y0 w h x y = true <-> (x0 <= x < x0 + w /\ y0 <= y < y0 + h).
Proof.
  unfold in_box. rewrite !andb_true_iff, !Z.leb_le, !Z.ltb_lt. lia.
Qed.

Lemma in_box_false x0 y0 w h x y :
  in_box x0 y0 w h x y = false <-> ~ (x0 <= x < x0 + w /\ y0 <= y < y0 + h).
Proof.
  rewrite <- in_box_true. destruct (in_box x0 y0 w h x y); split; intros; congruence.
Qed.

(** Centering keeps the pasted box inside the quadrant. *)
Lemma centered_box_inside (quad_x quad_width new_w : Z) :
  new_w <= quad_width ->
  quad_x <= quad_x + (quad_width - new_w) / 2 /\
  quad_x + (quad_width - new_w) / 2 + new_w <= quad_x + quad_width.
Proof.
  intros H. pose proof (Z.div_pos (quad_width - new_w) 2 ltac:(lia) ltac:(lia)).
  pose proof (Z.mul_div_le (quad_width - new_w) 2 ltac:(lia)). lia.
Qed.

Lemma paste_pixels (sheet im : image) x0 y0 x y :
  pixels (paste sheet im x0 y0) x y =
  if in_box x0 y0 (width im) (height im) x y
  then pixels im (x - x0) (y - y0) else pixels sheet x y.
Proof. reflexivity. Qed.

Lemma paste_centered_eq (sheet r : image) qx qy qw qh :
  paste_centered sheet r qx qy qw qh =
  paste sheet r (qx + (qw - width r) / 2) (qy + (qh - height r) / 2).
Proof. reflexivity. Qed.

Lemma paste_centered_size (sheet r : image) qx qy qw qh :
  width (paste_centered sheet r qx qy qw qh) = width sheet /\
  height (paste_centered sheet r qx qy qw qh) = height sheet.
Proof. split; reflexivity. Qed.

(** A centered paste of an image that fits the quadrant touches no pixel
    outside the quadrant. *)
Lemma paste_centered_outside (sheet r : image) qx qy qw qh x y :
  width r <= qw -> height r <= qh ->
  in_box qx qy qw qh x y = false ->
  pixels (paste_centered sheet r qx qy qw qh) x y = pixels sheet x y.
Proof.
  intros Hw Hh Hout. rewrite paste_centered_eq, paste_pixels.
  destruct (in_box _ _ (width r) (height r) x y) eqn:E; [|reflexivity].
  exfalso. apply in_box_true in E. apply in_box_false in Hout. apply Hout.
  pose proof (centered_box_inside qx qw (width r) Hw).
  pose proof (centered_box_inside qy qh (height r) Hh). lia.
Qed.

(** The paste on a full sheet (lines 160-163) is the centered paste in the
    region of the whole canvas. *)
Lemma paste_full_sheet (sheet r : image) :
  paste sheet r ((OUTPUT_WIDTH_PX - width r) / 2) ((OUTPUT_HEIGHT_PX - height r) / 2)
  = paste_centered sheet r 0 0 OUTPUT_WIDTH_PX OUTPUT_HEIGHT_PX.
Proof. reflexivity. Qed.

(** C10.  Every paste of the compositor is [paste_centered] of a fitted
    image in its region (the paste on a full sheet is the one in the region
    of the whole canvas).  For an image and a region with positive sides
    (below 2^53 and 2^52, as for the Fitter) the centering offsets are at or
    after the region's origin, offset plus fitted side does not pass the
    region's far edge, and the paste leaves every pixel outside the region
    as it was. *)
Theorem paste_stays_in_region (sheet img : image)
        (quad_x quad_y quad_width quad_height : Z) :
  0 < width img < 2 ^ 53 -> 0 < height img < 2 ^ 53 ->
  0 < quad_width < 2 ^ 52 -> 0 < quad_height < 2 ^ 52 ->
  let img_resized := fit_image_to_quad img quad_width quad_height in
  let paste_x := quad_x + (quad_width - width img_resized) / 2 in
  let paste_y := quad_y + (quad_height - height img_resized) / 2 in
  paste_centered sheet img_resized quad_x quad_y quad_width quad_height
    = paste sheet img_resized paste_x paste_y /\
  (paste sheet img_resized
         ((OUTPUT_WIDTH_PX - width img_resized) / 2)
         ((OUTPUT_HEIGHT_PX - height img_resized) / 2)
   = paste_centered sheet img_resized 0 0 OUTPUT_WIDTH_PX OUTPUT_HEIGHT_PX) /\
  quad_x <= paste_x /\ paste_x + width img_resized <= quad_x + quad_width /\
  quad_y <= paste_y /\ paste_y + height img_resized <= quad_y + quad_height /\
  forall x y,
    in_box quad_x quad_y quad_width quad_height x y = false ->
    pixels (paste_centered sheet img_resized quad_x quad_y quad_width quad_height) x y
    = pixels sheet x y.
Proof.
  intros Hw Hh Hqw Hqh.
  destruct (fit_within_quad img quad_width quad_height Hw Hh Hqw Hqh) as [Bw Bh].
  revert Bw Bh. generalize (fit_image_to_quad img quad_width quad_height).
  intros r Bw Bh. cbv zeta.
  pose proof (centered_box_inside quad_x quad_width (width r) ltac:(lia)) as Cx.
  pose proof (centered_box_inside quad_y quad_height (height r) ltac:(lia)) as Cy.
  split; [apply paste_centered_eq|]. split; [apply paste_full_sheet|].
  split; [apply Cx|]. split; [apply Cx|]. split; [apply Cy|]. split; [apply Cy|].
  intros x y Hout. apply paste_centered_outside; [lia | lia | exact Hout].
Qed.

End PasteFacts.

(* ===================================================================== *)
(** * The grid compositor *)
(* ===================================================================== *)

Section GridFacts.
Context {lib : Imaging} {disk : Disk}.

Lemma decoded_bounds (d : decoded) :
  0 < width (dec_image d) < 2 ^ 53 /\ 0 < height (dec_image d) < 2 ^ 53.
Proof.
  pose proof (dec_ok d) as H. unfold size_ok, INT_MAX in H.
  rewrite !andb_true_iff, !Z.ltb_lt, !Z.leb_le in H. lia.
Qed.

Lemma enhanced_size (img : image) (factor : float) :
  width (apply_enhancements img factor) = width img /\
  height (apply_enhancements img factor) = height img.
Proof. split; reflexivity. Qed.

(** The fitted image of a decoded photo stays inside its quadrant. *)
Lemma fitted_photo_within (d : decoded) (qw qh : Z) :
  0 < qw < 2 ^ 52 -> 0 < qh < 2 ^ 52 ->
  0 <= width (fit_image_to_quad
                (apply_enhancements (dec_image d) ENHANCEMENT_FACTOR) qw qh) <= qw /\
  0 <= height (fit_image_to_quad
                 (apply_enhancements (dec_image d) ENHANCEMENT_FACTOR) qw qh) <= qh.
Proof.
  intros Hqw Hqh. destruct (decoded_bounds d) as [Hw Hh].
  apply fit_within_quad; assumption.
Qed.

Lemma fit_returns_eq (d : decoded) (qw qh : Z) :
  fit_returns d qw qh
  = negb (resize_raises
            (width (fit_image_to_quad
                      (apply_enhancements (dec_image d) ENHANCEMENT_FACTOR) qw qh))
            (height (fit_image_to_quad
                       (apply_enhancements (dec_image d) ENHANCEMENT_FACTOR) qw qh))).
Proof.
  unfold fit_returns. rewrite fit_image_to_quad_checked_eq.
  destruct (resize_raises _ _); reflexivity.
Qed.

(** The fitter returns exactly when both sides of the fitted size are at
    least one pixel. *)
Lemma fit_returns_iff (d : decoded) (qw qh : Z) :
  fit_returns d qw qh = true <->
  1 <= width (fit_image_to_quad
                (apply_enhancements (dec_image d) ENHANCEMENT_FACTOR) qw qh) /\
  1 <= height (fit_image_to_quad
                 (apply_enhancements (dec_image d) ENHANCEMENT_FACTOR) qw qh).
Proof.
  rewrite fit_returns_eq. unfold resize_raises.
  generalize (fit_image_to_quad
                (apply_enhancements (dec_image d) ENHANCEMENT_FACTOR) qw qh).
  intros r. rewrite negb_true_iff, orb_false_iff, !Z.ltb_ge. reflexivity.
Qed.

Lemma fit_checked_of_returns (d : decoded) (qw qh : Z) :
  fit_image_to_quad_checked
    (apply_enhancements (dec_image d) ENHANCEMENT_FACTOR) qw qh
  = if fit_returns d qw qh
    then Some (fit_image_to_quad
                 (apply_enhancements (dec_image d) ENHANCEMENT_FACTOR) qw qh)
    else None.
Proof.
  rewrite fit_returns_eq, fit_image_to_quad_checked_eq.
  destruct (resize_raises _ _); reflexivity.
Qed.

Lemma paste_centered_congr (sheet1 sheet2 r : image) qx qy qw qh x y :
  pixels sheet1 x y = pixels sheet2 x y ->
  pixels (paste_centered sheet1 r qx qy qw qh) x y
  = pixels (paste_centered sheet2 r qx qy qw qh) x y.
Proof.
  intros H. rewrite !paste_centered_eq, !paste_pixels, H. reflexivity.
Qed.

Lemma positions_2x2_eq :
  positions_2x2 = [ (0, 0); (900, 0); (0, 600); (900, 600) ].
Proof. reflexivity. Qed.

Lemma paste_quadrants_cons (i : nat) (p : string) (rest : list string)
      (sheet : image) :
  paste_quadrants i (p :: rest) sheet =
  if (4 <=? i)%nat then Some sheet
  else match open_rgb p with
       | None => paste_quadrants (S i) rest sheet
       | Some d =>
         if fit_returns d 900 600 then
           match positions_2x2 !! i with
           | None => None
           | Some (quad_x, quad_y) =>
             paste_quadrants (S i) rest
               (paste_centered sheet
                  (fit_image_to_quad
                     (apply_enhancements (dec_image d) ENHANCEMENT_FACTOR) 900 600)
                  quad_x quad_y 900 600)
           end
         else None
       end.
Proof.
  cbn [paste_quadrants]. change (OUTPUT_WIDTH_PX / 2) with 900.
  change (OUTPUT_HEIGHT_PX / 2) with 600.
  destruct (4 <=? i)%nat; [reflexivity|].
  destruct (open_rgb p) as [d|]; [|reflexivity].
  rewrite fit_checked_of_returns. destruct (fit_returns d 900 600); reflexivity.
Qed.

Lemma quadrants_disjoint (k k' : nat) (qx qy qx' qy' x y : Z) :
  k <> k' ->
  positions_2x2 !! k = Some (qx, qy) -> positions_2x2 !! k' = Some (qx', qy') ->
  in_box qx qy 900 600 x y = true -> in_box qx' qy' 900 600 x y = false.
Proof.
  rewrite positions_2x2_eq. intros Hk H1 H2 Hin.
  apply in_box_true in Hin. apply in_box_false.
  destruct k as [|[|[|[|k]]]]; destruct k' as [|[|[|[|k']]]];
    cbn in H1, H2; try discriminate; try congruence;
    injection H1 as <- <-; injection H2 as <- <-; lia.
Qed.

Lemma position_exists (i : nat) :
  (i < 4)%nat -> exists qx qy, positions_2x2 !! i = Some (qx, qy).
Proof.
  rewrite positions_2x2_eq. intros H.
  destruct i as [|[|[|[|i]]]]; [eauto ..| lia].
Qed.

(** The loop of [create_2x2_sheet] on at most four paths, when the fitter
    returns for every file that decodes: it ends without an exception, keeps
    the sheet's size, changes no pixel outside the quadrants it visits and
    gives each visited quadrant the centered image of its file, or leaves it
    alone when the file does not decode. *)
Lemma paste_quadrants_spec (image_paths : list string) :
  forall (i : nat) (sheet : image),
    (i + length image_paths <= 4)%nat ->
    Forall (fun d => fit_returns d 900 600 = true) (omap open_rgb image_paths) ->
    exists sheet',
      paste_quadrants i image_paths sheet = Some sheet' /\
      width sheet' = width sheet /\ height sheet' = height sheet /\
      (forall x y,
          (forall j qx qy, (j < length image_paths)%nat ->
                           positions_2x2 !! (i + j)%nat = Some (qx, qy) ->
                           in_box qx qy 900 600 x y = false) ->
          pixels sheet' x y = pixels sheet x y) /\
      (forall j p qx qy x y,
          image_paths !! j = Some p ->
          positions_2x2 !! (i + j)%nat = Some (qx, qy) ->
          in_box qx qy 900 600 x y = true ->
          pixels sheet' x y =
          match open_rgb p with
          | None => pixels sheet x y
          | Some d =>
            pixels (paste_centered sheet
                      (fit_image_to_quad
                         (apply_enhancements (dec_image d) ENHANCEMENT_FACTOR) 900 600)
                      qx qy 900 600) x y
          end).
Proof.
  induction image_paths as [|p rest IH]; intros i sheet Hlen Hfit.
  - exists sheet. repeat split; auto. intros j p qx qy x y H. discriminate.
  - cbn [length] in Hlen. rewrite paste_quadrants_cons.
    cbn [omap list_omap] in Hfit.
    assert (Hi : (i < 4)%nat) by lia.
    replace (4 <=? i)%nat with false by (symmetry; apply Nat.leb_gt; lia).
    destruct (position_exists i Hi) as (qx0 & qy0 & Hpos).
    (* later quadrants are disjoint from quadrant [i] *)
    assert (Hlater : forall x y, in_box qx0 qy0 900 600 x y = true ->
              forall j qx qy, (j < length rest)%nat ->
                positions_2x2 !! (S i + j)%nat = Some (qx, qy) ->
                in_box qx qy 900 600 x y = false).
    { intros x y Hin j qx qy _ Hq.
      eapply (quadrants_disjoint i (S i + j)); eauto. lia. }
    destruct (open_rgb p) as [d|] eqn:Hopen.
    + apply Forall_cons in Hfit as [Hd Hfit]. rewrite Hd, Hpos.
      destruct (fitted_photo_within d 900 600 ltac:(lia) ltac:(lia)) as [Bw Bh].
      remember (fit_image_to_quad
                  (apply_enhancements (dec_image d) ENHANCEMENT_FACTOR) 900 600)
        as r eqn:Er.
      destruct (IH (S i) (paste_centered sheet r qx0 qy0 900 600) ltac:(lia) Hfit)
        as (sheet' & Hrun & Hw & Hh & Hout & Hslot).
      exists sheet'. split; [exact Hrun|]. split; [exact Hw|]. split; [exact Hh|].
      split.
      * intros x y Hno. rewrite Hout.
        -- apply paste_centered_outside; [lia | lia |].
           apply (Hno 0%nat qx0 qy0); [cbn; lia|]. rewrite Nat.add_0_r. exact Hpos.
        -- intros j qx qy Hj Hq. apply (Hno (S j) qx qy); [cbn; lia|].
           rewrite <- Hq. f_equal. lia.
      * intros j q qx qy x y Hj Hq Hin. destruct j as [|j].
        -- cbn in Hj. injection Hj as <-. rewrite Nat.add_0_r, Hpos in Hq.
           injection Hq as <- <-. rewrite Hopen, <- Er.
           apply Hout. apply Hlater. exact Hin.
        -- cbn in Hj. replace (i + S j)%nat with (S i + j)%nat in Hq by lia.
           rewrite (Hslot j q qx qy x y Hj Hq Hin).
           assert (Hfar : in_box qx0 qy0 900 600 x y = false).
           { eapply (quadrants_disjoint (S i + j) i); eauto. lia. }
           assert (Hsame : pixels (paste_centered sheet r qx0 qy0 900 600) x y
                           = pixels sheet x y).
           { apply paste_centered_outside; [lia | lia | exact Hfar]. }
           destruct (open_rgb q); [|exact Hsame].
           apply paste_centered_congr. exact Hsame.
    + destruct (IH (S i) sheet ltac:(lia) Hfit)
        as (sheet' & Hrun & Hw & Hh & Hout & Hslot).
      exists sheet'. split; [exact Hrun|]. split; [exact Hw|]. split; [exact Hh|].
      split.
      * intros x y Hno. apply Hout.
        intros j qx qy Hj Hq. apply (Hno (S j) qx qy); [cbn; lia|].
        rewrite <- Hq. f_equal. lia.
      * intros j q qx qy x y Hj Hq Hin. destruct j as [|j].
        -- cbn in Hj. injection Hj as <-. rewrite Nat.add_0_r, Hpos in Hq.
           injection Hq as <- <-. rewrite Hopen.
           apply Hout. apply Hlater. exact Hin.
        -- cbn in Hj. replace (i + S j)%nat with (S i + j)%nat in Hq by lia.
           apply (Hslot j q qx qy x y Hj Hq Hin).
Qed.

Lemma region_holds_of_paste (sheet sheet' : image) (d : decoded) qx qy qw qh :
  0 < qw < 2 ^ 52 -> 0 < qh < 2 ^ 52 ->
  (forall x y, pixels sheet x y = white) ->
  (forall x y, in_box qx qy qw qh x y = true ->
     pixels sheet' x y =
     pixels (paste_centered sheet
               (fit_image_to_quad
                  (apply_enhancements (dec_image d) ENHANCEMENT_FACTOR) qw qh)
               qx qy qw qh) x y) ->
  region_holds sheet'
    (fit_image_to_quad (apply_enhancements (dec_image d) ENHANCEMENT_FACTOR) qw qh)
    qx qy qw qh.
Proof.
  intros Hqw Hqh Hwhite Hpix.
  destruct (fitted_photo_within d qw qh Hqw Hqh) as [Bw Bh].
  revert Hpix Bw Bh.
  generalize (fit_image_to_quad
                (apply_enhancements (dec_image d) ENHANCEMENT_FACTOR) qw qh).
  intros r Hpix Bw Bh. unfold region_holds. cbv zeta. split.
  - pose proof (centered_box_inside qx qw (width r) ltac:(lia)).
    pose proof (centered_box_inside qy qh (height r) ltac:(lia)). lia.
  - intros x y Hin. rewrite (Hpix x y Hin), paste_centered_eq, paste_pixels.
    rewrite Hwhite. reflexivity.
Qed.

(** The loop leaves with an exception when the fitter raises for a file
    that decodes. *)
Lemma paste_quadrants_raises (image_paths : list string) :
  forall (i : nat) (sheet : image),
    (i + length image_paths <= 4)%nat ->
    Exists (fun d => fit_returns d 900 600 = false) (omap open_rgb image_paths) ->
    paste_quadrants i image_paths sheet = None.
Proof.
  induction image_paths as [|p rest IH]; intros i sheet Hlen Hbad.
  - cbn in Hbad. apply Exists_nil in Hbad. contradiction.
  - cbn [length] in Hlen. rewrite paste_quadrants_cons.
    replace (4 <=? i)%nat with false by (symmetry; apply Nat.leb_gt; lia).
    cbn [omap list_omap] in Hbad.
    destruct (open_rgb p) as [d|]; [|apply IH; [lia | exact Hbad]].
    destruct (fit_returns d 900 600) eqn:Ed; [|reflexivity].
    destruct (position_exists i ltac:(lia)) as (qx & qy & Hpos). rewrite Hpos.
    apply IH; [lia|]. apply Exists_cons in Hbad as [Hd | Hrest]; [congruence|].
    exact Hrest.
Qed.

(** What [create_2x2_sheet] produces for a chunk of at most four files for
    which the fitter returns. *)
Lemma create_2x2_sheet_spec (image_paths : list string) (output_path : string)
      (fs : gmap string sheet_file) :
  (length image_paths <= 4)%nat ->
  Forall (fun d => fit_returns d 900 600 = true) (omap open_rgb image_paths) ->
  exists sheet,
    create_2x2_sheet image_paths output_path fs = (true, save sheet output_path fs) /\
    width sheet = 1800 /\ height sheet = 1200 /\
    forall k qx qy,
      positions_2x2 !! k = Some (qx, qy) ->
      match image_paths !! k ≫= open_rgb with
      | Some d =>
        region_holds sheet
          (fit_image_to_quad
             (apply_enhancements (dec_image d) ENHANCEMENT_FACTOR) 900 600)
          qx qy 900 600
      | None => region_blank sheet qx qy 900 600
      end.
Proof.
  intros Hlen Hfit. unfold create_2x2_sheet.
  destruct (paste_quadrants_spec image_paths 0
              (new_image OUTPUT_WIDTH_PX OUTPUT_HEIGHT_PX white) ltac:(lia) Hfit)
    as (sheet & Hrun & Hw & Hh & Hout & Hslot).
  rewrite Hrun. exists sheet. split; [reflexivity|].
  split; [rewrite Hw; reflexivity|]. split; [rewrite Hh; reflexivity|].
  intros k qx qy Hpos.
  destruct (image_paths !! k) as [p|] eqn:Hk; cbn [mbind option_bind].
  - specialize (Hslot k p qx qy). cbn [Nat.add] in Hslot.
    destruct (open_rgb p) as [d|].
    + apply (region_holds_of_paste
               (new_image OUTPUT_WIDTH_PX OUTPUT_HEIGHT_PX white));
        [lia | lia | reflexivity |].
      intros x y Hin. apply Hslot; assumption.
    + intros x y Hin. rewrite (Hslot x y Hk Hpos Hin). reflexivity.
  - intros x y Hin. rewrite Hout; [reflexivity|].
    intros j qx' qy' Hj Hq. cbn [Nat.add] in Hq.
    apply lookup_ge_None in Hk.
    eapply (quadrants_disjoint k j); eauto. lia.
Qed.

Lemma paste_quadrants_none (image_paths : list string) :
  Forall (fun p => open_rgb p = None) image_paths ->
  forall i sheet, paste_quadrants i image_paths sheet = Some sheet.
Proof.
  induction 1 as [|p rest Hp _ IH]; intros i sheet; [reflexivity|].
  rewrite paste_quadrants_cons, Hp. destruct (4 <=? i)%nat; [reflexivity | apply IH].
Qed.

(** C9.  When no file of the chunk decodes (an empty chunk included),
    [create_2x2_sheet] still saves a sheet to the output path, all of it
    background, and returns [True]. *)
Theorem create_2x2_sheet_no_images (image_paths : list string)
        (output_path : string) (fs : gmap string sheet_file) :
  Forall (fun p => open_rgb p = None) image_paths ->
  let sheet := new_image OUTPUT_WIDTH_PX OUTPUT_HEIGHT_PX white in
  create_2x2_sheet image_paths output_path fs = (true, save sheet output_path fs) /\
  save sheet output_path fs !! output_path = Some (SheetFile sheet (300, 300) 95) /\
  width sheet = 1800 /\ height sheet = 1200 /\
  forall x y, pixels sheet x y = white.
Proof.
  intros Hnone sheet. unfold create_2x2_sheet.
  rewrite (paste_quadrants_none image_paths Hnone).
  split; [reflexivity|]. split; [apply lookup_insert_eq|].
  repeat split.
Qed.

(** C7 (as amended).  A chunk of four files of which exactly two decode.
    When the fitter returns for both (no side of a fitted size truncates to
    0), the grid compositor returns [True] and saves a sheet on which the
    quadrants at the input positions of the two decodable files hold their
    fitted images, each at least one pixel wide and high, centered, and the
    two other quadrants are background.  When the fitter raises for one of
    them, the compositor returns [False] and writes nothing. *)
Theorem create_2x2_sheet_two_of_four (image_paths : list string)
        (output_path : string) (fs : gmap string sheet_file) :
  length image_paths = 4%nat ->
  length (omap open_rgb image_paths) = 2%nat ->
  (Forall (fun d => fit_returns d 900 600 = true) (omap open_rgb image_paths) ->
   exists (sheet : image) (i1 i2 : nat) (d1 d2 : decoded),
     create_2x2_sheet image_paths output_path fs = (true, save sheet output_path fs) /\
     width sheet = 1800 /\ height sheet = 1200 /\
     (i1 < i2 < 4)%nat /\
     image_paths !! i1 ≫= open_rgb = Some d1 /\
     image_paths !! i2 ≫= open_rgb = Some d2 /\
     (forall k, k <> i1 -> k <> i2 -> image_paths !! k ≫= open_rgb = None) /\
     (forall d, d = d1 \/ d = d2 ->
        1 <= width (fit_image_to_quad
                      (apply_enhancements (dec_image d) ENHANCEMENT_FACTOR) 900 600) /\
        1 <= height (fit_image_to_quad
                       (apply_enhancements (dec_image d) ENHANCEMENT_FACTOR) 900 600)) /\
     forall k qx qy,
       positions_2x2 !! k = Some (qx, qy) ->
       (k = i1 ->
        region_holds sheet
          (fit_image_to_quad
             (apply_enhancements (dec_image d1) ENHANCEMENT_FACTOR) 900 600)
          qx qy 900 600) /\
       (k = i2 ->
        region_holds sheet
          (fit_image_to_quad
             (apply_enhancements (dec_image d2) ENHANCEMENT_FACTOR) 900 600)
          qx qy 900 600) /\
       (k <> i1 -> k <> i2 -> region_blank sheet qx qy 900 600)) /\
  (Exists (fun d => fit_returns d 900 600 = false) (omap open_rgb image_paths) ->
   create_2x2_sheet image_paths output_path fs = (false, fs)).
Proof.
  intros Hlen Hcount. split.
  2:{ intros Hbad. unfold create_2x2_sheet.
      rewrite (paste_quadrants_raises image_paths 0 _ ltac:(lia) Hbad).
      reflexivity. }
  intros Hfit.
  destruct (create_2x2_sheet_spec image_paths output_path fs ltac:(lia) Hfit)
    as (sheet & Hrun & Hw & Hh & Hq).
  assert (Hpick : exists (i1 i2 : nat) (d1 d2 : decoded),
             (i1 < i2 < 4)%nat /\
             image_paths !! i1 ≫= open_rgb = Some d1 /\
             image_paths !! i2 ≫= open_rgb = Some d2 /\
             omap open_rgb image_paths = [d1; d2] /\
             (forall k, k <> i1 -> k <> i2 -> image_paths !! k ≫= open_rgb = None)).
  { clear Hfit Hrun Hq.
    destruct image_paths as [|p0 [|p1 [|p2 [|p3 [|]]]]]; try discriminate.
    cbn in Hcount |- *.
    assert (Hrest : forall k, (4 <= k)%nat ->
              [p0; p1; p2; p3] !! k ≫= open_rgb = None).
    { intros k Hk. do 4 (destruct k as [|k]; [lia|]). reflexivity. }
    destruct (open_rgb p0) as [d0|] eqn:E0; destruct (open_rgb p1) as [e1|] eqn:E1;
      destruct (open_rgb p2) as [e2|] eqn:E2; destruct (open_rgb p3) as [e3|] eqn:E3;
      cbn in Hcount |- *; try discriminate.
    - exists 0%nat, 1%nat, d0, e1. repeat split; cbn; try lia; try assumption.
      intros k H1 H2. destruct (le_lt_dec 4 k) as [G|G]; [apply Hrest, G|].
      destruct k as [|[|[|[|k]]]]; cbn; try congruence; lia.
    - exists 0%nat, 2%nat, d0, e2. repeat split; cbn; try lia; try assumption.
      intros k H1 H2. destruct (le_lt_dec 4 k) as [G|G]; [apply Hrest, G|].
      destruct k as [|[|[|[|k]]]]; cbn; try congruence; lia.
    - exists 0%nat, 3%nat, d0, e3. repeat split; cbn; try lia; try assumption.
      intros k H1 H2. destruct (le_lt_dec 4 k) as [G|G]; [apply Hrest, G|].
      destruct k as [|[|[|[|k]]]]; cbn; try congruence; lia.
    - exists 1%nat, 2%nat, e1, e2. repeat split; cbn; try lia; try assumption.
      intros k H1 H2. destruct (le_lt_dec 4 k) as [G|G]; [apply Hrest, G|].
      destruct k as [|[|[|[|k]]]]; cbn; try congruence; lia.
    - exists 1%nat, 3%nat, e1, e3. repeat split; cbn; try lia; try assumption.
      intros k H1 H2. destruct (le_lt_dec 4 k) as [G|G]; [apply Hrest, G|].
      destruct k as [|[|[|[|k]]]]; cbn; try congruence; lia.
    - exists 2%nat, 3%nat, e2, e3. repeat split; cbn; try lia; try assumption.
      intros k H1 H2. destruct (le_lt_dec 4 k) as [G|G]; [apply Hrest, G|].
      destruct k as [|[|[|[|k]]]]; cbn; try congruence; lia. }
  destruct Hpick as (i1 & i2 & d1 & d2 & Hi & H1 & H2 & Hboth & Hothers).
  exists sheet, i1, i2, d1, d2.
  split; [exact Hrun|]. split; [exact Hw|]. split; [exact Hh|].
  split; [exact Hi|]. split; [exact H1|]. split; [exact H2|].
  split; [exact Hothers|]. split.
  - rewrite Hboth in Hfit. apply Forall_cons in Hfit as [F1 F2].
    apply Forall_cons in F2 as [F2 _].
    intros d [-> | ->]; apply fit_returns_iff; assumption.
  - intros k qx qy Hpos. specialize (Hq k qx qy Hpos). split; [|split].
    + intros ->. rewrite H1 in Hq. exact Hq.
    + intros ->. rewrite H2 in Hq. exact Hq.
    + intros N1 N2. rewrite (Hothers k N1 N2) in Hq. exact Hq.
Qed.

End GridFacts.

(* ===================================================================== *)
(** * The optimized compositor and the Layout Selector *)
(* ===================================================================== *)

Section OptimizedFacts.
Context {lib : Imaging} {disk : Disk}.

Lemma load_images_none (image_paths : list string) :
  Forall (fun p => open_rgb p = None) image_paths ->
  load_images image_paths = [].
Proof.
  induction 1 as [|p rest Hp _ IH]; [reflexivity|].
  cbn [load_images]. rewrite Hp. exact IH.
Qed.

(** The loaded images are the decodable files, in order, enhanced. *)
Lemma load_images_decoded (image_paths : list string) :
  map fst (load_images image_paths) =
  map (fun d => apply_enhancements (dec_image d) ENHANCEMENT_FACTOR)
      (omap open_rgb image_paths).
Proof.
  induction image_paths as [|p rest IH]; [reflexivity|].
  cbn [load_images omap list_omap]. destruct (open_rgb p); cbn [map fst]; congruence.
Qed.

Lemma load_images_one (image_paths : list string) (d : decoded) :
  omap open_rgb image_paths = [d] ->
  exists p, load_images image_paths =
            [ (apply_enhancements (dec_image d) ENHANCEMENT_FACTOR, p) ].
Proof.
  intros H. pose proof (load_images_decoded image_paths) as E. rewrite H in E.
  destruct (load_images image_paths) as [|[img p] [|? ?]]; try discriminate.
  cbn in E. injection E as ->. exists p. reflexivity.
Qed.

Lemma load_images_two (image_paths : list string) (d1 d2 : decoded) :
  omap open_rgb image_paths = [d1; d2] ->
  exists p1 p2, load_images image_paths =
    [ (apply_enhancements (dec_image d1) ENHANCEMENT_FACTOR, p1);
      (apply_enhancements (dec_image d2) ENHANCEMENT_FACTOR, p2) ].
Proof.
  intros H. pose proof (load_images_decoded image_paths) as E. rewrite H in E.
  destruct (load_images image_paths) as [|[a p1] [|[b p2] [|? ?]]]; try discriminate.
  cbn in E. injection E as -> ->. exists p1, p2. reflexivity.
Qed.

Lemma create_1x2_sheet_none (image_paths : list string) (output_path : string)
      (fs : gmap string sheet_file) :
  omap open_rgb (take 2 image_paths) = [] ->
  create_1x2_sheet image_paths output_path fs = (false, fs).
Proof.
  intros H. pose proof (load_images_decoded (take 2 image_paths)) as E.
  rewrite H in E. unfold create_1x2_sheet.
  destruct (load_images (take 2 image_paths)); [reflexivity | discriminate].
Qed.

(** The optimized compositor on a chunk with one decodable file. *)
Lemma create_1x2_sheet_one (image_paths : list string) (output_path : string)
      (fs : gmap string sheet_file) (d : decoded) :
  omap open_rgb (take 2 image_paths) = [d] ->
  create_1x2_sheet image_paths output_path fs
  = if fit_returns d 1800 1200
    then (true,
          save (paste (new_image 1800 1200 white)
                  (fit_image_to_quad
                     (apply_enhancements (dec_image d) ENHANCEMENT_FACTOR)
                     1800 1200)
                  ((1800 - width (fit_image_to_quad
                                    (apply_enhancements (dec_image d)
                                                        ENHANCEMENT_FACTOR)
                                    1800 1200)) / 2)
                  ((1200 - height (fit_image_to_quad
                                     (apply_enhancements (dec_image d)
                                                         ENHANCEMENT_FACTOR)
                                     1800 1200)) / 2))
               output_path fs)
    else (false, fs).
Proof.
  intros Hone. destruct (load_images_one _ d Hone) as [p Hload].
  assert (Hrun : create_1x2_sheet image_paths output_path fs
                 = match fit_image_to_quad_checked
                           (apply_enhancements (dec_image d) ENHANCEMENT_FACTOR)
                           1800 1200 with
                   | Some r =>
                     (true,
                      save (paste (new_image 1800 1200 white) r
                                  ((1800 - width r) / 2) ((1200 - height r) / 2))
                           output_path fs)
                   | None => (false, fs)
                   end).
  { unfold create_1x2_sheet. rewrite Hload. cbv beta iota zeta.
    change OUTPUT_WIDTH_PX with 1800. change OUTPUT_HEIGHT_PX with 1200.
    reflexivity. }
  rewrite fit_checked_of_returns in Hrun. rewrite Hrun.
  destruct (fit_returns d 1800 1200); reflexivity.
Qed.

(** C5.  When none of the (up to two) files decodes, [create_1x2_sheet]
    returns [False] and writes nothing: the files are as they were, the
    output path included. *)
Theorem create_1x2_sheet_no_images (image_paths : list string)
        (output_path : string) (fs : gmap string sheet_file) :
  Forall (fun p => open_rgb p = None) (take 2 image_paths) ->
  create_1x2_sheet image_paths output_path fs = (false, fs) /\
  (create_1x2_sheet image_paths output_path fs).2 !! output_path = fs !! output_path.
Proof.
  intros Hnone. unfold create_1x2_sheet.
  rewrite (load_images_none _ Hnone). split; reflexivity.
Qed.

(** C6 (as amended).  When exactly one of the (up to two) files decodes, no
    layout is computed and the image is fitted to the whole canvas,
    1800 x 1200.  When the fitter returns (no side of the fitted size
    truncates to 0), the image, at least one pixel wide and high, is pasted
    centered on the sheet and the sheet is saved; when it raises, the
    compositor returns [False] and writes nothing. *)
Theorem create_1x2_sheet_single_image (image_paths : list string)
        (output_path : string) (fs : gmap string sheet_file) (d : decoded) :
  omap open_rgb (take 2 image_paths) = [d] ->
  let img := apply_enhancements (dec_image d) ENHANCEMENT_FACTOR in
  let img_resized := fit_image_to_quad img 1800 1200 in
  let sheet :=
    paste (new_image 1800 1200 white) img_resized
          ((1800 - width img_resized) / 2) ((1200 - height img_resized) / 2) in
  (fit_returns d 1800 1200 = true ->
   1 <= width img_resized /\ 1 <= height img_resized /\
   create_1x2_sheet image_paths output_path fs = (true, save sheet output_path fs) /\
   save sheet output_path fs !! output_path = Some (SheetFile sheet (300, 300) 95) /\
   width sheet = 1800 /\ height sheet = 1200 /\
   region_holds sheet img_resized 0 0 1800 1200) /\
  (fit_returns d 1800 1200 = false ->
   create_1x2_sheet image_paths output_path fs = (false, fs)).
Proof.
  intros Hone. cbv zeta.
  pose proof (create_1x2_sheet_one image_paths output_path fs d Hone) as Hrun.
  split.
  - intros Hfit. rewrite Hfit in Hrun. apply fit_returns_iff in Hfit as [Fw Fh].
    split; [exact Fw|]. split; [exact Fh|]. split; [exact Hrun|].
    split; [apply lookup_insert_eq|].
    split; [reflexivity|]. split; [reflexivity|].
    apply (region_holds_of_paste (new_image 1800 1200 white));
      [lia | lia | reflexivity |].
    intros x y _. rewrite paste_centered_eq, !Z.add_0_l. reflexivity.
  - intros Hfit. rewrite Hfit in Hrun. exact Hrun.
Qed.

Lemma trunc_comp (x y : float) : (x == y)%Q -> trunc x = trunc y.
Proof.
  intros E. destruct (Qlt_le_dec x 0) as [N | P].
  - assert (Hx : trunc x = - Qfloor (- x)).
    { destruct x as [n dx]. unfold Qlt in N. cbn in N. unfold trunc, Qfloor.
      cbn [Qnum Qden Qopp]. rewrite <- (Z.opp_involutive n) at 1.
      rewrite Z.quot_opp_l by lia. rewrite Z.quot_div_nonneg by lia. reflexivity. }
    assert (Hy : trunc y = - Qfloor (- y)).
    { assert (N' : (y < 0)%Q) by (rewrite <- E; exact N).
      destruct y as [n dy]. unfold Qlt in N'. cbn in N'. unfold trunc, Qfloor.
      cbn [Qnum Qden Qopp]. rewrite <- (Z.opp_involutive n) at 1.
      rewrite Z.quot_opp_l by lia. rewrite Z.quot_div_nonneg by lia. reflexivity. }
    rewrite Hx, Hy. f_equal. apply Qfloor_comp. rewrite E. reflexivity.
  - rewrite !trunc_floor; [apply Qfloor_comp, E | rewrite <- E; exact P | exact P].
Qed.

Lemma paste_processed_two (d1 d2 : decoded) (pa pb : string)
      (quad_width quad_height x0 y0 x1 y1 : Z) (sheet : image) :
  paste_processed 0
    [ (apply_enhancements (dec_image d1) ENHANCEMENT_FACTOR, pa);
      (apply_enhancements (dec_image d2) ENHANCEMENT_FACTOR, pb) ]
    quad_width quad_height [ (x0, y0); (x1, y1) ] sheet =
  if fit_returns d1 quad_width quad_height && fit_returns d2 quad_width quad_height
  then
    Some (paste_centered
            (paste_centered sheet
               (fit_image_to_quad
                  (apply_enhancements (dec_image d1) ENHANCEMENT_FACTOR)
                  quad_width quad_height)
               x0 y0 quad_width quad_height)
            (fit_image_to_quad
               (apply_enhancements (dec_image d2) ENHANCEMENT_FACTOR)
               quad_width quad_height)
            x1 y1 quad_width quad_height)
  else None.
Proof.
  cbn [paste_processed Nat.leb lookup list_lookup].
  rewrite !fit_checked_of_returns.
  destruct (fit_returns d1 quad_width quad_height); [|reflexivity].
  cbn [andb paste_processed Nat.leb lookup list_lookup].
  rewrite ?fit_checked_of_returns.
  destruct (fit_returns d2 quad_width quad_height); reflexivity.
Qed.

(** Two fitted photos pasted into two regions that do not meet: each region
    holds its photo. *)
Lemma two_regions (d1 d2 : decoded) (qw qh x1 y1 x2 y2 : Z) (blank : image) :
  0 < qw < 2 ^ 52 -> 0 < qh < 2 ^ 52 ->
  (forall x y, pixels blank x y = white) ->
  (forall x y, in_box x1 y1 qw qh x y = true -> in_box x2 y2 qw qh x y = false) ->
  let r1 := fit_image_to_quad
              (apply_enhancements (dec_image d1) ENHANCEMENT_FACTOR) qw qh in
  let r2 := fit_image_to_quad
              (apply_enhancements (dec_image d2) ENHANCEMENT_FACTOR) qw qh in
  let sheet := paste_centered (paste_centered blank r1 x1 y1 qw qh) r2 x2 y2 qw qh in
  region_holds sheet r1 x1 y1 qw qh /\ region_holds sheet r2 x2 y2 qw qh.
Proof.
  intros Hqw Hqh Hblank Hdisj. cbv zeta.
  destruct (fitted_photo_within d1 qw qh Hqw Hqh) as [B1w B1h].
  destruct (fitted_photo_within d2 qw qh Hqw Hqh) as [B2w B2h].
  split.
  - apply (region_holds_of_paste blank); [exact Hqw | exact Hqh | exact Hblank |].
    intros x y Hin. apply paste_centered_outside; [lia | lia |].
    apply Hdisj. exact Hin.
  - apply (region_holds_of_paste blank); [exact Hqw | exact Hqh | exact Hblank |].
    intros x y Hin. apply paste_centered_congr.
    apply paste_centered_outside; [lia | lia |].
    destruct (in_box x1 y1 qw qh x y) eqn:E; [|reflexivity].
    rewrite (Hdisj x y E) in Hin. discriminate.
Qed.

(** The optimized compositor on two decodable files, once the layout is
    known. *)
Lemma create_1x2_sheet_pair (image_paths : list string) (output_path : string)
      (fs : gmap string sheet_file) (d1 d2 : decoded)
      (name : string) (qw qh x2 y2 : Z) :
  omap open_rgb (take 2 image_paths) = [d1; d2] ->
  choose_layout (load_images (take 2 image_paths))
  = (name, qw, qh, [ (0, 0); (x2, y2) ]) ->
  create_1x2_sheet image_paths output_path fs
  = if fit_returns d1 qw qh && fit_returns d2 qw qh
    then (true,
          save (paste_centered
                  (paste_centered (new_image OUTPUT_WIDTH_PX OUTPUT_HEIGHT_PX white)
                     (fit_image_to_quad
                        (apply_enhancements (dec_image d1) ENHANCEMENT_FACTOR)
                        qw qh)
                     0 0 qw qh)
                  (fit_image_to_quad
                     (apply_enhancements (dec_image d2) ENHANCEMENT_FACTOR) qw qh)
                  x2 y2 qw qh)
               output_path fs)
    else (false, fs).
Proof.
  intros Htwo Hchoose.
  destruct (load_images_two _ d1 d2 Htwo) as (p1 & p2 & Hload).
  unfold create_1x2_sheet. rewrite Hload in Hchoose |- *.
  cbv beta iota zeta. rewrite Hchoose. cbv beta iota zeta.
  rewrite paste_processed_two.
  destruct (fit_returns d1 qw qh && fit_returns d2 qw qh); reflexivity.
Qed.

(** The sheet of two decodable files, in the regions of the chosen layout. *)
Lemma create_1x2_sheet_pair_outcome (image_paths : list string)
      (output_path : string) (fs : gmap string sheet_file) (d1 d2 : decoded)
      (name : string) (qw qh x2 y2 : Z) :
  omap open_rgb (take 2 image_paths) = [d1; d2] ->
  choose_layout (load_images (take 2 image_paths))
  = (name, qw, qh, [ (0, 0); (x2, y2) ]) ->
  0 < qw < 2 ^ 52 -> 0 < qh < 2 ^ 52 ->
  (forall x y, in_box 0 0 qw qh x y = true -> in_box x2 y2 qw qh x y = false) ->
  (fit_returns d1 qw qh && fit_returns d2 qw qh = true ->
   exists sheet,
     create_1x2_sheet image_paths output_path fs = (true, save sheet output_path fs) /\
     width sheet = 1800 /\ height sheet = 1200 /\
     (forall d, d = d1 \/ d = d2 ->
        1 <= width (fit_image_to_quad
                      (apply_enhancements (dec_image d) ENHANCEMENT_FACTOR) qw qh) /\
        1 <= height (fit_image_to_quad
                       (apply_enhancements (dec_image d) ENHANCEMENT_FACTOR) qw qh)) /\
     region_holds sheet
       (fit_image_to_quad
          (apply_enhancements (dec_image d1) ENHANCEMENT_FACTOR) qw qh)
       0 0 qw qh /\
     region_holds sheet
       (fit_image_to_quad
          (apply_enhancements (dec_image d2) ENHANCEMENT_FACTOR) qw qh)
       x2 y2 qw qh) /\
  (fit_returns d1 qw qh && fit_returns d2 qw qh = false ->
   create_1x2_sheet image_paths output_path fs = (false, fs)).
Proof.
  intros Htwo Hchoose Hqw Hqh Hdisj.
  pose proof (create_1x2_sheet_pair image_paths output_path fs d1 d2 _ _ _ _ _
                Htwo Hchoose) as Hrun.
  split.
  - intros Hfit. rewrite Hfit in Hrun.
    apply andb_true_iff in Hfit as [F1 F2].
    eexists. split; [exact Hrun|]. split; [reflexivity|]. split; [reflexivity|].
    split; [intros d [-> | ->]; apply fit_returns_iff; assumption|].
    apply (two_regions d1 d2 qw qh 0 0 x2 y2
                       (new_image OUTPUT_WIDTH_PX OUTPUT_HEIGHT_PX white));
      [exact Hqw | exact Hqh | reflexivity | exact Hdisj].
  - intros Hfit. rewrite Hfit in Hrun. exact Hrun.
Qed.

(** The Layout Selector takes "2x1" only when its total is strictly
    larger. *)
Lemma choose_layout_eq (processed_images : list (image * string)) :
  choose_layout processed_images =
  if total_area (_calculate_layout_area processed_images "1x2")
     <? total_area (_calculate_layout_area processed_images "2x1")
  then ("2x1"%string, 900, 1200, [ (0, 0); (900, 0) ])
  else ("1x2"%string, 1800, 600, [ (0, 0); (0, 600) ]).
Proof. reflexivity. Qed.


End OptimizedFacts.

(* ===================================================================== *)
(** * The Batch Scheduler *)
(* ===================================================================== *)

Section SchedulerFacts.
Context {lib : Imaging} {disk : Disk}.

(** Dividing an int below 2^53 by 2 or by 4 is exact in binary64. *)
Lemma truediv_pow2_exact (n k : Z) :
  0 <= n < 2 ^ 53 -> 0 <= k <= 1074 ->
  (truediv n (2 ^ k) == inject_Z n / inject_Z (2 ^ k))%Q.
Proof.
  intros Hn Hk. unfold truediv.
  assert (Hp : (0 < inject_Z (2 ^ k))%Q).
  { rewrite <- pow2_Z by lia. apply pow2_pos. }
  destruct (Z.eq_dec n 0) as [-> | Hnz].
  - rewrite (rnd_zero (inject_Z 0 / inject_Z (2 ^ k))).
    + change (inject_Z 0) with 0%Q. field. lra.
    + change (inject_Z 0) with 0%Q. field. lra.
  - assert (E : (inject_Z n / inject_Z (2 ^ k) == inject_Z n * pow2 (- k))%Q).
    { unfold pow2. rewrite Qpower_opp. fold (pow2 k). rewrite pow2_Z by lia.
      reflexivity. }
    rewrite (rnd_comp _ _ E), E.
    apply is_float_dyadic; unfold prec, emin; lia.
Qed.

Lemma ceil_of_quotient (x : float) (n c : Z) :
  0 < c -> (x == inject_Z n / inject_Z c)%Q -> ceil x = (n + c - 1) / c.
Proof.
  intros Hc E. unfold ceil, Qceiling.
  assert (E' : (- x == inject_Z (- n) / inject_Z c)%Q).
  { rewrite E, inject_Z_opp. assert (~ inject_Z c == 0)%Q by zq. field. assumption. }
  rewrite (Qfloor_comp _ _ E'), <- Zdiv_Qdiv.
  apply Z.div_unique with (r := c - 1 - (- n) mod c).
  - pose proof (Z.mod_pos_bound (- n) c Hc). lia.
  - pose proof (Z.div_mod (- n) c ltac:(lia)). lia.
Qed.

(** For the two chunk sizes of the program and a list shorter than 2^53,
    [math.ceil(len / chunk_size)] is the exact ceiling. *)
Lemma num_sheets_exact (n chunk_size : Z) :
  chunk_size = 2 \/ chunk_size = 4 -> 0 <= n < 2 ^ 53 ->
  num_sheets n chunk_size = (n + chunk_size - 1) / chunk_size.
Proof.
  intros [-> | ->] Hn; unfold num_sheets.
  - apply ceil_of_quotient; [lia|]. apply (truediv_pow2_exact n 1); lia.
  - apply ceil_of_quotient; [lia|]. apply (truediv_pow2_exact n 2); lia.
Qed.

Lemma slice_eq {A} (l : list A) (start chunk_size : Z) :
  0 <= start -> 0 <= chunk_size ->
  slice l start (start + chunk_size)
  = take (Z.to_nat chunk_size) (drop (Z.to_nat start) l).
Proof.
  intros. unfold slice. f_equal. f_equal. lia.
Qed.

(** The slices of the first [k] indices make up the first [k * chunk_size]
    elements, in order. *)
Lemma concat_slices {A} (l : list A) (chunk_size : Z) (k : nat) :
  0 <= chunk_size ->
  concat ((fun i => slice l (i * chunk_size) (i * chunk_size + chunk_size))
            <$> seqZ 0 (Z.of_nat k))
  = take (k * Z.to_nat chunk_size) l.
Proof.
  intros Hc. induction k as [|k IH]; [reflexivity|].
  replace (Z.of_nat (S k)) with (Z.of_nat k + 1) by lia.
  rewrite seqZ_app by lia. rewrite fmap_app, concat_app, IH.
  cbn [seqZ]. rewrite (seqZ_cons _ 1) by lia. rewrite seqZ_nil by lia.
  cbn [fmap list_fmap concat]. rewrite app_nil_r.
  rewrite slice_eq by lia.
  replace (Z.to_nat ((0 + Z.of_nat k) * chunk_size))
    with (k * Z.to_nat chunk_size)%nat by lia.
  rewrite take_take_drop. f_equal. lia.
Qed.

(** The loop of the scheduler is one compositor call per chunk. *)
Lemma sheet_loop_chunks
      (create : list string -> string -> gmap string sheet_file
                -> bool * gmap string sheet_file)
      (prefix output_folder : string) (chunk_size : Z) (files : list string)
      (k : nat) :
  forall (m sheets : Z) (fs : gmap string sheet_file),
    sheet_loop create prefix chunk_size files output_folder
               (seqZ m (Z.of_nat k)) sheets fs
    = compose_chunks create prefix output_folder (m + 1)
        ((fun i => slice files (i * chunk_size) (i * chunk_size + chunk_size))
           <$> seqZ m (Z.of_nat k))
        sheets fs.
Proof.
  induction k as [|k IH]; intros m sheets fs; [reflexivity|].
  rewrite seqZ_cons by lia.
  replace (Z.pred (Z.of_nat (S k))) with (Z.of_nat k) by lia.
  cbn [sheet_loop fmap list_fmap compose_chunks].
  destruct (create _ _ fs) as [ok fs']. rewrite IH.
  replace (Z.succ m + 1) with (m + 1 + 1) by lia. reflexivity.
Qed.

Lemma process_pass_chunks
      (create : list string -> string -> gmap string sheet_file
                -> bool * gmap string sheet_file)
      (prefix folder output_folder : string) (chunk_size : Z)
      (files : list string) (fs : gmap string sheet_file) :
  get_image_files folder = Some files ->
  num_sheets 0 chunk_size = 0 ->
  process_pass create prefix chunk_size folder output_folder fs
  = compose_chunks create prefix output_folder 1 (chunks chunk_size files) 0 fs.
Proof.
  intros Hfiles Hzero. unfold process_pass, chunks. rewrite Hfiles.
  destruct files as [|f files'].
  - change (Z.of_nat (length (@nil string))) with 0. rewrite Hzero. reflexivity.
  - set (n := num_sheets _ _).
    destruct (Z.le_gt_cases n 0) as [Hn | Hn].
    + rewrite seqZ_nil by exact Hn. reflexivity.
    + rewrite <- (Z2Nat.id n) by lia. apply (sheet_loop_chunks _ _ _ _ _ _ 0).
Qed.

(** C8.  For the chunk sizes of the two passes (2 and 4) and a file list of
    length [n] (below 2^53, where the float division of the chunk count is
    exact), the scheduler makes ceil(n / chunk_size) chunks; chunk [i] is
    the slice from [i * chunk_size] to [(i + 1) * chunk_size]; together, in
    order, they are the file list; each pass calls its compositor once per
    chunk, in that order.  Five files in chunks of 4 give sizes 4 and 1; no
    file gives no chunk and the count 0. *)
Theorem scheduler_chunks (chunk_size : Z) (files : list string) :
  chunk_size = 2 \/ chunk_size = 4 ->
  Z.of_nat (length files) < 2 ^ 53 ->
  let n := Z.of_nat (length files) in
  num_sheets n chunk_size = (n + chunk_size - 1) / chunk_size /\
  length (chunks chunk_size files) = Z.to_nat ((n + chunk_size - 1) / chunk_size) /\
  (forall i : nat,
      (i < length (chunks chunk_size files))%nat ->
      chunks chunk_size files !! i
      = Some (slice files (Z.of_nat i * chunk_size)
                    ((Z.of_nat i + 1) * chunk_size))) /\
  concat (chunks chunk_size files) = files /\
  (forall create prefix folder output_folder fs,
      get_image_files folder = Some files ->
      process_pass create prefix chunk_size folder output_folder fs
      = compose_chunks create prefix output_folder 1
                       (chunks chunk_size files) 0 fs) /\
  (forall big_folder small_folder output_folder fs big_files small_files,
      get_image_files big_folder = Some big_files ->
      get_image_files small_folder = Some small_files ->
      process_folders big_folder small_folder output_folder fs
      = let '(big_sheets, fs1) :=
            compose_chunks create_1x2_sheet "big_sheet_" output_folder 1
                           (chunks 2 big_files) 0 fs in
        let '(small_sheets, fs2) :=
            compose_chunks create_2x2_sheet "small_sheet_" output_folder 1
                           (chunks 4 small_files) 0 fs1 in
        ((big_sheets, small_sheets), fs2)) /\
  (length files = 5%nat -> chunk_size = 4 ->
   length <$> chunks chunk_size files = [4%nat; 1%nat]) /\
  (length files = 0%nat ->
   chunks chunk_size files = [] /\
   forall create prefix folder output_folder fs,
     get_image_files folder = Some files ->
     process_pass create prefix chunk_size folder output_folder fs = (0, fs)).
Proof.
  intros Hcs Hlen n.
  assert (Hn : 0 <= n < 2 ^ 53) by (subst n; lia).
  assert (Hnum : num_sheets n chunk_size = (n + chunk_size - 1) / chunk_size)
    by (apply num_sheets_exact; assumption).
  assert (Hzero : forall c, c = 2 \/ c = 4 -> num_sheets 0 c = 0).
  { intros c Hc. rewrite num_sheets_exact by (auto; lia).
    destruct Hc as [-> | ->]; reflexivity. }
  assert (Hcpos : 0 < chunk_size) by (destruct Hcs; lia).
  assert (Hk : 0 <= (n + chunk_size - 1) / chunk_size)
    by (apply Z.div_pos; lia).
  assert (Hcover : n <= (n + chunk_size - 1) / chunk_size * chunk_size).
  { pose proof (Z.div_mod (n + chunk_size - 1) chunk_size ltac:(lia)).
    pose proof (Z.mod_pos_bound (n + chunk_size - 1) chunk_size Hcpos). lia. }
  assert (Hlenc : length (chunks chunk_size files)
                  = Z.to_nat ((n + chunk_size - 1) / chunk_size)).
  { unfold chunks. fold n. rewrite length_fmap, length_seqZ, Hnum. reflexivity. }
  split; [exact Hnum|]. split; [exact Hlenc|]. split; [|split; [|split; [|split; [|split]]]].
  - intros i Hi. unfold chunks. fold n. rewrite list_lookup_fmap.
    assert (Hs : seqZ 0 (num_sheets n chunk_size) !! i = Some (Z.of_nat i)).
    { apply lookup_seqZ. rewrite Hnum. lia. }
    rewrite Hs. cbn [fmap option_fmap option_map]. f_equal. f_equal. lia.
  - unfold chunks. fold n. rewrite Hnum.
    rewrite <- (Z2Nat.id ((n + chunk_size - 1) / chunk_size)) at 1 by exact Hk.
    rewrite concat_slices by lia. apply take_ge. subst n. nia.
  - intros create prefix folder output_folder fs Hfiles.
    apply process_pass_chunks; auto.
  - intros big_folder small_folder output_folder fs big_files small_files Hb Hs.
    unfold process_folders.
    rewrite (process_pass_chunks _ _ _ _ 2 big_files fs Hb) by (apply Hzero; auto).
    destruct (compose_chunks create_1x2_sheet _ _ _ _ _ fs) as [big_sheets fs1].
    rewrite (process_pass_chunks _ _ _ _ 4 small_files fs1 Hs) by (apply Hzero; auto).
    reflexivity.
  - intros H5 ->. destruct files as [|a [|b [|c [|d [|e [|]]]]]]; try discriminate.
    subst n. unfold chunks. rewrite Hnum. reflexivity.
  - intros H0. destruct files; [|discriminate]. split.
    + subst n. unfold chunks. rewrite Hnum. destruct Hcs as [-> | ->]; reflexivity.
    + intros create prefix folder output_folder fs Hfiles.
      unfold process_pass. rewrite Hfiles. reflexivity.
Qed.

End SchedulerFacts.

(* ===================================================================== *)
(** * More on the Quadrant Fitter *)
(* ===================================================================== *)

Section FitterMore.
Context {lib : Imaging}.
Import Binary64Order.

Lemma fit_reaches_border (img : image) (quad_width quad_height : Z) :
  0 < width img < 2 ^ 53 -> 0 < height img < 2 ^ 53 ->
  0 < quad_width < 2 ^ 52 -> 0 < quad_height < 2 ^ 52 ->
  quad_width - 1 <= width (fit_image_to_quad img quad_width quad_height) \/
  quad_height - 1 <= height (fit_image_to_quad img quad_width quad_height).
Proof.
  intros Hw Hh Hqw Hqh. rewrite fit_image_to_quad_eq.
  destruct (leb _ _); cbn [width height resize].
  - unfold scale_normal, fit_scale.
    destruct (min_cases (truediv quad_width (width img))
                        (truediv quad_height (height img))) as [-> | ->];
      [left | right]; apply scaled_side_reaches; assumption.
  - unfold scale_rotated, fit_scale.
    destruct (min_cases (truediv quad_width (height img))
                        (truediv quad_height (width img))) as [-> | ->];
      [left | right]; apply scaled_side_reaches; assumption.
Qed.

(** X1.  The fitted image fits the quadrant and reaches its border in one
    direction, up to the pixel lost by truncation: the scale is the largest
    that fits, for a photo smaller than the quadrant as for a larger one. *)
Theorem fit_touches_region (img : image) (quad_width quad_height : Z) :
  0 < width img < 2 ^ 53 -> 0 < height img < 2 ^ 53 ->
  0 < quad_width < 2 ^ 52 -> 0 < quad_height < 2 ^ 52 ->
  let img_resized := fit_image_to_quad img quad_width quad_height in
  width img_resized <= quad_width /\ height img_resized <= quad_height /\
  (quad_width - 1 <= width img_resized \/ quad_height - 1 <= height img_resized).
Proof.
  intros Hw Hh Hqw Hqh. cbv zeta.
  destruct (fit_within_quad img quad_width quad_height Hw Hh Hqw Hqh) as [Bw Bh].
  split; [apply Bw|]. split; [apply Bh|].
  apply fit_reaches_border; assumption.
Qed.

Lemma min_comm_rnd (a b : Q) : min (rnd a) (rnd b) = min (rnd b) (rnd a).
Proof.
  unfold min.
  destruct (ltb (rnd b) (rnd a)) eqn:E1; destruct (ltb (rnd a) (rnd b)) eqn:E2;
    try reflexivity.
  - apply ltb_lt in E1. apply ltb_lt in E2. exfalso. apply (Qlt_irrefl (rnd a)).
    eapply Qlt_trans; eassumption.
  - apply ltb_ge in E1. apply ltb_ge in E2. apply rnd_canonical.
    apply Qle_antisym; assumption.
Qed.

Lemma leb_refl (x : float) : leb x x = true.
Proof. apply Qle_bool_iff, Qle_refl. Qed.

(** X2.  A square image is never rotated, and in a square quadrant no image
    is: the two areas are equal and ties keep the orientation. *)
Theorem square_never_rotated (img : image) (quad_width quad_height : Z) :
  0 < width img < 2 ^ 53 -> 0 < height img < 2 ^ 53 ->
  0 < quad_width < 2 ^ 52 -> 0 < quad_height < 2 ^ 52 ->
  width img = height img \/ quad_width = quad_height ->
  area_normal img quad_width quad_height = area_rotated img quad_width quad_height /\
  fit_image_to_quad img quad_width quad_height =
  resize img
    (trunc (mul (of_int (width img)) (scale_normal img quad_width quad_height)))
    (trunc (mul (of_int (height img)) (scale_normal img quad_width quad_height))).
Proof.
  intros _ _ _ _ Hsq.
  assert (E : area_normal img quad_width quad_height
              = area_rotated img quad_width quad_height).
  { unfold area_normal, area_rotated, covered_area, scale_normal, scale_rotated,
      fit_scale.
    destruct Hsq as [<- | <-].
    - reflexivity.
    - assert (Em : min (truediv quad_width (height img))
                       (truediv quad_width (width img))
                   = min (truediv quad_width (width img))
                         (truediv quad_width (height img)))
        by (unfold truediv; apply min_comm_rnd).
      rewrite Em. apply mul_comm. }
  split; [exact E|].
  rewrite fit_image_to_quad_eq, E, leb_refl. reflexivity.
Qed.

Lemma area_of_rotated_input (img : image) (quad_width quad_height : Z) :
  area_normal (rotate90 img) quad_width quad_height
  = area_rotated img quad_width quad_height /\
  area_rotated (rotate90 img) quad_width quad_height
  = area_normal img quad_width quad_height /\
  scale_normal (rotate90 img) quad_width quad_height
  = scale_rotated img quad_width quad_height /\
  scale_rotated (rotate90 img) quad_width quad_height
  = scale_normal img quad_width quad_height.
Proof.
  unfold area_normal, area_rotated, covered_area, scale_normal, scale_rotated,
    fit_scale. cbn [width height rotate90]. repeat split; reflexivity.
Qed.

(** X3.  Unless the two orientations cover the same area, it makes no
    difference to the fitted size whether the photo comes in upright or
    turned by a quarter. *)
Theorem fit_size_of_rotated_input (img : image) (quad_width quad_height : Z) :
  0 < width img < 2 ^ 53 -> 0 < height img < 2 ^ 53 ->
  0 < quad_width < 2 ^ 52 -> 0 < quad_height < 2 ^ 52 ->
  ~ (area_normal img quad_width quad_height
     == area_rotated img quad_width quad_height)%Q ->
  width (fit_image_to_quad (rotate90 img) quad_width quad_height)
  = width (fit_image_to_quad img quad_width quad_height) /\
  height (fit_image_to_quad (rotate90 img) quad_width quad_height)
  = height (fit_image_to_quad img quad_width quad_height).
Proof.
  intros _ _ _ _ Hne.
  destruct (area_of_rotated_input img quad_width quad_height)
    as (E1 & E2 & E3 & E4).
  rewrite (fit_image_to_quad_eq (rotate90 img)), (fit_image_to_quad_eq img).
  rewrite E1, E2, E3, E4.
  set (an := area_normal img quad_width quad_height) in *.
  set (ar := area_rotated img quad_width quad_height) in *.
  unfold leb.
  destruct (Qle_bool ar an) eqn:L1; destruct (Qle_bool an ar) eqn:L2;
    cbn [width height resize rotate90]; try (split; reflexivity).
  - apply Qle_bool_iff in L1. apply Qle_bool_iff in L2.
    exfalso. apply Hne. apply Qle_antisym; assumption.
  - exfalso.
    destruct (Qlt_le_dec an ar) as [L | L].
    + apply Qlt_le_weak, Qle_bool_iff in L. congruence.
    + apply Qle_bool_iff in L. congruence.
Qed.

Lemma truediv_self (q : Z) : 0 < q -> truediv q q = 1%Q.
Proof.
  intros Hq. unfold truediv.
  assert (E : (inject_Z q / inject_Z q == 1)%Q).
  { assert (~ inject_Z q == 0)%Q by zq. field. assumption. }
  rewrite (rnd_comp _ _ E). vm_compute. reflexivity.
Qed.

Lemma truediv_le_one (a b : Z) : 0 < a <= b -> (truediv a b <= 1)%Q.
Proof.
  intros H. unfold truediv.
  assert (Hb : (0 < inject_Z b)%Q) by zq.
  assert (E1 : rnd 1 = 1%Q) by (vm_compute; reflexivity).
  apply Qle_trans with (rnd 1); [|rewrite E1; apply Qle_refl].
  apply rnd_mono.
  - apply Qle_shift_div_l; [exact Hb | zq].
  - apply Qle_shift_div_r; [exact Hb | zq].
Qed.

Lemma scaled_le_side (b : Z) (s : float) :
  0 < b < 2 ^ 53 -> (0 <= s <= 1)%Q ->
  (0 <= mul (of_int b) s <= inject_Z b)%Q.
Proof.
  intros Hb [Hs0 Hs1].
  assert (Hbq : (0 < inject_Z b)%Q) by zq.
  pose proof (of_int_exact b Hb) as Eb.
  assert (H0 : (0 <= of_int b * s)%Q).
  { rewrite Eb. apply Qmult_le_0_compat; lra. }
  split; [apply rnd_nonneg, H0|].
  pose proof (is_float_Z b Hb) as Fb. unfold is_float in Fb.
  unfold mul. apply Qle_trans with (rnd (inject_Z b));
    [|rewrite Fb; apply Qle_refl].
  apply rnd_mono; [exact H0|].
  rewrite Eb. rewrite <- (Qmult_1_r (inject_Z b)) at 2.
  apply Qmult_le_l; assumption.
Qed.

(** X4.  An image that already has the quadrant's size is neither rotated
    nor scaled. *)
Theorem fit_same_size (img : image) :
  0 < width img < 2 ^ 53 -> 0 < height img < 2 ^ 53 ->
  fit_image_to_quad img (width img) (height img)
  = resize img (width img) (height img).
Proof.
  intros Hw Hh. rewrite fit_image_to_quad_eq.
  set (w := width img) in *. set (h := height img) in *.
  assert (Esn : scale_normal img w h = 1%Q).
  { unfold scale_normal, fit_scale. fold w h.
    rewrite !truediv_self by lia. reflexivity. }
  assert (Emul : forall b, 0 < b < 2 ^ 53 -> (mul (of_int b) 1 == inject_Z b)%Q).
  { intros b Hb. unfold mul.
    assert (E : (of_int b * 1 == inject_Z b)%Q) by (rewrite of_int_exact by exact Hb; ring).
    rewrite (rnd_comp _ _ E). apply is_float_Z. exact Hb. }
  assert (Etr : forall b, 0 < b < 2 ^ 53 -> trunc (mul (of_int b) 1%Q) = b).
  { intros b Hb. rewrite (trunc_comp _ _ (Emul b Hb)).
    unfold trunc, inject_Z. cbn [Qnum Qden]. apply Z.quot_1_r. }
  assert (Hsr : (0 <= scale_rotated img w h <= 1)%Q).
  { unfold scale_rotated, fit_scale. fold w h. split.
    - apply min_nonneg; apply truediv_pos; lia.
    - destruct (Z.le_gt_cases w h) as [L | L].
      + eapply Qle_trans; [apply min_le_l|]. apply truediv_le_one. lia.
      + eapply Qle_trans; [apply min_le_r|]. apply truediv_le_one. lia. }
  assert (Hle : (area_rotated img w h <= area_normal img w h)%Q).
  { unfold area_rotated, area_normal, covered_area. fold w h. rewrite Esn.
    destruct (scaled_le_side h (scale_rotated img w h) Hh Hsr) as [X0 X1].
    destruct (scaled_le_side w (scale_rotated img w h) Hw Hsr) as [Y0 Y1].
    set (X := mul (of_int h) (scale_rotated img w h)) in *.
    set (Y := mul (of_int w) (scale_rotated img w h)) in *. clearbody X Y.
    pose proof (Emul w Hw) as Ew. pose proof (Emul h Hh) as Eh.
    set (A := mul (of_int w) 1%Q) in *. set (B := mul (of_int h) 1%Q) in *.
    clearbody A B.
    change (rnd (X * Y) <= rnd (A * B))%Q.
    apply rnd_mono; [apply Qmult_le_0_compat; assumption|].
    rewrite Ew, Eh.
    assert (Hhq : (0 < inject_Z h)%Q) by zq.
    apply Qle_trans with (X * inject_Z w)%Q.
    - rewrite (Qmult_comm X Y), (Qmult_comm X (inject_Z w)).
      apply Qmult_le_compat_r; assumption.
    - rewrite (Qmult_comm (inject_Z w) (inject_Z h)).
      apply Qmult_le_compat_r; [exact X1 | zq]. }
  apply Qle_bool_iff in Hle. unfold leb. rewrite Hle, Esn.
  rewrite (Etr w Hw), (Etr h Hh). reflexivity.
Qed.

End FitterMore.

(* ===================================================================== *)
(** * More on the Sheet Compositors *)
(* ===================================================================== *)

Section CompositorMore.
Context {lib : Imaging} {disk : Disk}.

Lemma paste_quadrants_take (image_paths : list string) :
  forall (i : nat) (sheet : image),
    paste_quadrants i image_paths sheet
    = paste_quadrants i (take (4 - i) image_paths) sheet.
Proof.
  induction image_paths as [|p rest IH]; intros i sheet.
  - rewrite take_nil. reflexivity.
  - destruct (le_lt_dec 4 i) as [G | G].
    + replace (4 - i)%nat with 0%nat by lia. cbn [take].
      rewrite paste_quadrants_cons.
      replace (4 <=? i)%nat with true by (symmetry; apply Nat.leb_le; exact G).
      reflexivity.
    + replace (4 - i)%nat with (S (4 - S i)) by lia. cbn [take].
      rewrite !paste_quadrants_cons.
      destruct (4 <=? i)%nat; [reflexivity|].
      destruct (open_rgb p) as [d|]; [|apply IH].
      destruct (fit_returns d 900 600); [|reflexivity].
      destruct (positions_2x2 !! i) as [[qx qy]|]; [apply IH | reflexivity].
Qed.

Lemma forallb_Forall {A} (f : A -> bool) (l : list A) :
  forallb f l = true -> Forall (fun x => f x = true) l.
Proof.
  induction l as [|x l IH]; cbn [forallb]; [constructor|].
  intros H. apply andb_true_iff in H as [Hx Hl]. constructor; auto.
Qed.

Lemma forallb_Exists {A} (f : A -> bool) (l : list A) :
  forallb f l = false -> Exists (fun x => f x = false) l.
Proof.
  induction l as [|x l IH]; cbn [forallb]; [discriminate|].
  intros H. destruct (f x) eqn:E; [right; apply IH; exact H | left; exact E].
Qed.

(** The grid compositor draws its sheet from the chunk alone; it draws one
    exactly when the fitter returns for every file it decodes. *)
Lemma create_2x2_sheet_renders (image_paths : list string) :
  if grid_renders image_paths then
    exists sheet,
      (forall output_path fs,
          create_2x2_sheet image_paths output_path fs
          = (true, save sheet output_path fs)) /\
      width sheet = 1800 /\ height sheet = 1200 /\
      forall k qx qy,
        positions_2x2 !! k = Some (qx, qy) ->
        match image_paths !! k ≫= open_rgb with
        | Some d =>
          1 <= width (fit_image_to_quad
                        (apply_enhancements (dec_image d) ENHANCEMENT_FACTOR)
                        900 600) /\
          1 <= height (fit_image_to_quad
                         (apply_enhancements (dec_image d) ENHANCEMENT_FACTOR)
                         900 600) /\
          region_holds sheet
            (fit_image_to_quad
               (apply_enhancements (dec_image d) ENHANCEMENT_FACTOR) 900 600)
            qx qy 900 600
        | None => region_blank sheet qx qy 900 600
        end
  else
    forall output_path fs,
      create_2x2_sheet image_paths output_path fs = (false, fs).
Proof.
  assert (Hlen : (length (take 4 image_paths) <= 4)%nat)
    by (rewrite length_take; lia).
  assert (Htake : forall output_path fs,
             create_2x2_sheet image_paths output_path fs
             = create_2x2_sheet (take 4 image_paths) output_path fs).
  { intros output_path fs. unfold create_2x2_sheet.
    rewrite (paste_quadrants_take image_paths 0). reflexivity. }
  unfold grid_renders.
  destruct (forallb _ _) eqn:E.
  - apply forallb_Forall in E.
    destruct (create_2x2_sheet_spec (take 4 image_paths) "" ∅ Hlen E)
      as (sheet & Hrun & Hw & Hh & Hq).
    exists sheet. split; [|split; [exact Hw|split; [exact Hh|]]].
    + intros output_path fs. rewrite Htake. unfold create_2x2_sheet in Hrun |- *.
      destruct (paste_quadrants 0 (take 4 image_paths) _) as [s|]; [|discriminate].
      assert (Hs : save s "" ∅ = save sheet "" ∅) by congruence.
      apply (f_equal (fun m => m !! ""%string)) in Hs.
      unfold save in Hs. rewrite !lookup_insert_eq in Hs.
      replace s with sheet by congruence. reflexivity.
    + intros k qx qy Hpos. specialize (Hq k qx qy Hpos).
      assert (Hk : (k < 4)%nat).
      { apply lookup_lt_Some in Hpos. exact Hpos. }
      rewrite lookup_take_lt in Hq by exact Hk.
      destruct (image_paths !! k) as [p|] eqn:Ep; cbn [mbind option_bind] in Hq |- *;
        [|exact Hq].
      destruct (open_rgb p) as [d|] eqn:Ed; [|exact Hq].
      assert (Hd : fit_returns d 900 600 = true).
      { rewrite Forall_forall in E. apply E. apply list_elem_of_omap.
        exists p. split; [|exact Ed]. apply elem_of_take. exists k. auto. }
      apply fit_returns_iff in Hd as [Fw Fh]. auto.
  - apply forallb_Exists in E. intros output_path fs. rewrite Htake.
    unfold create_2x2_sheet.
    rewrite (paste_quadrants_raises (take 4 image_paths) 0 _ ltac:(lia) E).
    reflexivity.
Qed.

(** X5.  Files after the fourth play no part in a grid sheet. *)
Theorem create_2x2_sheet_first_four (image_paths : list string)
        (output_path : string) (fs : gmap string sheet_file) :
  create_2x2_sheet image_paths output_path fs
  = create_2x2_sheet (take 4 image_paths) output_path fs.
Proof.
  unfold create_2x2_sheet. rewrite (paste_quadrants_take image_paths 0). reflexivity.
Qed.

(** X6.  The grid compositor returns [False], and writes nothing, exactly
    when among the first four files one decodes to an image that the fitter
    cannot size (a side of the fitted size truncates to 0, so [resize]
    raises).  Otherwise it returns [True] and writes the output path and
    nothing else: the sheet is 1800 x 1200 at 300 dpi, quality 95; quadrant
    [k] holds the fitted image of file [k], at least one pixel wide and
    high, when that file decodes and is background otherwise. *)
Theorem create_2x2_sheet_outcome (image_paths : list string)
        (output_path : string) (fs : gmap string sheet_file) :
  (grid_renders image_paths = false <->
   Exists (fun d => ~ (1 <= width (fit_image_to_quad
                                    (apply_enhancements (dec_image d)
                                                        ENHANCEMENT_FACTOR)
                                    900 600) /\
                       1 <= height (fit_image_to_quad
                                      (apply_enhancements (dec_image d)
                                                          ENHANCEMENT_FACTOR)
                                      900 600)))
          (omap open_rgb (take 4 image_paths))) /\
  (grid_renders image_paths = false ->
   create_2x2_sheet image_paths output_path fs = (false, fs)) /\
  (grid_renders image_paths = true ->
   exists sheet,
     create_2x2_sheet image_paths output_path fs = (true, save sheet output_path fs) /\
     width sheet = 1800 /\ height sheet = 1200 /\
     save sheet output_path fs !! output_path = Some (SheetFile sheet (300, 300) 95) /\
     (forall p, p <> output_path -> save sheet output_path fs !! p = fs !! p) /\
     forall k qx qy,
       positions_2x2 !! k = Some (qx, qy) ->
       match image_paths !! k ≫= open_rgb with
       | Some d =>
         1 <= width (fit_image_to_quad
                       (apply_enhancements (dec_image d) ENHANCEMENT_FACTOR)
                       900 600) /\
         1 <= height (fit_image_to_quad
                        (apply_enhancements (dec_image d) ENHANCEMENT_FACTOR)
                        900 600) /\
         region_holds sheet
           (fit_image_to_quad
              (apply_enhancements (dec_image d) ENHANCEMENT_FACTOR) 900 600)
           qx qy 900 600
       | None => region_blank sheet qx qy 900 600
       end).
Proof.
  pose proof (create_2x2_sheet_renders image_paths) as H.
  split; [|split].
  - unfold grid_renders. split.
    + intros E. apply forallb_Exists in E. rewrite Exists_exists in E |- *.
      destruct E as (d & Hin & Hd). exists d. split; [exact Hin|].
      intros Hfit. apply fit_returns_iff in Hfit. congruence.
    + intros E. destruct (forallb _ _) eqn:F; [|reflexivity].
      apply forallb_Forall in F. rewrite Forall_forall in F.
      rewrite Exists_exists in E. destruct E as (d & Hin & Hd).
      exfalso. apply Hd. apply fit_returns_iff. apply F. exact Hin.
  - intros E. rewrite E in H. apply H.
  - intros E. rewrite E in H. destruct H as (sheet & Hrun & Hw & Hh & Hq).
    exists sheet. split; [apply Hrun|]. split; [exact Hw|]. split; [exact Hh|].
    split; [apply lookup_insert_eq|]. split; [|exact Hq].
    intros p Hp. apply lookup_insert_ne. congruence.
Qed.

(** X7.  With two decodable images, when the "2x1" total is strictly larger
    the layout is side by side: half-width, full-height regions at (0, 0)
    and (900, 0).  When the fitter returns for both images in such a region
    the sheet is saved with each image, at least one pixel wide and high,
    centered in its region; when it raises for one, the compositor returns
    [False] and writes nothing. *)
Theorem layout_2x1_when_larger (image_paths : list string)
        (output_path : string) (fs : gmap string sheet_file) (d1 d2 : decoded) :
  omap open_rgb (take 2 image_paths) = [d1; d2] ->
  let processed_images := load_images (take 2 image_paths) in
  total_area (_calculate_layout_area processed_images "1x2")
  < total_area (_calculate_layout_area processed_images "2x1") ->
  choose_layout processed_images
    = ("2x1"%string, 900, 1200, [ (0, 0); (900, 0) ]) /\
  (fit_returns d1 900 1200 && fit_returns d2 900 1200 = true ->
   exists sheet,
     create_1x2_sheet image_paths output_path fs = (true, save sheet output_path fs) /\
     width sheet = 1800 /\ height sheet = 1200 /\
     (forall d, d = d1 \/ d = d2 ->
        1 <= width (fit_image_to_quad
                      (apply_enhancements (dec_image d) ENHANCEMENT_FACTOR) 900 1200) /\
        1 <= height (fit_image_to_quad
                       (apply_enhancements (dec_image d) ENHANCEMENT_FACTOR) 900 1200)) /\
     region_holds sheet
       (fit_image_to_quad
          (apply_enhancements (dec_image d1) ENHANCEMENT_FACTOR) 900 1200)
       0 0 900 1200 /\
     region_holds sheet
       (fit_image_to_quad
          (apply_enhancements (dec_image d2) ENHANCEMENT_FACTOR) 900 1200)
       900 0 900 1200) /\
  (fit_returns d1 900 1200 && fit_returns d2 900 1200 = false ->
   create_1x2_sheet image_paths output_path fs = (false, fs)).
Proof.
  intros Htwo processed_images Hlt.
  assert (Hchoose : choose_layout processed_images
                    = ("2x1"%string, 900, 1200, [ (0, 0); (900, 0) ])).
  { rewrite choose_layout_eq. apply Z.ltb_lt in Hlt. rewrite Hlt. reflexivity. }
  split; [exact Hchoose|].
  apply (create_1x2_sheet_pair_outcome image_paths output_path fs d1 d2
           "2x1" 900 1200 900 0 Htwo Hchoose); [lia | lia |].
  intros x y Hin. apply in_box_true in Hin. apply in_box_false. lia.
Qed.

(** X16.  With two decodable images, unless the "2x1" total, truncated to an
    int, is strictly larger than the "1x2" total, the layout is stacked:
    full-width, half-height regions at (0, 0) and (0, 600).  When the fitter
    returns for both images in such a region the sheet is saved with each
    image, at least one pixel wide and high, centered in its region; when
    it raises for one, the compositor returns [False] and writes nothing. *)
Theorem layout_1x2_unless_larger (image_paths : list string)
        (output_path : string) (fs : gmap string sheet_file) (d1 d2 : decoded) :
  omap open_rgb (take 2 image_paths) = [d1; d2] ->
  let processed_images := load_images (take 2 image_paths) in
  total_area (_calculate_layout_area processed_images "2x1")
  <= total_area (_calculate_layout_area processed_images "1x2") ->
  choose_layout processed_images
    = ("1x2"%string, 1800, 600, [ (0, 0); (0, 600) ]) /\
  (fit_returns d1 1800 600 && fit_returns d2 1800 600 = true ->
   exists sheet,
     create_1x2_sheet image_paths output_path fs = (true, save sheet output_path fs) /\
     width sheet = 1800 /\ height sheet = 1200 /\
     (forall d, d = d1 \/ d = d2 ->
        1 <= width (fit_image_to_quad
                      (apply_enhancements (dec_image d) ENHANCEMENT_FACTOR) 1800 600) /\
        1 <= height (fit_image_to_quad
                       (apply_enhancements (dec_image d) ENHANCEMENT_FACTOR) 1800 600)) /\
     region_holds sheet
       (fit_image_to_quad
          (apply_enhancements (dec_image d1) ENHANCEMENT_FACTOR) 1800 600)
       0 0 1800 600 /\
     region_holds sheet
       (fit_image_to_quad
          (apply_enhancements (dec_image d2) ENHANCEMENT_FACTOR) 1800 600)
       0 600 1800 600) /\
  (fit_returns d1 1800 600 && fit_returns d2 1800 600 = false ->
   create_1x2_sheet image_paths output_path fs = (false, fs)).
Proof.
  intros Htwo processed_images Hle.
  assert (Hchoose : choose_layout processed_images
                    = ("1x2"%string, 1800, 600, [ (0, 0); (0, 600) ])).
  { rewrite choose_layout_eq. apply Z.ltb_ge in Hle. rewrite Hle. reflexivity. }
  split; [exact Hchoose|].
  apply (create_1x2_sheet_pair_outcome image_paths output_path fs d1 d2
           "1x2" 1800 600 0 600 Htwo Hchoose); [lia | lia |].
  intros x y Hin. apply in_box_true in Hin. apply in_box_false. lia.
Qed.

Lemma omap_take2_cases (image_paths : list string) :
  omap open_rgb (take 2 image_paths) = [] \/
  (exists d, omap open_rgb (take 2 image_paths) = [d]) \/
  (exists d1 d2, omap open_rgb (take 2 image_paths) = [d1; d2]).
Proof.
  destruct image_paths as [|p1 [|p2 rest]]; cbn [take omap list_omap];
    repeat match goal with
           | |- context [open_rgb ?p] => destruct (open_rgb p)
           end; eauto.
Qed.

(** The optimized compositor draws its sheet from the chunk alone. *)
Lemma create_1x2_sheet_renders (image_paths : list string) :
  if optimized_renders image_paths then
    exists sheet,
      width sheet = 1800 /\ height sheet = 1200 /\
      forall output_path fs,
        create_1x2_sheet image_paths output_path fs
        = (true, save sheet output_path fs)
  else
    forall output_path fs,
      create_1x2_sheet image_paths output_path fs = (false, fs).
Proof.
  unfold optimized_renders.
  destruct (omap_take2_cases image_paths) as [E | [(d & E) | (d1 & d2 & E)]];
    rewrite E.
  - intros output_path fs. apply create_1x2_sheet_none. exact E.
  - pose proof (fun output_path fs =>
                  create_1x2_sheet_one image_paths output_path fs d E) as Hrun.
    destruct (fit_returns d 1800 1200).
    + eexists. split; [|split; [|intros output_path fs; apply Hrun]]; reflexivity.
    + exact Hrun.
  - rewrite choose_layout_eq.
    destruct (_ <? _) eqn:L.
    + assert (Hchoose : choose_layout (load_images (take 2 image_paths))
                        = ("2x1"%string, 900, 1200, [ (0, 0); (900, 0) ]))
        by (rewrite choose_layout_eq, L; reflexivity).
      pose proof (fun output_path fs =>
                    create_1x2_sheet_pair image_paths output_path fs d1 d2
                      _ _ _ _ _ E Hchoose) as Hrun.
      destruct (fit_returns d1 900 1200 && fit_returns d2 900 1200).
      * eexists. split; [|split; [|intros output_path fs; apply Hrun]]; reflexivity.
      * exact Hrun.
    + assert (Hchoose : choose_layout (load_images (take 2 image_paths))
                        = ("1x2"%string, 1800, 600, [ (0, 0); (0, 600) ]))
        by (rewrite choose_layout_eq, L; reflexivity).
      pose proof (fun output_path fs =>
                    create_1x2_sheet_pair image_paths output_path fs d1 d2
                      _ _ _ _ _ E Hchoose) as Hrun.
      destruct (fit_returns d1 1800 600 && fit_returns d2 1800 600).
      * eexists. split; [|split; [|intros output_path fs; apply Hrun]]; reflexivity.
      * exact Hrun.
Qed.

(** X8.  The optimized compositor returns [False], and writes nothing, when
    none of the first two files decodes or when the fitter raises for one
    that does (on the whole canvas for a single image, in the halves of the
    chosen layout for two); otherwise it returns [True] and writes one
    1800 x 1200 sheet to the output path and nothing else. *)
Theorem create_1x2_sheet_outcome (image_paths : list string)
        (output_path : string) (fs : gmap string sheet_file) :
  (omap open_rgb (take 2 image_paths) = [] ->
   optimized_renders image_paths = false) /\
  (forall d, omap open_rgb (take 2 image_paths) = [d] ->
             optimized_renders image_paths = fit_returns d 1800 1200) /\
  (forall d1 d2 name qw qh positions,
      omap open_rgb (take 2 image_paths) = [d1; d2] ->
      choose_layout (load_images (take 2 image_paths)) = (name, qw, qh, positions) ->
      optimized_renders image_paths = fit_returns d1 qw qh && fit_returns d2 qw qh) /\
  (optimized_renders image_paths = false ->
   create_1x2_sheet image_paths output_path fs = (false, fs)) /\
  (optimized_renders image_paths = true ->
   exists sheet,
     create_1x2_sheet image_paths output_path fs = (true, save sheet output_path fs) /\
     width sheet = 1800 /\ height sheet = 1200 /\
     save sheet output_path fs !! output_path = Some (SheetFile sheet (300, 300) 95) /\
     forall p, p <> output_path -> save sheet output_path fs !! p = fs !! p).
Proof.
  pose proof (create_1x2_sheet_renders image_paths) as H.
  split; [|split; [|split; [|split]]].
  - intros E. unfold optimized_renders. rewrite E. reflexivity.
  - intros d E. unfold optimized_renders. rewrite E. reflexivity.
  - intros d1 d2 name qw qh positions E Hchoose. unfold optimized_renders.
    rewrite E, Hchoose. reflexivity.
  - intros E. rewrite E in H. apply H.
  - intros E. rewrite E in H. destruct H as (sheet & Hw & Hh & Hrun).
    exists sheet. split; [apply Hrun|]. split; [exact Hw|]. split; [exact Hh|].
    split; [apply lookup_insert_eq|].
    intros p Hp. apply lookup_insert_ne. congruence.
Qed.

(** X9.  A fitted image sits in the middle of its region: the margins on
    opposite sides differ by one pixel at most, the odd pixel going right
    and down, and in one direction the image fills the region, all but a
    pixel at the far edge. *)
Theorem fitted_paste_margins (sheet img : image)
        (quad_x quad_y quad_width quad_height : Z) :
  0 < width img < 2 ^ 53 -> 0 < height img < 2 ^ 53 ->
  0 < quad_width < 2 ^ 52 -> 0 < quad_height < 2 ^ 52 ->
  let img_resized := fit_image_to_quad img quad_width quad_height in
  let paste_x := quad_x + (quad_width - width img_resized) / 2 in
  let paste_y := quad_y + (quad_height - height img_resized) / 2 in
  let left := paste_x - quad_x in
  let right := quad_x + quad_width - (paste_x + width img_resized) in
  let top := paste_y - quad_y in
  let bottom := quad_y + quad_height - (paste_y + height img_resized) in
  paste_centered sheet img_resized quad_x quad_y quad_width quad_height
  = paste sheet img_resized paste_x paste_y /\
  0 <= left <= right /\ right <= left + 1 /\
  0 <= top <= bottom /\ bottom <= top + 1 /\
  ((left = 0 /\ right <= 1) \/ (top = 0 /\ bottom <= 1)).
Proof.
  intros Hw Hh Hqw Hqh.
  destruct (fit_within_quad img quad_width quad_height Hw Hh Hqw Hqh) as [Bw Bh].
  pose proof (fit_reaches_border img quad_width quad_height Hw Hh Hqw Hqh) as Hb.
  revert Bw Bh Hb. generalize (fit_image_to_quad img quad_width quad_height).
  intros r Bw Bh Hb. cbv zeta.
  split; [apply paste_centered_eq|].
  pose proof (Z.div_mod (quad_width - width r) 2 ltac:(lia)) as Dx.
  pose proof (Z.mod_pos_bound (quad_width - width r) 2 ltac:(lia)) as Mx.
  pose proof (Z.div_mod (quad_height - height r) 2 ltac:(lia)) as Dy.
  pose proof (Z.mod_pos_bound (quad_height - height r) 2 ltac:(lia)) as My.
  set (dx := (quad_width - width r) / 2) in *.
  set (dy := (quad_height - height r) / 2) in *.
  clearbody dx dy. lia.
Qed.

End CompositorMore.

(* ===================================================================== *)
(** * More on the Batch Scheduler: sheet names and what a run writes *)
(* ===================================================================== *)

Section Names.

Lemma string_app_cons (c : Ascii.ascii) (s t : string) :
  String c s +:+ t = String c (s +:+ t).
Proof. reflexivity. Qed.

Lemma string_app_nil (t : string) : "" +:+ t = t.
Proof. reflexivity. Qed.

Lemma string_length_app (s t : string) :
  String.length (s +:+ t) = (String.length s + String.length t)%nat.
Proof.
  induction s as [|c s IH]; [reflexivity|].
  rewrite string_app_cons. cbn [String.length]. rewrite IH. reflexivity.
Qed.

Lemma string_app_inj_r (s1 s2 t : string) : s1 +:+ t = s2 +:+ t -> s1 = s2.
Proof.
  revert s2. induction s1 as [|c1 s1 IH]; intros [|c2 s2] H.
  - reflexivity.
  - apply (f_equal String.length) in H.
    rewrite string_app_nil, string_app_cons in H. cbn [String.length] in H.
    rewrite string_length_app in H. lia.
  - apply (f_equal String.length) in H.
    rewrite string_app_nil, string_app_cons in H. cbn [String.length] in H.
    rewrite string_length_app in H. lia.
  - rewrite !string_app_cons in H. injection H as -> H. f_equal. apply IH. exact H.
Qed.

Lemma zeros_succ (k : nat) :
  String.concat "" (replicate (S k) "0"%string)
  = String zero_char (String.concat "" (replicate k "0"%string)).
Proof. destruct k; reflexivity. Qed.

Lemma lstrip_zeros_pad (k : nat) (s : string) :
  lstrip_zeros (String.concat "" (replicate k "0"%string) +:+ s) = lstrip_zeros s.
Proof.
  induction k as [|k IH]; [reflexivity|].
  rewrite zeros_succ, string_app_cons. cbn [lstrip_zeros].
  change (Ascii.eqb zero_char zero_char) with true. exact IH.
Qed.

(** The decimal notation of a positive number starts with a digit other
    than 0. *)
Lemma pretty_N_go_head (x : N) :
  forall s, (0 < x)%N ->
            exists c t, pretty_N_go x s = String c t /\ c <> zero_char.
Proof.
  induction (N.lt_wf_0 x) as [x _ IH]. intros s Hx.
  rewrite pretty_N_go_step by exact Hx.
  destruct (N.eq_dec (x `div` 10)%N 0%N) as [E | NE].
  - rewrite E, pretty_N_go_0. eexists _, _. split; [reflexivity|].
    assert (Hlt : (x < 10)%N) by (apply N.div_small_iff in E; lia).
    rewrite N.mod_small by exact Hlt.
    assert (x = 1 \/ x = 2 \/ x = 3 \/ x = 4 \/ x = 5 \/ x = 6
            \/ x = 7 \/ x = 8 \/ x = 9)%N as Hc by lia.
    destruct Hc as [->|[->|[->|[->|[->|[->|[->|[->| ->]]]]]]]]; discriminate.
  - apply IH; [apply N.div_lt; lia | apply N.neq_0_lt_0; exact NE].
Qed.

Lemma lstrip_zeros_pretty (n : Z) :
  0 <= n -> lstrip_zeros (pretty n) = if decide (n = 0) then ""%string else pretty n.
Proof.
  intros Hn. destruct n as [|p|p]; [reflexivity | | lia].
  rewrite decide_False by discriminate.
  change (pretty (Z.pos p)) with (pretty (N.pos p)).
  unfold pretty, pretty_N. rewrite decide_False by discriminate.
  destruct (pretty_N_go_head (N.pos p) "" ltac:(lia)) as (c & t & -> & Hc).
  cbn [lstrip_zeros]. destruct (Ascii.eqb c zero_char) eqn:E; [|reflexivity].
  apply Ascii.eqb_eq in E. congruence.
Qed.

Lemma pretty_nonempty (n : Z) : 0 < n -> pretty n <> ""%string.
Proof.
  intros Hn. destruct n as [|p|p]; try lia.
  change (pretty (Z.pos p)) with (pretty (N.pos p)).
  unfold pretty, pretty_N. rewrite decide_False by discriminate.
  destruct (pretty_N_go_head (N.pos p) "" ltac:(lia)) as (c & t & -> & _).
  discriminate.
Qed.

(** Zero padding keeps different numbers apart. *)
Lemma fmt_03d_inj (a b : Z) : 0 <= a -> 0 <= b -> fmt_03d a = fmt_03d b -> a = b.
Proof.
  intros Ha Hb H. apply (f_equal lstrip_zeros) in H. unfold fmt_03d in H.
  rewrite !lstrip_zeros_pad, !lstrip_zeros_pretty in H by assumption.
  destruct (decide (a = 0)) as [-> | Na]; destruct (decide (b = 0)) as [-> | Nb].
  - reflexivity.
  - exfalso. symmetry in H. apply (pretty_nonempty b); [lia | exact H].
  - exfalso. apply (pretty_nonempty a); [lia | exact H].
  - apply (inj pretty). exact H.
Qed.

Lemma sheet_path_eq (output_folder prefix : string) (i j : Z) :
  0 <= i -> 0 <= j ->
  sheet_path output_folder prefix i = sheet_path output_folder prefix j ->
  i = j.
Proof.
  intros Hi Hj H. unfold sheet_path, path_join in H.
  apply (inj (String.app output_folder)) in H.
  apply (inj (String.app "/")) in H.
  apply (inj (String.app prefix)) in H.
  apply string_app_inj_r in H. apply fmt_03d_inj; assumption.
Qed.

Lemma big_small_paths_differ (output_folder : string) (i j : Z) :
  sheet_path output_folder "big_sheet_" i <> sheet_path output_folder "small_sheet_" j.
Proof.
  unfold sheet_path, path_join. intros H.
  apply (inj (String.app output_folder)) in H.
  apply (inj (String.app "/")) in H. discriminate.
Qed.

(** X10.  Two sheets of a run have the same file name only when they are
    the same sheet: same pass and same number.  The [:03d] padding keeps
    numbers apart also from 1000 on. *)
Theorem sheet_names_distinct (output_folder prefix1 prefix2 : string) (i j : Z) :
  prefix1 = "big_sheet_"%string \/ prefix1 = "small_sheet_"%string ->
  prefix2 = "big_sheet_"%string \/ prefix2 = "small_sheet_"%string ->
  0 <= i -> 0 <= j ->
  sheet_path output_folder prefix1 i = sheet_path output_folder prefix2 j ->
  prefix1 = prefix2 /\ i = j.
Proof.
  intros [-> | ->] [-> | ->] Hi Hj H.
  - split; [reflexivity | eapply sheet_path_eq; eassumption].
  - exfalso. exact (big_small_paths_differ _ _ _ H).
  - exfalso. symmetry in H. exact (big_small_paths_differ _ _ _ H).
  - split; [reflexivity | eapply sheet_path_eq; eassumption].
Qed.

End Names.

(* ===================================================================== *)
(** * What a pass writes *)
(* ===================================================================== *)

Section PassFacts.
Context {lib : Imaging} {disk : Disk}.

Lemma sheet_loop_step create prefix chunk_size files output_folder i rest sheets
      (fs : gmap string sheet_file) :
  sheet_loop create prefix chunk_size files output_folder (i :: rest) sheets fs
  = let '(ok, fs') :=
        create (slice files (i * chunk_size) (i * chunk_size + chunk_size))
               (sheet_path output_folder prefix (i + 1)) fs in
    sheet_loop create prefix chunk_size files output_folder rest
               (if ok then sheets + 1 else sheets) fs'.
Proof. reflexivity. Qed.

(** The loop over distinct indices from 0 on: the count is the number of
    chunks that gave a sheet, each of these sheets is in its own file at
    the end, a chunk that gave none leaves its file name alone, and no other
    file is touched. *)
Lemma sheet_loop_spec create render prefix chunk_size files output_folder :
  renders create render ->
  forall indices sheets (fs : gmap string sheet_file),
    NoDup indices -> (forall i, i ∈ indices -> 0 <= i) ->
    let chunk i := slice files (i * chunk_size) (i * chunk_size + chunk_size) in
    let r := sheet_loop create prefix chunk_size files output_folder
                        indices sheets fs in
    r.1 = sheets + Z.of_nat (length (omap render (chunk <$> indices))) /\
    (forall i, i ∈ indices ->
       r.2 !! sheet_path output_folder prefix (i + 1)
       = match render (chunk i) with
         | Some sheet => Some (SheetFile sheet (DPI, DPI) 95)
         | None => fs !! sheet_path output_folder prefix (i + 1)
         end) /\
    (forall p, (forall i, i ∈ indices -> p <> sheet_path output_folder prefix (i + 1)) ->
       r.2 !! p = fs !! p).
Proof.
  intros Hr indices. induction indices as [|i rest IH]; intros sheets fs Hnd Hpos;
    cbv zeta.
  - cbn. split; [lia|]. split; [|reflexivity].
    intros i Hi. apply elem_of_nil in Hi. contradiction.
  - apply NoDup_cons in Hnd as [Hni Hnd].
    assert (Hpos' : forall j, j ∈ rest -> 0 <= j).
    { intros j Hj. apply Hpos. right. exact Hj. }
    assert (Hi0 : 0 <= i) by (apply Hpos; left).
    assert (Hfar : forall j, j ∈ rest ->
              sheet_path output_folder prefix (i + 1)
              <> sheet_path output_folder prefix (j + 1)).
    { intros j Hj E. apply sheet_path_eq in E; [|specialize (Hpos' j Hj); lia ..].
      assert (i = j) by lia. subst j. contradiction. }
    rewrite sheet_loop_step, (Hr _ _ fs).
    cbn [fmap list_fmap omap list_omap].
    set (c := slice files (i * chunk_size) (i * chunk_size + chunk_size)).
    set (path := sheet_path output_folder prefix (i + 1)) in *.
    destruct (render c) as [s|] eqn:Er.
    + destruct (IH (sheets + 1) (save s path fs) Hnd Hpos') as (C & W & O).
      split; [rewrite C; cbn [length]; lia|]. split.
      * intros j Hj. apply elem_of_cons in Hj as [-> | Hj].
        -- fold c path. rewrite Er, O by exact Hfar. apply lookup_insert_eq.
        -- rewrite (W j Hj).
           destruct (render (slice files (j * chunk_size) _)); [reflexivity|].
           apply lookup_insert_ne. apply Hfar. exact Hj.
      * intros p Hp. rewrite O by (intros j Hj; apply Hp; right; exact Hj).
        apply lookup_insert_ne. intros E. apply (Hp i); [left | symmetry; exact E].
    + destruct (IH sheets fs Hnd Hpos') as (C & W & O).
      split; [exact C|]. split.
      * intros j Hj. apply elem_of_cons in Hj as [-> | Hj].
        -- fold c path. rewrite Er. apply O. exact Hfar.
        -- apply W. exact Hj.
      * intros p Hp. apply O. intros j Hj. apply Hp. right. exact Hj.
Qed.

(** Whatever the indices, a file changed by the loop is a sheet of the
    loop. *)
Lemma sheet_loop_files create render prefix chunk_size files output_folder :
  renders create render ->
  forall indices sheets (fs : gmap string sheet_file) p,
    let fs' := (sheet_loop create prefix chunk_size files output_folder
                           indices sheets fs).2 in
    fs' !! p = fs !! p \/
    exists i sheet,
      i ∈ indices /\ p = sheet_path output_folder prefix (i + 1) /\
      render (slice files (i * chunk_size) (i * chunk_size + chunk_size))
      = Some sheet /\
      fs' !! p = Some (SheetFile sheet (DPI, DPI) 95).
Proof.
  intros Hr indices. induction indices as [|i rest IH]; intros sheets fs p; cbv zeta.
  - left. reflexivity.
  - rewrite sheet_loop_step, (Hr _ _ fs).
    set (c := slice files (i * chunk_size) (i * chunk_size + chunk_size)).
    set (path := sheet_path output_folder prefix (i + 1)).
    assert (Hrest : forall sheets' fs1,
               (fs1 !! p = fs !! p \/
                exists sheet, p = path /\ render c = Some sheet /\
                              fs1 !! p = Some (SheetFile sheet (DPI, DPI) 95)) ->
               let fs' := (sheet_loop create prefix chunk_size files output_folder
                                      rest sheets' fs1).2 in
               fs' !! p = fs !! p \/
               exists j sheet,
                 j ∈ i :: rest /\ p = sheet_path output_folder prefix (j + 1) /\
                 render (slice files (j * chunk_size) (j * chunk_size + chunk_size))
                 = Some sheet /\
                 fs' !! p = Some (SheetFile sheet (DPI, DPI) 95)).
    { intros sheets' fs1 H1. cbv zeta.
      destruct (IH sheets' fs1 p) as [E | (j & s & Hj & Hp & Hrd & Hf)].
      - rewrite E. destruct H1 as [H1 | (s & Hp & Hrd & Hf)]; [left; exact H1|].
        right. exists i, s. split; [left|]. auto.
      - right. exists j, s. split; [right; exact Hj|]. auto. }
    destruct (render c) as [s|] eqn:Er.
    + apply Hrest. destruct (decide (p = path)) as [-> | Hne].
      * right. exists s. split; [reflexivity|]. split; [reflexivity|].
        apply lookup_insert_eq.
      * left. apply lookup_insert_ne. congruence.
    + apply Hrest. left. reflexivity.
Qed.

Lemma num_sheets_zero (chunk_size : Z) : num_sheets 0 chunk_size = 0.
Proof.
  unfold num_sheets, truediv.
  rewrite (rnd_zero (inject_Z 0 / inject_Z chunk_size)); [reflexivity|].
  unfold Qdiv. apply Qmult_0_l.
Qed.

Lemma chunks_lookup (chunk_size : Z) (files : list string) (k : nat)
      (chunk : list string) :
  chunks chunk_size files !! k = Some chunk ->
  chunk = slice files (Z.of_nat k * chunk_size)
                (Z.of_nat k * chunk_size + chunk_size) /\
  Z.of_nat k ∈ seqZ 0 (num_sheets (Z.of_nat (length files)) chunk_size).
Proof.
  unfold chunks. rewrite list_lookup_fmap. intros H.
  destruct (seqZ 0 _ !! k) as [i|] eqn:E; [|discriminate].
  apply lookup_seqZ in E as [-> Hlt].
  cbn in H. injection H as <-. rewrite Z.add_0_l.
  split; [reflexivity|]. apply elem_of_seqZ. lia.
Qed.

Lemma chunks_lookup_index (chunk_size : Z) (files : list string) (i : Z) :
  i ∈ seqZ 0 (num_sheets (Z.of_nat (length files)) chunk_size) ->
  chunks chunk_size files !! Z.to_nat i
  = Some (slice files (i * chunk_size) (i * chunk_size + chunk_size)) /\
  Z.of_nat (Z.to_nat i) = i.
Proof.
  intros Hi. apply elem_of_seqZ in Hi. split; [|lia].
  unfold chunks. rewrite list_lookup_fmap.
  assert (E : seqZ 0 (num_sheets (Z.of_nat (length files)) chunk_size)
              !! Z.to_nat i = Some i).
  { apply lookup_seqZ. lia. }
  rewrite E. reflexivity.
Qed.

Lemma process_pass_loop create prefix chunk_size folder output_folder
      (fs : gmap string sheet_file) (files : list string) :
  get_image_files folder = Some files ->
  process_pass create prefix chunk_size folder output_folder fs
  = sheet_loop create prefix chunk_size files output_folder
      (seqZ 0 (num_sheets (Z.of_nat (length files)) chunk_size)) 0 fs.
Proof.
  intros Hfiles.
  unfold process_pass. rewrite Hfiles. destruct files as [|f files']; [|reflexivity].
  change (Z.of_nat (length (@nil string))) with 0. rewrite num_sheets_zero.
  reflexivity.
Qed.

(** One pass, chunk by chunk. *)
Lemma process_pass_spec create render prefix chunk_size folder output_folder
      (fs : gmap string sheet_file) (files : list string) :
  renders create render ->
  get_image_files folder = Some files ->
  let r := process_pass create prefix chunk_size folder output_folder fs in
  r.1 = Z.of_nat (length (omap render (chunks chunk_size files))) /\
  (forall (k : nat) chunk,
      chunks chunk_size files !! k = Some chunk ->
      r.2 !! sheet_path output_folder prefix (Z.of_nat k + 1)
      = match render chunk with
        | Some sheet => Some (SheetFile sheet (DPI, DPI) 95)
        | None => fs !! sheet_path output_folder prefix (Z.of_nat k + 1)
        end).
Proof.
  intros Hr Hfiles. cbv zeta.
  rewrite (process_pass_loop _ _ _ _ _ _ files Hfiles).
  destruct (sheet_loop_spec create render prefix chunk_size files output_folder Hr
              (seqZ 0 (num_sheets (Z.of_nat (length files)) chunk_size)) 0 fs)
    as (C & W & _).
  { apply NoDup_seqZ. }
  { intros i Hi. apply elem_of_seqZ in Hi. lia. }
  split.
  - rewrite C. unfold chunks. lia.
  - intros k chunk Hk. apply chunks_lookup in Hk as [-> Hin]. apply W. exact Hin.
Qed.

(** Whatever the folder, a file changed by a pass is a sheet of the pass. *)
Lemma process_pass_files create render prefix chunk_size folder output_folder
      (fs : gmap string sheet_file) (p : string) :
  renders create render ->
  let fs' := (process_pass create prefix chunk_size folder output_folder fs).2 in
  fs' !! p = fs !! p \/
  exists files (k : nat) chunk sheet,
    get_image_files folder = Some files /\
    chunks chunk_size files !! k = Some chunk /\
    p = sheet_path output_folder prefix (Z.of_nat k + 1) /\
    render chunk = Some sheet /\
    fs' !! p = Some (SheetFile sheet (DPI, DPI) 95).
Proof.
  intros Hr. cbv zeta.
  destruct (get_image_files folder) as [files|] eqn:Hfiles;
    [|left; unfold process_pass; rewrite Hfiles; reflexivity].
  rewrite (process_pass_loop _ _ _ _ _ _ files Hfiles).
  destruct (sheet_loop_files create render prefix chunk_size files
              output_folder Hr
              (seqZ 0 (num_sheets (Z.of_nat (length files)) chunk_size))
              0 fs p) as [E | (i & s & Hi & Hp & Hrd & Hf)].
  - left. exact E.
  - right. destruct (chunks_lookup_index chunk_size files i Hi) as [Hk Hz].
    exists files, (Z.to_nat i),
      (slice files (i * chunk_size) (i * chunk_size + chunk_size)), s.
    split; [reflexivity|]. split; [exact Hk|]. rewrite Hz. auto.
Qed.

(** A pass over a store that already holds its sheets changes nothing. *)
Lemma process_pass_fixed create render prefix chunk_size folder output_folder
      (fs : gmap string sheet_file) :
  renders create render ->
  (forall files (k : nat) chunk sheet,
      get_image_files folder = Some files ->
      chunks chunk_size files !! k = Some chunk ->
      render chunk = Some sheet ->
      fs !! sheet_path output_folder prefix (Z.of_nat k + 1)
      = Some (SheetFile sheet (DPI, DPI) 95)) ->
  (process_pass create prefix chunk_size folder output_folder fs).2 = fs.
Proof.
  intros Hr Hhas. apply map_eq. intros p.
  destruct (process_pass_files create render prefix chunk_size folder
              output_folder fs p Hr)
    as [E | (files & k & ch & s & Hfiles & Hk & -> & Hrd & Hf)]; [exact E|].
  rewrite Hf. symmetry. eapply Hhas; eassumption.
Qed.

(** The count of a pass does not depend on the store. *)
Lemma process_pass_count create render prefix chunk_size folder output_folder
      (fs1 fs2 : gmap string sheet_file) :
  renders create render ->
  (process_pass create prefix chunk_size folder output_folder fs1).1
  = (process_pass create prefix chunk_size folder output_folder fs2).1.
Proof.
  intros Hr.
  destruct (get_image_files folder) as [files|] eqn:Hfiles;
    [|unfold process_pass; rewrite Hfiles; reflexivity].
  destruct (process_pass_spec create render prefix chunk_size folder
              output_folder fs1 files Hr Hfiles) as (C1 & _).
  destruct (process_pass_spec create render prefix chunk_size folder
              output_folder fs2 files Hr Hfiles) as (C2 & _).
  congruence.
Qed.

Lemma renders_Some create render chunk sheet :
  renders create render ->
  (forall output_path fs, create chunk output_path fs = (true, save sheet output_path fs)) ->
  render chunk = Some sheet.
Proof.
  intros Hr Hrun. specialize (Hrun ""%string ∅). rewrite (Hr chunk) in Hrun.
  destruct (render chunk) as [s|]; [|discriminate].
  assert (Hs : save s "" ∅ = save sheet "" ∅) by congruence.
  apply (f_equal (fun m => m !! ""%string)) in Hs.
  unfold save in Hs. rewrite !lookup_insert_eq in Hs. congruence.
Qed.

Lemma renders_None create render chunk :
  renders create render ->
  (forall output_path fs, create chunk output_path fs = (false, fs)) ->
  render chunk = None.
Proof.
  intros Hr Hrun. specialize (Hrun ""%string ∅). rewrite (Hr chunk) in Hrun.
  destruct (render chunk) as [s|]; [discriminate | reflexivity].
Qed.

(** The sheet a compositor draws, read back from a run on an empty store. *)
Lemma renders_exists create :
  (forall chunk,
      (forall output_path fs, create chunk output_path fs = (false, fs)) \/
      exists sheet,
        forall output_path fs,
          create chunk output_path fs = (true, save sheet output_path fs)) ->
  exists render, renders create render.
Proof.
  intros H.
  exists (fun chunk =>
            let r := create chunk ""%string ∅ in
            if r.1 then file_image <$> r.2 !! ""%string else None).
  intros chunk output_path fs. cbv zeta.
  destruct (H chunk) as [Hrun | (sheet & Hrun)].
  - rewrite (Hrun ""%string ∅). cbn [fst]. apply Hrun.
  - rewrite (Hrun ""%string ∅). cbn [fst snd]. unfold save at 1.
    rewrite lookup_insert_eq. cbn [fmap option_fmap option_map file_image].
    apply Hrun.
Qed.

Lemma grid_render :
  exists render,
    renders create_2x2_sheet render /\
    forall chunk,
      if grid_renders chunk then
        exists sheet,
          render chunk = Some sheet /\ width sheet = 1800 /\ height sheet = 1200 /\
          forall output_path fs,
            create_2x2_sheet chunk output_path fs = (true, save sheet output_path fs)
      else render chunk = None.
Proof.
  destruct (renders_exists create_2x2_sheet) as (render & Hr).
  { intros chunk. pose proof (create_2x2_sheet_renders chunk) as H.
    destruct (grid_renders chunk); [right | left; exact H].
    destruct H as (sheet & Hrun & _). exists sheet. exact Hrun. }
  exists render. split; [exact Hr|]. intros chunk.
  pose proof (create_2x2_sheet_renders chunk) as H.
  destruct (grid_renders chunk).
  - destruct H as (sheet & Hrun & Hw & Hh & _).
    exists sheet. split; [eapply renders_Some; eassumption|]. auto.
  - eapply renders_None; eassumption.
Qed.

Lemma optimized_render :
  exists render,
    renders create_1x2_sheet render /\
    forall chunk,
      if optimized_renders chunk then
        exists sheet,
          render chunk = Some sheet /\ width sheet = 1800 /\ height sheet = 1200 /\
          forall output_path fs,
            create_1x2_sheet chunk output_path fs = (true, save sheet output_path fs)
      else render chunk = None.
Proof.
  destruct (renders_exists create_1x2_sheet) as (render & Hr).
  { intros chunk. pose proof (create_1x2_sheet_renders chunk) as H.
    destruct (optimized_renders chunk); [right | left; exact H].
    destruct H as (sheet & _ & _ & Hrun). exists sheet. exact Hrun. }
  exists render. split; [exact Hr|]. intros chunk.
  pose proof (create_1x2_sheet_renders chunk) as H.
  destruct (optimized_renders chunk).
  - destruct H as (sheet & Hw & Hh & Hrun).
    exists sheet. split; [eapply renders_Some; eassumption|]. auto.
  - eapply renders_None; eassumption.
Qed.

Lemma count_rendered (render : list string -> option image)
      (ok : list string -> bool) (l : list (list string)) :
  (forall c, ok c = false <-> render c = None) ->
  length (omap render l) = length (List.filter ok l).
Proof.
  intros H. induction l as [|c l IH]; [reflexivity|].
  cbn [omap list_omap List.filter].
  destruct (render c) as [s|] eqn:Er; destruct (ok c) eqn:Eo; cbn [length];
    try (rewrite IH; reflexivity).
  - apply H in Eo. congruence.
  - apply H in Er. congruence.
Qed.

Lemma process_folders_eq (big_folder small_folder output_folder : string)
      (fs : gmap string sheet_file) :
  let big := process_pass create_1x2_sheet "big_sheet_" 2 big_folder
                          output_folder fs in
  let small := process_pass create_2x2_sheet "small_sheet_" 4 small_folder
                            output_folder big.2 in
  process_folders big_folder small_folder output_folder fs
  = ((big.1, small.1), small.2).
Proof.
  cbv zeta. unfold process_folders.
  destruct (process_pass create_1x2_sheet _ _ _ _ fs) as [b fs1]. cbn [fst snd].
  destruct (process_pass create_2x2_sheet _ _ _ _ fs1) as [s fs2]. reflexivity.
Qed.

(** One pass leaves the sheet names of the other alone. *)
Lemma pass_keeps_other_prefix create render prefix other chunk_size folder
      output_folder (fs : gmap string sheet_file) (i : Z) :
  renders create render ->
  (forall a b, sheet_path output_folder other a
               <> sheet_path output_folder prefix b) ->
  (process_pass create prefix chunk_size folder output_folder fs).2
    !! sheet_path output_folder other i
  = fs !! sheet_path output_folder other i.
Proof.
  intros Hr Hdiff.
  destruct (process_pass_files create render prefix chunk_size folder
              output_folder fs (sheet_path output_folder other i) Hr)
    as [E | (_ & j & _ & _ & _ & _ & Hp & _)]; [exact E|].
  exfalso. exact (Hdiff _ _ Hp).
Qed.

(** X11.  When both folders are listed, the second count of
    [process_folders] is the number of chunks of four of the SMALL folder
    that the grid compositor gets through.  At the end of the run the file
    numbered [k + 1] holds the sheet the grid compositor draws of chunk [k],
    1800 x 1200 at 300 dpi, quality 95; a chunk for which the fitter raises
    leaves a gap in the numbering, and a file that was there under its name
    stays as it was. *)
Theorem process_folders_small_sheets (big_folder small_folder output_folder : string)
        (fs : gmap string sheet_file) (big_files small_files : list string) :
  get_image_files big_folder = Some big_files ->
  get_image_files small_folder = Some small_files ->
  let r := process_folders big_folder small_folder output_folder fs in
  r.1.2 = Z.of_nat (length (List.filter grid_renders (chunks 4 small_files))) /\
  forall (k : nat) chunk,
    chunks 4 small_files !! k = Some chunk ->
    let path := sheet_path output_folder "small_sheet_" (Z.of_nat k + 1) in
    if grid_renders chunk then
      exists sheet,
        r.2 !! path = Some (SheetFile sheet (300, 300) 95) /\
        width sheet = 1800 /\ height sheet = 1200 /\
        forall output_path fs0,
          create_2x2_sheet chunk output_path fs0 = (true, save sheet output_path fs0)
    else r.2 !! path = fs !! path.
Proof.
  intros _ Hfiles. cbv zeta. rewrite process_folders_eq. cbn [fst snd].
  destruct grid_render as (render & Hr & Hall).
  destruct optimized_render as (render2 & Hr2 & _).
  set (fs1 := (process_pass create_1x2_sheet "big_sheet_" 2 big_folder
                            output_folder fs).2).
  destruct (process_pass_spec create_2x2_sheet render "small_sheet_" 4 small_folder
              output_folder fs1 small_files Hr Hfiles) as (C & W).
  split.
  - rewrite C. f_equal. apply count_rendered.
    intros c. specialize (Hall c). destruct (grid_renders c).
    + destruct Hall as (s & Hs & _). rewrite Hs. split; discriminate.
    + split; auto.
  - intros k chunk Hk. rewrite (W k chunk Hk).
    specialize (Hall chunk). destruct (grid_renders chunk).
    + destruct Hall as (sheet & Hs & Hw & Hh & Hrun).
      exists sheet. rewrite Hs. auto.
    + rewrite Hall. subst fs1.
      apply (pass_keeps_other_prefix _ render2); [exact Hr2|].
      intros a b E. symmetry in E. exact (big_small_paths_differ _ _ _ E).
Qed.

(** X12.  When both folders are listed, the first count of
    [process_folders] is the number of chunks of two of the BIG folder that
    the optimized compositor gets through.  At the end of the run the file
    numbered [k + 1] holds the sheet the optimized compositor draws of chunk
    [k], untouched by the SMALL pass; a chunk with no file that decodes, or
    one for which the fitter raises, leaves a gap in the numbering, and a
    file that was there under its name stays as it was. *)
Theorem process_folders_big_sheets (big_folder small_folder output_folder : string)
        (fs : gmap string sheet_file) (big_files small_files : list string) :
  get_image_files big_folder = Some big_files ->
  get_image_files small_folder = Some small_files ->
  let r := process_folders big_folder small_folder output_folder fs in
  r.1.1 = Z.of_nat (length (List.filter optimized_renders (chunks 2 big_files))) /\
  forall (k : nat) chunk,
    chunks 2 big_files !! k = Some chunk ->
    let path := sheet_path output_folder "big_sheet_" (Z.of_nat k + 1) in
    if optimized_renders chunk then
      exists sheet,
        r.2 !! path = Some (SheetFile sheet (300, 300) 95) /\
        width sheet = 1800 /\ height sheet = 1200 /\
        forall output_path fs0,
          create_1x2_sheet chunk output_path fs0 = (true, save sheet output_path fs0)
    else r.2 !! path = fs !! path.
Proof.
  intros Hfiles _. cbv zeta. rewrite process_folders_eq. cbn [fst snd].
  destruct optimized_render as (render & Hr & Hall).
  destruct grid_render as (render4 & Hr4 & _).
  destruct (process_pass_spec create_1x2_sheet render "big_sheet_" 2 big_folder
              output_folder fs big_files Hr Hfiles) as (C & W).
  set (fs1 := (process_pass create_1x2_sheet "big_sheet_" 2 big_folder
                            output_folder fs).2) in *.
  split.
  - rewrite C. f_equal. apply count_rendered.
    intros c. specialize (Hall c). destruct (optimized_renders c).
    + destruct Hall as (s & Hs & _). rewrite Hs. split; discriminate.
    + split; auto.
  - intros k chunk Hk.
    rewrite (pass_keeps_other_prefix _ render4 _ _ _ _ _ _ _ Hr4
               (big_small_paths_differ output_folder)).
    rewrite (W k chunk Hk).
    specialize (Hall chunk). destruct (optimized_renders chunk).
    + destruct Hall as (sheet & Hs & Hw & Hh & Hrun).
      exists sheet. rewrite Hs. auto.
    + rewrite Hall. reflexivity.
Qed.

(** X13.  A run never deletes a file and changes nothing but its own
    sheets: every file of the store is as it was, or it is a sheet of one of
    the two passes, numbered from 1, 1800 x 1200 at 300 dpi, quality 95. *)
Theorem process_folders_keeps_files (big_folder small_folder output_folder : string)
        (fs : gmap string sheet_file) (p : string) :
  let fs' := (process_folders big_folder small_folder output_folder fs).2 in
  fs' !! p = fs !! p \/
  exists prefix number sheet,
    (prefix = "big_sheet_"%string \/ prefix = "small_sheet_"%string) /\
    1 <= number /\
    p = sheet_path output_folder prefix number /\
    fs' !! p = Some (SheetFile sheet (300, 300) 95) /\
    width sheet = 1800 /\ height sheet = 1200.
Proof.
  cbv zeta. rewrite process_folders_eq. cbn [fst snd].
  destruct optimized_render as (render2 & Hr2 & Hall2).
  destruct grid_render as (render4 & Hr4 & Hall4).
  set (fs1 := (process_pass create_1x2_sheet "big_sheet_" 2 big_folder
                            output_folder fs).2).
  destruct (process_pass_files create_2x2_sheet render4 "small_sheet_" 4
              small_folder output_folder fs1 p Hr4)
    as [E | (fl & i & ch & s & _ & _ & Hp & Hrd & Hf)].
  - rewrite E. subst fs1.
    destruct (process_pass_files create_1x2_sheet render2 "big_sheet_" 2
                big_folder output_folder fs p Hr2)
      as [E' | (fl & i & ch & s & _ & _ & Hp & Hrd & Hf)]; [left; exact E'|].
    right. exists "big_sheet_"%string, (Z.of_nat i + 1), s.
    split; [left; reflexivity|]. split; [lia|]. split; [exact Hp|].
    split; [exact Hf|].
    specialize (Hall2 ch). destruct (optimized_renders ch).
    + destruct Hall2 as (s' & Hs' & Hw & Hh & _).
      assert (s' = s) by congruence. subst s'. auto.
    + congruence.
  - right. exists "small_sheet_"%string, (Z.of_nat i + 1), s.
    split; [right; reflexivity|]. split; [lia|]. split; [exact Hp|].
    split; [exact Hf|].
    specialize (Hall4 ch). destruct (grid_renders ch).
    + destruct Hall4 as (s' & Hs' & Hw & Hh & _).
      assert (s' = s) by congruence. subst s'. auto.
    + congruence.
Qed.

(** X15.  Running the program again on the files it has written, the input
    folders being as they were, changes nothing: the same sheets go to the
    same names with the same content, and the same counts come back. *)
Theorem process_folders_rerun (big_folder small_folder output_folder : string)
        (fs : gmap string sheet_file) :
  let r := process_folders big_folder small_folder output_folder fs in
  process_folders big_folder small_folder output_folder r.2 = r.
Proof.
  cbv zeta.
  rewrite (process_folders_eq big_folder small_folder output_folder fs).
  cbn [fst snd].
  destruct optimized_render as (render2 & Hr2 & _).
  destruct grid_render as (render4 & Hr4 & _).
  set (fs1 := (process_pass create_1x2_sheet "big_sheet_" 2 big_folder
                            output_folder fs).2).
  set (fs2 := (process_pass create_2x2_sheet "small_sheet_" 4 small_folder
                            output_folder fs1).2).
  assert (Hbig : (process_pass create_1x2_sheet "big_sheet_" 2 big_folder
                               output_folder fs2).2 = fs2).
  { apply (process_pass_fixed _ render2); [exact Hr2|].
    intros files k chunk sheet Hfiles Hk Hrd.
    assert (E : fs2 !! sheet_path output_folder "big_sheet_" (Z.of_nat k + 1)
                = fs1 !! sheet_path output_folder "big_sheet_" (Z.of_nat k + 1)).
    { subst fs2.
      destruct (process_pass_files create_2x2_sheet render4 "small_sheet_" 4
                  small_folder output_folder fs1
                  (sheet_path output_folder "big_sheet_" (Z.of_nat k + 1)) Hr4)
        as [E | (_ & j & _ & _ & _ & _ & Hp & _)]; [exact E|].
      exfalso. exact (big_small_paths_differ _ _ _ Hp). }
    rewrite E. subst fs1.
    destruct (process_pass_spec create_1x2_sheet render2 "big_sheet_" 2 big_folder
                output_folder fs files Hr2 Hfiles) as (_ & W).
    rewrite (W k chunk Hk), Hrd. reflexivity. }
  assert (Hsmall : (process_pass create_2x2_sheet "small_sheet_" 4 small_folder
                                 output_folder fs2).2 = fs2).
  { apply (process_pass_fixed _ render4); [exact Hr4|].
    intros files k chunk sheet Hfiles Hk Hrd. subst fs2.
    destruct (process_pass_spec create_2x2_sheet render4 "small_sheet_" 4
                small_folder output_folder fs1 files Hr4 Hfiles) as (_ & W).
    rewrite (W k chunk Hk), Hrd. reflexivity. }
  rewrite (process_folders_eq big_folder small_folder output_folder fs2).
  cbn [fst snd]. rewrite Hbig, Hsmall.
  rewrite (process_pass_count create_1x2_sheet render2 _ _ _ _ fs2 fs Hr2).
  rewrite (process_pass_count create_2x2_sheet render4 _ _ _ _ fs2 fs1 Hr4).
  reflexivity.
Qed.

End PassFacts.

(* ===================================================================== *)
(** * Printing *)
(* ===================================================================== *)

Section PrintFacts.
Context {lib : Imaging} {disk : Disk}.
Variable lp_runs : list (list string) -> list string -> bool.

Lemma print_loop_spec (image_files : list string) :
  forall (printed_count : Z) (log : list (list string)),
    let r := print_loop lp_runs image_files printed_count log in
    r.2 = log ++ ((fun p => [ "lp"%string; p ]) <$> image_files) /\
    printed_count <= r.1 <= printed_count + Z.of_nat (length image_files) /\
    ((forall l p, p ∈ image_files -> lp_runs l [ "lp"%string; p ] = true) ->
     r.1 = printed_count + Z.of_nat (length image_files)) /\
    ((forall l p, p ∈ image_files -> lp_runs l [ "lp"%string; p ] = false) ->
     r.1 = printed_count).
Proof.
  induction image_files as [|f rest IH]; intros printed_count log; cbv zeta.
  - cbn. rewrite app_nil_r. repeat split; lia.
  - cbn [print_loop fmap list_fmap length].
    assert (Hlog : forall n,
               (print_loop lp_runs rest n (log ++ [[ "lp"%string; f ]])).2
               = log ++ [ "lp"%string; f ]
                        :: ((fun p => [ "lp"%string; p ]) <$> rest)).
    { intros n. destruct (IH n (log ++ [[ "lp"%string; f ]])) as (L & _).
      rewrite L, <- app_assoc. reflexivity. }
    destruct (lp_runs log [ "lp"%string; f ]) eqn:E.
    + destruct (IH (printed_count + 1) (log ++ [[ "lp"%string; f ]]))
        as (_ & B & A & N).
      split; [apply Hlog|]. split; [lia|]. split.
      * intros Hall. rewrite A; [lia|]. intros l p Hp. apply Hall. right. exact Hp.
      * intros Hnone. rewrite Hnone in E by left. discriminate.
    + destruct (IH printed_count (log ++ [[ "lp"%string; f ]]))
        as (_ & B & A & N).
      split; [apply Hlog|]. split; [lia|]. split.
      * intros Hall. rewrite Hall in E by left. discriminate.
      * intros Hnone. apply N. intros l p Hp. apply Hnone. right. exact Hp.
Qed.

(** X14.  With printing enabled, every image file of the folder is sent to
    [lp] once, in the order of the list, whether or not earlier commands
    failed; the count returned is at most the number of files, all of them
    when every command succeeds and 0 when none does.  With printing
    disabled, or a folder that does not exist, nothing is run and the count
    is 0. *)
Theorem print_photos_sends_every_file (print_files : bool) (folder : string)
        (log : list (list string)) :
  let r := print_photos lp_runs print_files folder log in
  (print_files = false -> r = (0, log)) /\
  (get_image_files folder = None -> r = (0, log)) /\
  forall image_files,
    print_files = true ->
    get_image_files folder = Some image_files ->
    r.2 = log ++ ((fun p => [ "lp"%string; p ]) <$> image_files) /\
    0 <= r.1 <= Z.of_nat (length image_files) /\
    ((forall l p, p ∈ image_files -> lp_runs l [ "lp"%string; p ] = true) ->
     r.1 = Z.of_nat (length image_files)) /\
    ((forall l p, p ∈ image_files -> lp_runs l [ "lp"%string; p ] = false) ->
     r.1 = 0).
Proof.
  cbv zeta. unfold print_photos. split; [intros ->; reflexivity|]. split.
  - intros ->. destruct print_files; reflexivity.
  - intros image_files -> ->. cbn [negb].
    destruct image_files as [|f rest].
    + cbn. rewrite app_nil_r. repeat split; lia.
    + pose proof (print_loop_spec (f :: rest) 0 log) as H. cbv zeta in H.
      rewrite !Z.add_0_l in H. exact H.
Qed.

End PrintFacts.

(* ===================================================================== *)
(** * The theorems at work on the sample backend *)
(* ===================================================================== *)

Section Witnesses.
#[local] Existing Instance grey_imaging.
#[local] Existing Instance sample_disk.

Lemma fit_image_to_quad_within_region_witness :
  (0 < 3000 < 2 ^ 53 /\ 0 < 2000 < 2 ^ 53 /\ 0 < 900 < 2 ^ 52 /\ 0 < 1200 < 2 ^ 52) /\
  0 <= width (fit_image_to_quad (gradient 3000 2000) 900 1200) <= 900 /\
  0 <= height (fit_image_to_quad (gradient 3000 2000) 900 1200) <= 1200.
Proof.
  split; [lia|].
  pose proof (fit_image_to_quad_within_region (gradient 3000 2000) 900 1200
                ltac:(cbn; lia) ltac:(cbn; lia) ltac:(lia) ltac:(lia)) as H.
  cbv zeta in H. destruct H as (Hw & Hh & _). split; assumption.
Defined.

Lemma fit_image_to_quad_orientation_witness :
  (area_normal (gradient 1000 1000) 900 600
   == area_rotated (gradient 1000 1000) 900 600)%Q /\
  fit_image_to_quad (gradient 1000 1000) 900 600
  = resize (gradient 1000 1000)
      (trunc (mul (of_int 1000) (min (truediv 900 1000) (truediv 600 1000))))
      (trunc (mul (of_int 1000) (min (truediv 900 1000) (truediv 600 1000)))).
Proof.
  assert (Htie : (area_normal (gradient 1000 1000) 900 600
                  == area_rotated (gradient 1000 1000) 900 600)%Q)
    by (vm_compute; reflexivity).
  split; [exact Htie|].
  pose proof (fit_image_to_quad_orientation (gradient 1000 1000) 900 600) as H.
  cbv zeta in H. destruct H as (_ & _ & _ & _ & H). exact (H Htie).
Defined.


Lemma create_1x2_sheet_no_images_witness :
  let image_paths := [ "SMALL/b.jpg"; "SMALL/d.jpg" ]%string in
  Forall (fun p => open_rgb p = None) (take 2 image_paths) /\
  create_1x2_sheet image_paths "TOPRINT/big_sheet_001.jpg" ∅ = (false, ∅).
Proof.
  intros image_paths.
  assert (H : Forall (fun p => open_rgb p = None) (take 2 image_paths))
    by (repeat constructor).
  split; [exact H|].
  exact (proj1 (create_1x2_sheet_no_images image_paths
                  "TOPRINT/big_sheet_001.jpg" ∅ H)).
Defined.

Lemma create_1x2_sheet_single_image_witness :
  let image_paths := [ "SMALL/a.jpg"; "SMALL/b.jpg" ]%string in
  omap open_rgb (take 2 image_paths) = [ photo_3000x2000 ] /\
  fit_returns photo_3000x2000 1800 1200 = true /\
  exists sheet,
    create_1x2_sheet image_paths "TOPRINT/big_sheet_001.jpg" ∅
    = (true, save sheet "TOPRINT/big_sheet_001.jpg" ∅) /\
    region_holds sheet
      (fit_image_to_quad
         (apply_enhancements (dec_image photo_3000x2000) ENHANCEMENT_FACTOR)
         1800 1200)
      0 0 1800 1200.
Proof.
  intros image_paths.
  assert (H : omap open_rgb (take 2 image_paths) = [ photo_3000x2000 ])
    by reflexivity.
  assert (Hfit : fit_returns photo_3000x2000 1800 1200 = true)
    by (vm_compute; reflexivity).
  split; [exact H|]. split; [exact Hfit|].
  pose proof (create_1x2_sheet_single_image image_paths
                "TOPRINT/big_sheet_001.jpg" ∅ photo_3000x2000 H) as T.
  cbv zeta in T. destruct T as (Hok & _).
  destruct (Hok Hfit) as (_ & _ & Hrun & _ & _ & _ & Hreg).
  eexists. split; [exact Hrun | exact Hreg].
Defined.

Lemma create_2x2_sheet_two_of_four_witness :
  let image_paths :=
    [ "SMALL/a.jpg"; "SMALL/b.jpg"; "SMALL/c.jpg"; "SMALL/d.jpg" ]%string in
  (length image_paths = 4%nat /\ length (omap open_rgb image_paths) = 2%nat) /\
  Forall (fun d => fit_returns d 900 600 = true) (omap open_rgb image_paths) /\
  exists sheet,
    create_2x2_sheet image_paths "TOPRINT/small_sheet_001.jpg" ∅
    = (true, save sheet "TOPRINT/small_sheet_001.jpg" ∅).
Proof.
  intros image_paths.
  assert (H4 : length image_paths = 4%nat) by reflexivity.
  assert (H2 : length (omap open_rgb image_paths) = 2%nat) by reflexivity.
  assert (Hfit : Forall (fun d => fit_returns d 900 600 = true)
                        (omap open_rgb image_paths))
    by (repeat constructor; vm_compute; reflexivity).
  split; [split; assumption|]. split; [exact Hfit|].
  destruct (create_2x2_sheet_two_of_four image_paths
              "TOPRINT/small_sheet_001.jpg" ∅ H4 H2) as (Hok & _).
  destruct (Hok Hfit) as (sheet & _ & _ & _ & _ & Hrun & _).
  exists sheet. exact Hrun.
Defined.

Lemma scheduler_chunks_witness :
  let files :=
    [ "SMALL/a.jpg"; "SMALL/b.jpg"; "SMALL/c.jpg"; "SMALL/d.jpg";
      "SMALL/e.jpg" ]%string in
  ((4 = 2 \/ 4 = 4) /\ Z.of_nat (length files) < 2 ^ 53) /\
  length (chunks 4 files) = 2%nat /\
  length <$> chunks 4 files = [ 4%nat; 1%nat ] /\
  concat (chunks 4 files) = files.
Proof.
  intros files.
  assert (Hc : 4 = 2 \/ 4 = 4) by (right; reflexivity).
  assert (Hl : Z.of_nat (length files) < 2 ^ 53) by (cbn; lia).
  split; [split; assumption|].
  pose proof (scheduler_chunks 4 files Hc Hl) as T. cbv zeta in T.
  destruct T as (_ & Hlen & _ & Hcat & _ & _ & H5 & _).
  split; [exact Hlen|]. split; [exact (H5 eq_refl eq_refl) | exact Hcat].
Defined.

Lemma create_2x2_sheet_no_images_witness :
  let image_paths := [ "SMALL/b.jpg"; "SMALL/d.jpg" ]%string in
  Forall (fun p => open_rgb p = None) image_paths /\
  create_2x2_sheet image_paths "TOPRINT/small_sheet_001.jpg" ∅
  = (true, save (new_image OUTPUT_WIDTH_PX OUTPUT_HEIGHT_PX white)
                "TOPRINT/small_sheet_001.jpg" ∅).
Proof.
  intros image_paths.
  assert (H : Forall (fun p => open_rgb p = None) image_paths)
    by (repeat constructor).
  split; [exact H|].
  pose proof (create_2x2_sheet_no_images image_paths
                "TOPRINT/small_sheet_001.jpg" ∅ H) as T.
  cbv zeta in T. exact (proj1 T).
Defined.

Lemma paste_stays_in_region_witness :
  let sheet := new_image 1800 1200 white in
  let img := gradient 3000 2000 in
  (0 < 3000 < 2 ^ 53 /\ 0 < 2000 < 2 ^ 53 /\ 0 < 900 < 2 ^ 52 /\ 0 < 600 < 2 ^ 52) /\
  forall x y,
    in_box 900 0 900 600 x y = false ->
    pixels (paste_centered sheet (fit_image_to_quad img 900 600) 900 0 900 600) x y
    = pixels sheet x y.
Proof.
  intros sheet img. split; [lia|].
  pose proof (paste_stays_in_region sheet img 900 0 900 600
                ltac:(cbn; lia) ltac:(cbn; lia) ltac:(lia) ltac:(lia)) as T.
  cbv zeta in T. destruct T as (_ & _ & _ & _ & _ & _ & T). exact T.
Defined.

End Witnesses.

(* ===================================================================== *)
(** * Inputs on which the sentences of the specification fail *)
(* ===================================================================== *)

Section Counterexamples.
#[local] Existing Instance grey_imaging.
#[local] Existing Instance odd_disk.


(** A chunk whose one decodable file is a 5000 x 1 strip: fitted to the
    whole canvas it gets height 0, [resize] raises, and the optimized
    compositor returns [False] with nothing pasted or written. *)
Lemma create_1x2_sheet_single_strip_fails :
  let image_paths := [ "STRIP/e.jpg"; "STRIP/f.jpg" ]%string in
  omap open_rgb (take 2 image_paths) = [ strip_5000x1 ] /\
  (width (fit_image_to_quad
            (apply_enhancements (dec_image strip_5000x1) ENHANCEMENT_FACTOR)
            1800 1200),
   height (fit_image_to_quad
             (apply_enhancements (dec_image strip_5000x1) ENHANCEMENT_FACTOR)
             1800 1200)) = (1800, 0) /\
  create_1x2_sheet image_paths "TOPRINT/big_sheet_001.jpg" ∅ = (false, ∅).
Proof.
  cbv zeta.
  split; [reflexivity|]. split; vm_compute; reflexivity.
Qed.

(** Four files of which two decode, one of them a 1000 x 1 strip: fitted to
    a quadrant it gets height 0, [resize] raises, and the grid compositor
    returns [False] and writes no sheet. *)
Lemma create_2x2_sheet_two_of_four_strip_fails :
  let image_paths :=
    [ "STRIP/a.jpg"; "STRIP/b.jpg"; "STRIP/c.jpg"; "STRIP/d.jpg" ]%string in
  length image_paths = 4%nat /\
  omap open_rgb image_paths = [ strip_1000x1; photo_640x480 ] /\
  (width (fit_image_to_quad
            (apply_enhancements (dec_image strip_1000x1) ENHANCEMENT_FACTOR)
            900 600),
   height (fit_image_to_quad
             (apply_enhancements (dec_image strip_1000x1) ENHANCEMENT_FACTOR)
             900 600)) = (900, 0) /\
  create_2x2_sheet image_paths "TOPRINT/small_sheet_001.jpg" ∅ = (false, ∅).
Proof.
  cbv zeta.
  split; [reflexivity|]. split; [reflexivity|]. split; vm_compute; reflexivity.
Qed.

End Counterexamples.

(* ===================================================================== *)
(** * The further theorems at work on the sample backend *)
(* ===================================================================== *)

Section MoreWitnesses.
#[local] Existing Instance grey_imaging.
#[local] Existing Instance sample_disk.

Lemma fit_touches_region_witness :
  (0 < 3000 < 2 ^ 53 /\ 0 < 2000 < 2 ^ 53 /\ 0 < 900 < 2 ^ 52 /\ 0 < 1200 < 2 ^ 52) /\
  (900 - 1 <= width (fit_image_to_quad (gradient 3000 2000) 900 1200) \/
   1200 - 1 <= height (fit_image_to_quad (gradient 3000 2000) 900 1200)).
Proof.
  split; [lia|].
  pose proof (fit_touches_region (gradient 3000 2000) 900 1200
                ltac:(cbn; lia) ltac:(cbn; lia) ltac:(lia) ltac:(lia)) as T.
  cbv zeta in T. exact (proj2 (proj2 T)).
Defined.

Lemma square_never_rotated_witness :
  (0 < 1000 < 2 ^ 53 /\ 0 < 900 < 2 ^ 52 /\ 0 < 600 < 2 ^ 52) /\
  (width (gradient 1000 1000) = height (gradient 1000 1000) \/ 900 = 600) /\
  area_normal (gradient 1000 1000) 900 600 = area_rotated (gradient 1000 1000) 900 600.
Proof.
  split; [lia|].
  assert (Hsq : width (gradient 1000 1000) = height (gradient 1000 1000) \/ 900 = 600)
    by (left; reflexivity).
  split; [exact Hsq|].
  exact (proj1 (square_never_rotated (gradient 1000 1000) 900 600
                  ltac:(cbn; lia) ltac:(cbn; lia) ltac:(lia) ltac:(lia) Hsq)).
Defined.

Lemma fit_size_of_rotated_input_witness :
  (0 < 3000 < 2 ^ 53 /\ 0 < 2000 < 2 ^ 53 /\ 0 < 900 < 2 ^ 52 /\ 0 < 1200 < 2 ^ 52) /\
  ~ (area_normal (gradient 3000 2000) 900 1200
     == area_rotated (gradient 3000 2000) 900 1200)%Q /\
  width (fit_image_to_quad (rotate90 (gradient 3000 2000)) 900 1200)
  = width (fit_image_to_quad (gradient 3000 2000) 900 1200).
Proof.
  split; [lia|].
  assert (Hne : ~ (area_normal (gradient 3000 2000) 900 1200
                   == area_rotated (gradient 3000 2000) 900 1200)%Q)
    by (vm_compute; discriminate).
  split; [exact Hne|].
  exact (proj1 (fit_size_of_rotated_input (gradient 3000 2000) 900 1200
                  ltac:(cbn; lia) ltac:(cbn; lia) ltac:(lia) ltac:(lia) Hne)).
Defined.

Lemma fit_same_size_witness :
  (0 < 900 < 2 ^ 53 /\ 0 < 600 < 2 ^ 53) /\
  fit_image_to_quad (gradient 900 600) 900 600 = resize (gradient 900 600) 900 600.
Proof.
  split; [lia|].
  exact (fit_same_size (gradient 900 600) ltac:(cbn; lia) ltac:(cbn; lia)).
Defined.

Lemma layout_2x1_when_larger_witness :
  let image_paths := [ "SMALL/a.jpg"; "SMALL/c.jpg" ]%string in
  omap open_rgb (take 2 image_paths) = [ photo_3000x2000; photo_640x480 ] /\
  total_area (_calculate_layout_area (load_images (take 2 image_paths)) "1x2")
  < total_area (_calculate_layout_area (load_images (take 2 image_paths)) "2x1") /\
  fit_returns photo_3000x2000 900 1200 && fit_returns photo_640x480 900 1200 = true /\
  choose_layout (load_images (take 2 image_paths))
  = ("2x1"%string, 900, 1200, [ (0, 0); (900, 0) ]) /\
  exists sheet,
    create_1x2_sheet image_paths "TOPRINT/big_sheet_001.jpg" ∅
    = (true, save sheet "TOPRINT/big_sheet_001.jpg" ∅).
Proof.
  intros image_paths.
  assert (H2 : omap open_rgb (take 2 image_paths)
               = [ photo_3000x2000; photo_640x480 ]) by reflexivity.
  assert (Hlt : total_area (_calculate_layout_area
                              (load_images (take 2 image_paths)) "1x2")
                < total_area (_calculate_layout_area
                                (load_images (take 2 image_paths)) "2x1"))
    by (vm_compute; reflexivity).
  assert (Hfit : fit_returns photo_3000x2000 900 1200
                 && fit_returns photo_640x480 900 1200 = true)
    by (vm_compute; reflexivity).
  split; [exact H2|]. split; [exact Hlt|]. split; [exact Hfit|].
  destruct (layout_2x1_when_larger image_paths "TOPRINT/big_sheet_001.jpg"
              ∅ photo_3000x2000 photo_640x480 H2 Hlt) as (Hchoose & Hok & _).
  split; [exact Hchoose|].
  destruct (Hok Hfit) as (sheet & Hrun & _). exists sheet. exact Hrun.
Defined.

Lemma layout_1x2_unless_larger_witness :
  let image_paths := [ "BIG/p.jpg"; "BIG/q.jpg" ]%string in
  omap open_rgb (take 2 image_paths) = [ photo_2000x1000; photo_2000x1000 ] /\
  total_area (_calculate_layout_area (load_images (take 2 image_paths)) "2x1")
  <= total_area (_calculate_layout_area (load_images (take 2 image_paths)) "1x2") /\
  fit_returns photo_2000x1000 1800 600 && fit_returns photo_2000x1000 1800 600 = true /\
  choose_layout (load_images (take 2 image_paths))
  = ("1x2"%string, 1800, 600, [ (0, 0); (0, 600) ]) /\
  exists sheet,
    create_1x2_sheet image_paths "TOPRINT/big_sheet_001.jpg" ∅
    = (true, save sheet "TOPRINT/big_sheet_001.jpg" ∅).
Proof.
  intros image_paths.
  assert (H2 : omap open_rgb (take 2 image_paths)
               = [ photo_2000x1000; photo_2000x1000 ]) by reflexivity.
  assert (Hle : total_area (_calculate_layout_area
                              (load_images (take 2 image_paths)) "2x1")
                <= total_area (_calculate_layout_area
                                 (load_images (take 2 image_paths)) "1x2"))
    by (vm_compute; discriminate).
  assert (Hfit : fit_returns photo_2000x1000 1800 600
                 && fit_returns photo_2000x1000 1800 600 = true)
    by (vm_compute; reflexivity).
  split; [exact H2|]. split; [exact Hle|]. split; [exact Hfit|].
  destruct (layout_1x2_unless_larger image_paths "TOPRINT/big_sheet_001.jpg"
              ∅ photo_2000x1000 photo_2000x1000 H2 Hle) as (Hchoose & Hok & _).
  split; [exact Hchoose|].
  destruct (Hok Hfit) as (sheet & Hrun & _). exists sheet. exact Hrun.
Defined.

Lemma fitted_paste_margins_witness :
  let r := fit_image_to_quad (gradient 3000 2000) 900 600 in
  (0 < 3000 < 2 ^ 53 /\ 0 < 2000 < 2 ^ 53 /\ 0 < 900 < 2 ^ 52 /\ 0 < 600 < 2 ^ 52) /\
  paste_centered (new_image 1800 1200 white) r 900 0 900 600
  = paste (new_image 1800 1200 white) r
          (900 + (900 - width r) / 2) (0 + (600 - height r) / 2).
Proof.
  intros r. split; [lia|].
  pose proof (fitted_paste_margins (new_image 1800 1200 white) (gradient 3000 2000)
                900 0 900 600
                ltac:(cbn; lia) ltac:(cbn; lia) ltac:(lia) ltac:(lia)) as T.
  cbv zeta in T. exact (proj1 T).
Defined.

Lemma sheet_names_distinct_witness :
  (0 <= 7 /\ 0 <= 7) /\
  sheet_path "TOPRINT" "big_sheet_" 7 = "TOPRINT/big_sheet_007.jpg"%string /\
  ("big_sheet_"%string = "big_sheet_"%string /\ 7 = 7).
Proof.
  split; [lia|]. split; [reflexivity|].
  exact (sheet_names_distinct "TOPRINT" "big_sheet_" "big_sheet_" 7 7
           (or_introl eq_refl) (or_introl eq_refl)
           ltac:(lia) ltac:(lia) eq_refl).
Defined.

Lemma process_folders_small_sheets_witness :
  let big_files := [ "BIG/p.jpg"; "BIG/q.jpg" ]%string in
  let small_files :=
    [ "SMALL/a.jpg"; "SMALL/b.jpg"; "SMALL/c.jpg"; "SMALL/d.jpg";
      "SMALL/e.jpg" ]%string in
  (get_image_files "BIG" = Some big_files /\
   get_image_files "SMALL" = Some small_files) /\
  (process_folders "BIG" "SMALL" "TOPRINT" ∅).1.2
  = Z.of_nat (length (List.filter grid_renders (chunks 4 small_files))).
Proof.
  intros big_files small_files.
  assert (Hb : get_image_files "BIG" = Some big_files) by reflexivity.
  assert (Hs : get_image_files "SMALL" = Some small_files) by reflexivity.
  split; [split; assumption|].
  exact (proj1 (process_folders_small_sheets "BIG" "SMALL" "TOPRINT" ∅
                  big_files small_files Hb Hs)).
Defined.

Lemma process_folders_big_sheets_witness :
  let big_files := [ "BIG/p.jpg"; "BIG/q.jpg" ]%string in
  let small_files :=
    [ "SMALL/a.jpg"; "SMALL/b.jpg"; "SMALL/c.jpg"; "SMALL/d.jpg";
      "SMALL/e.jpg" ]%string in
  (get_image_files "BIG" = Some big_files /\
   get_image_files "SMALL" = Some small_files) /\
  (process_folders "BIG" "SMALL" "TOPRINT" ∅).1.1
  = Z.of_nat (length (List.filter optimized_renders (chunks 2 big_files))).
Proof.
  intros big_files small_files.
  assert (Hb : get_image_files "BIG" = Some big_files) by reflexivity.
  assert (Hs : get_image_files "SMALL" = Some small_files) by reflexivity.
  split; [split; assumption|].
  exact (proj1 (process_folders_big_sheets "BIG" "SMALL" "TOPRINT" ∅
                  big_files small_files Hb Hs)).
Defined.

End MoreWitnesses.
